(** * blueolive-be: the analysis job pipeline and the dashboard aggregator

    A shallow embedding of
      - [processAnalysis]        (analysis/services/worker.service.ts),
      - [analyzeGame]            (analysis/services/gemini.service.ts),
      - [calculateWinRate], [getMostPlayedOpenings], [getPerformanceByColor]
                                 (users/services/dashboard.service.ts),
    over the document types of analysis/types/index.ts and the Mongoose
    schema of analysis.model.ts, followed by the properties of the
    specification that concern them. *)

From Stdlib Require Import ZArith Floats.
From stdpp Require Import gmap strings list fin_maps.

(* ===================================================================== *)
(** * Data model (analysis/types/index.ts) *)
(* ===================================================================== *)

(** A JavaScript string is held as the UTF-8 encoding of its text. *)

Inductive AnalysisStatus := PENDING | PROCESSING | COMPLETED | FAILED.

Inductive PlayerColor := white | black.

Definition status_eqb (a b : AnalysisStatus) : bool :=
  match a, b with
  | PENDING, PENDING | PROCESSING, PROCESSING
  | COMPLETED, COMPLETED | FAILED, FAILED => true
  | _, _ => false
  end.

Definition color_eqb (a b : PlayerColor) : bool :=
  match a, b with
  | white, white | black, black => true
  | _, _ => false
  end.

(** [playerColor === c] where the left side is the optional field
    [player_color?: PlayerColor]. *)
Definition color_is (o : option PlayerColor) (c : PlayerColor) : bool :=
  match o with
  | Some c' => color_eqb c' c
  | None => false
  end.

(** [s || d] for an optional string field: [undefined] and the empty string
    are both falsy. *)
Definition or_default (o : option string) (d : string) : string :=
  match o with
  | Some s => if String.eqb s "" then d else s
  | None => d
  end.

Record AnalysisMetadata := {
  meta_white : string;
  meta_black : string;
  meta_result : string;
  meta_event : option string;
  meta_date : option string;
  meta_eco : option string;
  meta_opening : option string
}.

Record ChessPuzzle := {
  title : string;
  description : string;
  fen : string;
  solution : string;
  hint : option string;
  difficulty : string;
  theme : string
}.

Record Phase := {
  phase_name : string;
  phase_moves : string;
  phase_evaluation : string;
  key_ideas : list string
}.

Record KeyMoment := {
  move_number : Z;
  move : string;
  km_fen : string;
  km_evaluation : string;
  comment : string;
  is_mistake : bool
}.

(** [Omit<AnalysisResult, "puzzles">]: what [analyzeGame] returns as
    [result]. *)
Record AnalysisBody := {
  summary : string;
  phases : list Phase;
  key_moments : list KeyMoment;
  recommendations : list string
}.

(** [AnalysisResult]: the body plus [puzzles: string[]], an array of
    puzzle_ids referring to the Puzzle collection. *)
Record AnalysisResult := {
  res_body : AnalysisBody;
  res_puzzles : list string
}.

(** [IAnalysisDocument].  [user_id] is [Schema.Types.Mixed]; it is kept as
    the string [toString()] yields, [None] standing for null/undefined.
    [result = None] stands for the schema default (the empty object), and
    [error], [completed_at] are absent until assigned.  Dates are
    milliseconds since the epoch.  The [created_at]/[updated_at] pair that
    the schema's [timestamps] option maintains is left to the store. *)
Record Analysis := {
  analysis_id : string;
  user_id : option string;
  batch_id : option string;
  status : AnalysisStatus;
  pgn : string;
  gcs_url : option string;
  player_name : string;
  player_color : option PlayerColor;
  metadata : AnalysisMetadata;
  result : option AnalysisResult;
  error : option string;
  completed_at : option Z
}.

(* ===================================================================== *)
(** * Dashboard aggregator (users/services/dashboard.service.ts) *)
(* ===================================================================== *)

Module Dashboard.

(** ** Numbers

    Counters are JavaScript numbers that only ever hold small exact
    integers, so they are [nat] here; the win rate itself is computed in
    binary64, as the source does, on Rocq's primitive floats. *)

Definition float_of_nat (n : nat) : float :=
  PrimFloat.of_uint63 (Uint63.of_Z (Z.of_nat n)).

Definition float_of_Z (n : Z) : float :=
  if (n <? 0)%Z
  then PrimFloat.opp (PrimFloat.of_uint63 (Uint63.of_Z (- n)))
  else PrimFloat.of_uint63 (Uint63.of_Z n).

(** [Math.round]: the integral number closest to [x], ties going towards
    +infinity; NaN, the infinities and the zeros are returned as they are,
    and so is every [x] of magnitude 2^52 or more (already integral).  For
    the other finite values [m * 2^e] the integer [floor (x + 1/2)] is
    computed exactly in [Z]; a negative [x] that rounds to zero gives -0. *)
Definition Math_round (x : float) : float :=
  match Prim2SF x with
  | S754_finite s m e =>
      if (0 <=? e)%Z then x
      else
        let n := if s then Z.neg m else Z.pos m in
        let r := ((2 * n + 2 ^ (- e)) / 2 ^ (1 - e))%Z in
        if (r =? 0)%Z then (if s then PrimFloat.opp 0%float else 0%float)
        else float_of_Z r
  | _ => x
  end.

(** The [if] condition shared by the three aggregations:
    [(result === "1-0" && playerColor === "white") ||
     (result === "0-1" && playerColor === "black")]. *)
Definition is_win (result : string) (playerColor : option PlayerColor) : bool :=
  (String.eqb result "1-0" && color_is playerColor white)
  || (String.eqb result "0-1" && color_is playerColor black).

(** ** calculateWinRate *)

(** The filter predicate of [completedAnalyses]. *)
Definition counts_for_win_rate (a : Analysis) : bool :=
  status_eqb (status a) COMPLETED
  && negb (String.eqb (meta_result (metadata a)) "*").

Definition count_wins (completedAnalyses : list Analysis) : nat :=
  fold_left
    (fun wins analysis =>
       if is_win (meta_result (metadata analysis)) (player_color analysis)
       then S wins else wins)
    completedAnalyses 0.

(** [None] is the [undefined] returned when nothing is left after the
    filter. *)
Definition calculateWinRate (analyses : list Analysis) : option float :=
  let completedAnalyses := List.filter counts_for_win_rate analyses in
  if Nat.eqb (length completedAnalyses) 0 then None
  else
    let wins := count_wins completedAnalyses in
    Some (Math_round
            (PrimFloat.mul
               (PrimFloat.div (float_of_nat wins)
                              (float_of_nat (length completedAnalyses)))
               100%float)).

(** ** getPerformanceByColor *)

Record ColorStats := { wins : nat; losses : nat; draws : nat }.

Record Performance := { perf_white : ColorStats; perf_black : ColorStats }.

Definition on_color (c : PlayerColor) (f : ColorStats -> ColorStats)
    (p : Performance) : Performance :=
  match c with
  | white => {| perf_white := f (perf_white p); perf_black := perf_black p |}
  | black => {| perf_white := perf_white p; perf_black := f (perf_black p) |}
  end.

Definition of_color (c : PlayerColor) (p : Performance) : ColorStats :=
  match c with
  | white => perf_white p
  | black => perf_black p
  end.

Definition add_win (s : ColorStats) : ColorStats :=
  {| wins := S (wins s); losses := losses s; draws := draws s |}.
Definition add_loss (s : ColorStats) : ColorStats :=
  {| wins := wins s; losses := S (losses s); draws := draws s |}.
Definition add_draw (s : ColorStats) : ColorStats :=
  {| wins := wins s; losses := losses s; draws := S (draws s) |}.

(** One iteration of the [for] loop. *)
Definition performance_step (performance : Performance) (analysis : Analysis)
    : Performance :=
  if negb (status_eqb (status analysis) COMPLETED) then performance
  else
    let result := meta_result (metadata analysis) in
    match player_color analysis with
    | None => performance                      (* if (!playerColor) continue *)
    | Some playerColor =>
        if String.eqb result "1/2-1/2" then on_color playerColor add_draw performance
        else if is_win result (Some playerColor)
             then on_color playerColor add_win performance
             else on_color playerColor add_loss performance
    end.

Definition no_games : ColorStats := {| wins := 0; losses := 0; draws := 0 |}.

Definition getPerformanceByColor (analyses : list Analysis) : Performance :=
  fold_left performance_step analyses
            {| perf_white := no_games; perf_black := no_games |}.

(** ** getMostPlayedOpenings *)

Record OpeningStat := {
  opening : string;
  eco : option string;
  count : nat;
  os_wins : nat;
  os_losses : nat;
  os_draws : nat
}.

(** The key under which an analysis is grouped: [`${opening}|${eco}`]. *)
Definition opening_of (a : Analysis) : string :=
  or_default (meta_opening (metadata a)) "Unknown".
Definition eco_of (a : Analysis) : string :=
  or_default (meta_eco (metadata a)) "".
Definition opening_key (a : Analysis) : string :=
  opening_of a +:+ "|" +:+ eco_of a.

(** [openingMap]: a JavaScript [Map], which iterates in insertion order, as
    an association list with [set] of a new key appending at the end. *)
Abbreviation OpeningMap := (list (string * OpeningStat)).

Fixpoint map_has (key : string) (m : OpeningMap) : bool :=
  match m with
  | [] => false
  | (k, _) :: m' => String.eqb k key || map_has key m'
  end.

(** [openingMap.get(key)] followed by in-place updates of the stat. *)
Fixpoint map_modify (key : string) (f : OpeningStat -> OpeningStat)
    (m : OpeningMap) : OpeningMap :=
  match m with
  | [] => []
  | (k, s) :: m' =>
      if String.eqb k key then (k, f s) :: m'
      else (k, s) :: map_modify key f m'
  end.

Definition tally (result : string) (playerColor : option PlayerColor)
    (stat : OpeningStat) : OpeningStat :=
  let stat := {| opening := opening stat; eco := eco stat;
                 count := S (count stat); os_wins := os_wins stat;
                 os_losses := os_losses stat; os_draws := os_draws stat |} in
  if String.eqb result "1/2-1/2" then
    {| opening := opening stat; eco := eco stat; count := count stat;
       os_wins := os_wins stat; os_losses := os_losses stat;
       os_draws := S (os_draws stat) |}
  else if is_win result playerColor then
    {| opening := opening stat; eco := eco stat; count := count stat;
       os_wins := S (os_wins stat); os_losses := os_losses stat;
       os_draws := os_draws stat |}
  else
    {| opening := opening stat; eco := eco stat; count := count stat;
       os_wins := os_wins stat; os_losses := S (os_losses stat);
       os_draws := os_draws stat |}.

(** One iteration of the [for] loop. *)
Definition openings_step (openingMap : OpeningMap) (analysis : Analysis)
    : OpeningMap :=
  if negb (status_eqb (status analysis) COMPLETED) then openingMap
  else
    let opening_ := opening_of analysis in
    let eco_ := eco_of analysis in
    let key := opening_key analysis in
    let openingMap :=
      if map_has key openingMap then openingMap
      else openingMap ++
           [(key, {| opening := opening_;
                     eco := if String.eqb eco_ "" then None else Some eco_;
                     count := 0; os_wins := 0; os_losses := 0; os_draws := 0 |})] in
    map_modify key
      (tally (meta_result (metadata analysis)) (player_color analysis))
      openingMap.

(** [Array.prototype.sort] is stable; with the comparator
    [(a, b) => b.count - a.count] an element stays behind every earlier
    element whose count is at least its own. *)
Fixpoint insert_by_count (x : OpeningStat) (l : list OpeningStat)
    : list OpeningStat :=
  match l with
  | [] => [x]
  | y :: l' =>
      if Nat.leb (count y) (count x) then x :: y :: l'
      else y :: insert_by_count x l'
  end.

Definition sort_by_count (l : list OpeningStat) : list OpeningStat :=
  fold_right insert_by_count [] l.

Definition getMostPlayedOpenings (analyses : list Analysis) : list OpeningStat :=
  let openingMap := fold_left openings_step analyses [] in
  firstn 5 (sort_by_count (map snd openingMap)).

(** ** Notions used to state the properties *)

(** The games whose result is recorded, i.e. is not the PGN marker for an
    unknown result. *)
Definition known_result (a : Analysis) : bool :=
  negb (String.eqb (meta_result (metadata a)) "*").

Definition is_completed (a : Analysis) : bool :=
  status_eqb (status a) COMPLETED.

Definition is_draw (a : Analysis) : bool :=
  String.eqb (meta_result (metadata a)) "1/2-1/2".

Definition won (a : Analysis) : bool :=
  is_win (meta_result (metadata a)) (player_color a).

(** A completed game that is neither drawn nor won by the subject. *)
Definition other_outcome (a : Analysis) : bool :=
  is_completed a && negb (is_draw a) && negb (won a).

(** A game tallied as a loss of color [c]. *)
Definition tallied_loss (c : PlayerColor) (a : Analysis) : bool :=
  other_outcome a && color_is (player_color a) c.

(** The key under which a stat was created, read back from its fields. *)
Definition stat_key (s : OpeningStat) : string :=
  opening s +:+ "|" +:+ default "" (eco s).

Definition keyed_loss (key : string) (a : Analysis) : bool :=
  other_outcome a && String.eqb (opening_key a) key.

Fixpoint map_get (key : string) (m : OpeningMap) : option OpeningStat :=
  match m with
  | [] => None
  | (k, s) :: m' => if String.eqb k key then Some s else map_get key m'
  end.

Fixpoint distinct_keys (m : OpeningMap) : Prop :=
  match m with
  | [] => True
  | (k, _) :: m' => map_get k m' = None /\ distinct_keys m'
  end.

(** What the map holds after the loop has seen a list of analyses. *)
Definition tallies (m : OpeningMap) (seen : list Analysis) : Prop :=
  forall key,
    match map_get key m with
    | Some s => stat_key s = key
                /\ os_losses s = length (List.filter (keyed_loss key) seen)
    | None => length (List.filter (keyed_loss key) seen) = 0
    end.

End Dashboard.

(* ===================================================================== *)
(** * Reasoning client (analysis/services/gemini.service.ts) *)
(* ===================================================================== *)

(** A value thrown by JavaScript code: an instance of [Error] with its
    [name] and [message], or anything else. *)
Inductive Thrown :=
| JsError (name message : string)
| NotAnError.

Module Gemini.

(** [AnalysisContext], with the optional [event] and [date] as the worker
    passes them (already defaulted to the empty string). *)
Record AnalysisContext := {
  ctx_pgn : string;
  ctx_white : string;
  ctx_black : string;
  ctx_result : string;
  ctx_event : string;
  ctx_date : string;
  playerName : string;
  playerColor : option PlayerColor
}.

(** The value found under [puzzles] in the parsed payload.  The cast to
    [GeminiAnalysisResult] checks nothing, so the value can be anything
    JSON holds; the code tells four kinds apart:
      - a falsy value (the field is missing, or holds null, false, 0 or the
        empty string), which [|| []] replaces by the empty array;
      - an array, each of whose elements is null or not; of an element that
        is not null the code reads the title for the log and nothing else,
        and it is carried as a puzzle;
      - any other value whose [length] is not a positive number (true, a
        number, an object without such a field);
      - any other value whose [length] is positive (a string that is not
        empty, an object with such a field): it has no [map]. *)
Inductive PuzzlesField :=
| NoPuzzles
| PuzzleArray (elements : list (option ChessPuzzle))
| NotSized
| NotAnArray.

(** [GeminiAnalysisResult], the type the source casts the parsed payload
    to.  The matched span opens with a brace, so what [JSON.parse] returns
    is an object; the fields other than [puzzles] are passed on unread. *)
Record GeminiAnalysisResult := {
  gem_body : AnalysisBody;
  gem_puzzles : PuzzlesField
}.

(** ** The regular expression [/\{[\s\S]*\}/]

    [text.match(re)] without the g flag yields the leftmost match, and a
    backtracking matcher explores a greedy star longest-first.  The class
    [[\s\S]] accepts every code unit, and the two braces are one byte each
    in UTF-8, so the match is the same on the encoded text. *)

Definition open_brace : Ascii.ascii := Ascii.ascii_of_nat 123.
Definition close_brace : Ascii.ascii := Ascii.ascii_of_nat 125.

(** [[\s\S]*\}] matched at the start of [s]: the star first tries to take
    the next unit and go on; only when that fails does the closing brace
    get to match it. *)
Fixpoint match_star_close (s : string) : option string :=
  match s with
  | EmptyString => None
  | String c s' =>
      match match_star_close s' with
      | Some m => Some (String c m)
      | None =>
          if Ascii.eqb c close_brace then Some (String c EmptyString) else None
      end
  end.

(** The whole pattern, tried at each start position from the left;
    [Some m] is [jsonMatch[0]], [None] is the [null] of a failed match. *)
Fixpoint regex_match (text : string) : option string :=
  match text with
  | EmptyString => None
  | String c rest =>
      if Ascii.eqb c open_brace then
        match match_star_close rest with
        | Some m => Some (String c m)
        | None => regex_match rest
        end
      else regex_match rest
  end.

(** ** The description of the specification

    Section 4.1 speaks of the first balanced brace span instead.
    [balanced_prefix d s] reads [s] with [d] braces open and stops where
    the count returns to zero. *)
Fixpoint balanced_prefix (depth : nat) (s : string) : option string :=
  match s with
  | EmptyString => None
  | String c s' =>
      if Ascii.eqb c open_brace then
        option_map (String c) (balanced_prefix (S depth) s')
      else if Ascii.eqb c close_brace then
        match depth with
        | 0 => None
        | 1 => Some (String c EmptyString)
        | S d => option_map (String c) (balanced_prefix d s')
        end
      else option_map (String c) (balanced_prefix depth s')
  end.

Fixpoint first_balanced_span (text : string) : option string :=
  match text with
  | EmptyString => None
  | String c rest =>
      if Ascii.eqb c open_brace then
        match balanced_prefix 1 rest with
        | Some m => Some (String c m)
        | None => first_balanced_span rest
        end
      else first_balanced_span rest
  end.

(** ** analyzeGame *)

Section Client.

(** [process.env.GOOGLE_GENERATIVE_AI_API_KEY]. *)
Variable GOOGLE_GENERATIVE_AI_API_KEY : option string.

(** The external service: [generateText] applied to the prompt that
    [buildPrompt] assembles from the context, either throwing or yielding
    the response text. *)
Variable generateText : AnalysisContext -> Thrown + string.

(** [JSON.parse] on the matched span; [inl msg] is the [SyntaxError] it
    throws. *)
Variable JSON_parse : string -> string + GeminiAnalysisResult.

(** Lines 190-197, [puzzles.map((p) => p.title)] under
    [puzzles.length > 0]: reading the title of a null element throws, and
    so does calling [map] on a value that has none.  The messages of the
    two [TypeError]s are those of V8.  A value without a positive length is
    returned as it is; the worker in turn reads only its length (lines
    45-64), so it is carried as the empty array. *)
Definition null_element : Thrown :=
  JsError "TypeError" "Cannot read properties of null (reading 'title')".

Definition map_is_not_a_function : Thrown :=
  JsError "TypeError" "puzzles.map is not a function".

Definition logged_puzzles (field : PuzzlesField) : Thrown + list ChessPuzzle :=
  match field with
  | NoPuzzles => inr []
  | PuzzleArray elements =>
      match mapM id elements with
      | Some puzzles => inr puzzles
      | None => inl null_element
      end
  | NotSized => inr []
  | NotAnArray => inl map_is_not_a_function
  end.

(** Lines 181-207: from the response text to the returned pair. *)
Definition parse_response (text : string)
    : Thrown + (AnalysisBody * list ChessPuzzle) :=
  match regex_match text with
  | None => inl (JsError "Error" "Failed to parse JSON from Gemini response")
  | Some jsonMatch =>
      match JSON_parse jsonMatch with
      | inl msg => inl (JsError "SyntaxError" msg)
      | inr geminiResult =>
          match logged_puzzles (gem_puzzles geminiResult) with
          | inl e => inl e
          | inr puzzles => inr (gem_body geminiResult, puzzles)
          end
      end
  end.

(** Whether the call reaches the external service at all. *)
Definition has_api_key : bool :=
  negb (String.eqb (or_default GOOGLE_GENERATIVE_AI_API_KEY "") "").

(** The [catch] of [analyzeGame] logs and rethrows, so a failure of any
    step is the failure of the call. *)
Definition analyzeGame (ctx : AnalysisContext)
    : Thrown + (AnalysisBody * list ChessPuzzle) :=
  if negb has_api_key then
    inl (JsError "Error"
           ("GOOGLE_GENERATIVE_AI_API_KEY environment variable is not set. " +:+
            "Please set it in your environment variables or Cloud Run configuration."))
  else
    match generateText ctx with
    | inl e => inl e
    | inr text => parse_response text
    end.

End Client.

(** The two failures of the extraction step. *)
Definition is_parse_error (e : Thrown) : bool :=
  match e with
  | JsError name message =>
      String.eqb name "SyntaxError"
      || (String.eqb name "Error"
          && String.eqb message "Failed to parse JSON from Gemini response")
  | NotAnError => false
  end.

(** Whether the code unit [c] occurs in [s]. *)
Fixpoint occurs (c : Ascii.ascii) (s : string) : bool :=
  match s with
  | EmptyString => false
  | String d s' => Ascii.eqb d c || occurs c s'
  end.

End Gemini.

(* ===================================================================== *)
(** * Job processor (analysis/services/worker.service.ts) *)
(* ===================================================================== *)

Module Worker.

Import Gemini.

(** [IPuzzle]: a stored puzzle. *)
Record Puzzle := {
  puzzle_id : string;
  pz_user_id : string;
  pz_analysis_id : option string;
  pz_puzzle : ChessPuzzle
}.

(** The collaborators of the processor.  [savePuzzles] belongs to
    puzzle.service.ts: it receives the candidates, the user id and the
    analysis id, acts on the Puzzle collection, and either throws or returns
    the saved documents.  [save_fault n] is what the store answers to the
    [n]-th [analysis.save()] it receives: [None] when it accepts the write,
    [Some e] when it rejects it by throwing [e].  [now] is [new Date()]. *)
Record Services := {
  GOOGLE_GENERATIVE_AI_API_KEY : option string;
  generateText : AnalysisContext -> Thrown + string;
  JSON_parse : string -> string + GeminiAnalysisResult;
  savePuzzles : list ChessPuzzle -> string -> string -> list Puzzle ->
                (Thrown + list Puzzle) * list Puzzle;
  save_fault : nat -> option Thrown;
  now : Z
}.

(** What an invocation does to the outside, in order. *)
Inductive Event :=
| EvSave (analysisId : string) (doc : Analysis) (accepted : bool)
| EvGenerate (ctx : AnalysisContext)
| EvSavePuzzles (puzzleObjects : list ChessPuzzle) (userId analysisId : string).

(** The Analysis collection (by [analysis_id]), the Puzzle collection, the
    number of job writes the store has received, and the events so far. *)
Record World := {
  analyses : gmap string Analysis;
  puzzles : list Puzzle;
  saves : nat;
  trace : list Event
}.

(** ** Assignments to the in-memory document *)

Definition set_status (a : Analysis) (s : AnalysisStatus) : Analysis :=
  {| analysis_id := analysis_id a; user_id := user_id a;
     batch_id := batch_id a; status := s; pgn := pgn a;
     gcs_url := gcs_url a; player_name := player_name a;
     player_color := player_color a; metadata := metadata a;
     result := result a; error := error a; completed_at := completed_at a |}.

Definition set_result (a : Analysis) (r : AnalysisResult) : Analysis :=
  {| analysis_id := analysis_id a; user_id := user_id a;
     batch_id := batch_id a; status := status a; pgn := pgn a;
     gcs_url := gcs_url a; player_name := player_name a;
     player_color := player_color a; metadata := metadata a;
     result := Some r; error := error a; completed_at := completed_at a |}.

Definition set_error (a : Analysis) (msg : string) : Analysis :=
  {| analysis_id := analysis_id a; user_id := user_id a;
     batch_id := batch_id a; status := status a; pgn := pgn a;
     gcs_url := gcs_url a; player_name := player_name a;
     player_color := player_color a; metadata := metadata a;
     result := result a; error := Some msg; completed_at := completed_at a |}.

Definition set_completed_at (a : Analysis) (d : Z) : Analysis :=
  {| analysis_id := analysis_id a; user_id := user_id a;
     batch_id := batch_id a; status := status a; pgn := pgn a;
     gcs_url := gcs_url a; player_name := player_name a;
     player_color := player_color a; metadata := metadata a;
     result := result a; error := error a; completed_at := Some d |}.

(** ** The store *)

Definition record (e : Event) (w : World) : World :=
  {| analyses := analyses w; puzzles := puzzles w; saves := saves w;
     trace := trace w ++ [e] |}.

(** The world after the store accepted, respectively rejected, a write. *)
Definition accepted (analysisId : string) (doc : Analysis) (w : World) : World :=
  {| analyses := <[analysisId := doc]> (analyses w); puzzles := puzzles w;
     saves := S (saves w);
     trace := trace w ++ [EvSave analysisId doc true] |}.

Definition rejected (analysisId : string) (doc : Analysis) (w : World) : World :=
  {| analyses := analyses w; puzzles := puzzles w; saves := S (saves w);
     trace := trace w ++ [EvSave analysisId doc false] |}.

(** [await analysis.save()]: [None] when it returns, [Some e] when it
    throws. *)
Definition save (sv : Services) (analysisId : string) (doc : Analysis)
    (w : World) : option Thrown * World :=
  match save_fault sv (saves w) with
  | None => (None, accepted analysisId doc w)
  | Some e => (Some e, rejected analysisId doc w)
  end.

(** ** processAnalysis *)

(** [error instanceof Error ? error.message : "Unknown error"]. *)
Definition error_message (e : Thrown) : string :=
  match e with
  | JsError _ message => message
  | NotAnError => "Unknown error"
  end.

(** The arguments of the [analyzeGame] call (lines 31-42). *)
Definition context_of (analysis : Analysis) : AnalysisContext :=
  {| ctx_pgn := pgn analysis;
     ctx_white := meta_white (metadata analysis);
     ctx_black := meta_black (metadata analysis);
     ctx_result := meta_result (metadata analysis);
     ctx_event := or_default (meta_event (metadata analysis)) "";
     ctx_date := or_default (meta_date (metadata analysis)) "";
     playerName := player_name analysis;
     playerColor := player_color analysis |}.

(** [analysis.user_id?.toString() || "guest"]. *)
Definition owner (analysis : Analysis) : string :=
  or_default (user_id analysis) "guest".

Definition analyze (sv : Services) (analysis : Analysis)
    : Thrown + (AnalysisBody * list ChessPuzzle) :=
  analyzeGame (GOOGLE_GENERATIVE_AI_API_KEY sv) (generateText sv)
              (JSON_parse sv) (context_of analysis).

(** The world once [analyzeGame] has run: the external service has been
    called if, and only if, the API key is configured. *)
Definition called (sv : Services) (analysis : Analysis) (w : World) : World :=
  if has_api_key (GOOGLE_GENERATIVE_AI_API_KEY sv)
  then record (EvGenerate (context_of analysis)) w else w.

(** The world once [savePuzzles] has run and left [stored] in the Puzzle
    collection. *)
Definition linked (puzzleObjects : list ChessPuzzle) (userId analysisId : string)
    (stored : list Puzzle) (w : World) : World :=
  {| analyses := analyses w; puzzles := stored; saves := saves w;
     trace := trace w ++ [EvSavePuzzles puzzleObjects userId analysisId] |}.

(** The function suspends at each [await]; a program point names the
    operation being awaited and carries the live local variables.
    [Resolved] and [Rejected] are the two ways the returned promise
    settles. *)
Inductive Pc :=
| Start                                          (* line 13: findOne *)
| SavingProcessing (analysis : Analysis)         (* line 28: save *)
| Analyzing (analysis : Analysis)                (* line 31: analyzeGame *)
| SavingPuzzles (analysis : Analysis) (resultWithoutPuzzles : AnalysisBody)
    (puzzleObjects : list ChessPuzzle) (userId : string)  (* line 69 *)
| SavingCompleted (analysis : Analysis)          (* line 105: save *)
| SavingFailed (analysis : Analysis)             (* line 117: save *)
| Resolved
| Rejected (e : Thrown).

(** Lines 95-104: the document as it stands at the [save] of line 105. *)
Definition completed_doc (sv : Services) (analysis : Analysis)
    (resultWithoutPuzzles : AnalysisBody) (puzzleIds : list string) : Analysis :=
  let resultWithReferences :=
    {| res_body := resultWithoutPuzzles; res_puzzles := puzzleIds |} in
  set_completed_at
    (set_status (set_result analysis resultWithReferences) COMPLETED)
    (now sv).

Definition complete_with (sv : Services) (analysis : Analysis)
    (resultWithoutPuzzles : AnalysisBody) (puzzleIds : list string) : Pc :=
  SavingCompleted (completed_doc sv analysis resultWithoutPuzzles puzzleIds).

(** Lines 112-116, the [catch] of the outer [try]: the document as it
    stands at the [save] of line 117. *)
Definition failed_doc (analysis : Analysis) (e : Thrown) : Analysis :=
  set_error (set_status analysis FAILED) (error_message e).

Definition fail_with (analysis : Analysis) (e : Thrown) : Pc :=
  SavingFailed (failed_doc analysis e).

(** From one program point to the next: the awaited operation takes effect
    and the synchronous code after it runs up to the next [await].  The
    read of line 13 is taken to answer; the writes answer as [save_fault]
    says. *)
Definition step (sv : Services) (analysisId : string) (pc : Pc) (w : World)
    : Pc * World :=
  match pc with
  | Start =>
      match analyses w !! analysisId with
      | None => (Resolved, w)
      | Some analysis =>
          if negb (status_eqb (status analysis) PENDING) then (Resolved, w)
          else (SavingProcessing (set_status analysis PROCESSING), w)
      end
  | SavingProcessing analysis =>
      match save sv analysisId analysis w with
      | (None, w') => (Analyzing analysis, w')
      | (Some e, w') => (fail_with analysis e, w')
      end
  | Analyzing analysis =>
      let w' := called sv analysis w in
      match analyze sv analysis with
      | inl e => (fail_with analysis e, w')
      | inr (resultWithoutPuzzles, puzzleObjects) =>
          let userId := owner analysis in
          if Nat.ltb 0 (length puzzleObjects)
             && negb (String.eqb userId "guest")
          then (SavingPuzzles analysis resultWithoutPuzzles puzzleObjects userId, w')
          else (complete_with sv analysis resultWithoutPuzzles [], w')
      end
  | SavingPuzzles analysis resultWithoutPuzzles puzzleObjects userId =>
      let '(r, stored) :=
        savePuzzles sv puzzleObjects userId analysisId (puzzles w) in
      let w' := linked puzzleObjects userId analysisId stored w in
      match r with
      | inr savedPuzzles =>
          (complete_with sv analysis resultWithoutPuzzles
             (map puzzle_id savedPuzzles), w')
      | inl _ => (complete_with sv analysis resultWithoutPuzzles [], w')
      end
  | SavingCompleted analysis =>
      match save sv analysisId analysis w with
      | (None, w') => (Resolved, w')
      | (Some e, w') => (fail_with analysis e, w')
      end
  | SavingFailed analysis =>
      match save sv analysisId analysis w with
      | (None, w') => (Resolved, w')
      | (Some e, w') => (Rejected e, w')
      end
  | Resolved => (Resolved, w)
  | Rejected e => (Rejected e, w)
  end.

Fixpoint run (sv : Services) (analysisId : string) (fuel : nat) (pc : Pc)
    (w : World) : Pc * World :=
  match fuel with
  | 0 => (pc, w)
  | S fuel' =>
      let '(pc', w') := step sv analysisId pc w in
      run sv analysisId fuel' pc' w'
  end.

(** No path through the function crosses more than six [await]s. *)
Definition processAnalysis (sv : Services) (analysisId : string) (w : World)
    : Pc * World :=
  run sv analysisId 6 Start w.

Definition settled (pc : Pc) : bool :=
  match pc with
  | Resolved | Rejected _ => true
  | _ => false
  end.

(** ** Two invocations on one event loop

    Invocations of an async function interleave at their [await]s only.
    A schedule says which of two invocations for the same id takes the
    next step ([true] the first, [false] the second). *)
Fixpoint interleave (sv : Services) (analysisId : string)
    (schedule : list bool) (pc1 pc2 : Pc) (w : World) : Pc * Pc * World :=
  match schedule with
  | [] => (pc1, pc2, w)
  | true :: schedule' =>
      let '(pc1', w') := step sv analysisId pc1 w in
      interleave sv analysisId schedule' pc1' pc2 w'
  | false :: schedule' =>
      let '(pc2', w') := step sv analysisId pc2 w in
      interleave sv analysisId schedule' pc1 pc2' w'
  end.

(** ** Reading a trace *)

Definition writes (tr : list Event) : list (Analysis * bool) :=
  omap (fun e => match e with
                 | EvSave _ doc ok => Some (doc, ok)
                 | _ => None
                 end) tr.

Definition generate_calls (tr : list Event) : nat :=
  length (List.filter (fun e => match e with EvGenerate _ => true | _ => false end) tr).

Definition puzzle_saves (tr : list Event) : nat :=
  length (List.filter (fun e => match e with EvSavePuzzles _ _ _ => true | _ => false end) tr).

(** Modelled from the spec: [puzzleService.savePuzzles], whose file
    (puzzle.service.ts) is not among the sources.  Section 4.2: it
    "persists each candidate as an independent Puzzle record, assigning a
    fresh id to each, and returns the ordered list" of what it saved, the
    whole batch being all-or-nothing.  [fault] is the persistence failure,
    if any; [new_id] supplies the identifiers, indexed by the position the
    record takes in the collection. *)
Definition savePuzzles_spec (fault : option Thrown) (new_id : nat -> string)
    (puzzleObjects : list ChessPuzzle) (userId analysisId : string)
    (stored : list Puzzle) : (Thrown + list Puzzle) * list Puzzle :=
  match fault with
  | Some e => (inl e, stored)
  | None =>
      let saved :=
        imap (fun i p => {| puzzle_id := new_id (length stored + i);
                            pz_user_id := userId;
                            pz_analysis_id := Some analysisId;
                            pz_puzzle := p |}) puzzleObjects in
      (inr saved, stored ++ saved)
  end.

(** ** Notions used to state the properties *)

(** The document of the claim. *)
Definition claimed (job : Analysis) : Analysis := set_status job PROCESSING.

(** The job [job] with its four outcome fields as given; the fields that
    identify the game and its owner are those of [job]. *)
Definition with_outcome (job : Analysis) (st : AnalysisStatus)
    (res : option AnalysisResult) (err : option string) (done : option Z)
    : Analysis :=
  {| analysis_id := analysis_id job; user_id := user_id job;
     batch_id := batch_id job; status := st; pgn := pgn job;
     gcs_url := gcs_url job; player_name := player_name job;
     player_color := player_color job; metadata := metadata job;
     result := res; error := err; completed_at := done |}.

Definition stored_status (w : World) (analysisId : string) : option AnalysisStatus :=
  status <$> analyses w !! analysisId.

(** Whether the store accepts a write. *)
Definition is_accepted (fault : option Thrown) : bool :=
  match fault with None => true | Some _ => false end.

(** An upper bound on the [await]s still ahead of a program point. *)
Definition awaits_left (pc : Pc) : nat :=
  match pc with
  | Start => 6
  | SavingProcessing _ => 5
  | Analyzing _ => 4
  | SavingPuzzles _ _ _ _ => 3
  | SavingCompleted _ => 2
  | SavingFailed _ => 1
  | Resolved | Rejected _ => 0
  end.

(** Neither field is set before a terminal status, the result alone once
    COMPLETED, the error alone once FAILED. *)
Definition outcome_fields_agree (doc : Analysis) : bool :=
  match status doc, result doc, error doc with
  | (PENDING | PROCESSING), None, None => true
  | COMPLETED, Some _, None => true
  | FAILED, None, Some _ => true
  | _, _, _ => false
  end.

(** The store holds the job with a status other than PENDING. *)
Definition claimed_in (id : string) (w : World) : Prop :=
  exists doc, analyses w !! id = Some doc /\ status doc <> PENDING.

(** Program points past the analysis; a document about to be written is no
    longer PENDING. *)
Definition past_analysis (pc : Pc) : Prop :=
  match pc with
  | Start | SavingProcessing _ | Analyzing _ => False
  | SavingPuzzles _ _ _ _ | Resolved | Rejected _ => True
  | SavingCompleted doc | SavingFailed doc => status doc <> PENDING
  end.

End Worker.

(* ===================================================================== *)
(** * The job processor in direct style *)
(* ===================================================================== *)

(** The same function read as one expression, each [await] nested in the
    next; [WorkerOutlineFacts.processAnalysis_outline] shows that the step
    machine computes it. *)
Module WorkerOutline.

Import Gemini Worker.

(** Lines 115-117: the handler's [save] and how the promise settles. *)
Definition finish_failed (sv : Services) (analysisId : string) (doc : Analysis)
    (w : World) : Pc * World :=
  match save_fault sv (saves w) with
  | None => (Resolved, accepted analysisId doc w)
  | Some e => (Rejected e, rejected analysisId doc w)
  end.

(** Line 105, inside the outer [try]. *)
Definition finish_completed (sv : Services) (analysisId : string)
    (doc : Analysis) (w : World) : Pc * World :=
  match save_fault sv (saves w) with
  | None => (Resolved, accepted analysisId doc w)
  | Some e =>
      finish_failed sv analysisId (failed_doc doc e) (rejected analysisId doc w)
  end.

(** Lines 60-93: the puzzle ids that end up in the result, and the world
    after the attempt to save the candidates. *)
Definition link_puzzles (sv : Services) (analysisId : string) (job : Analysis)
    (puzzleObjects : list ChessPuzzle) (w : World) : list string * World :=
  if Nat.ltb 0 (length puzzleObjects) && negb (String.eqb (owner job) "guest")
  then
    let r := savePuzzles sv puzzleObjects (owner job) analysisId (puzzles w) in
    (match fst r with
     | inr savedPuzzles => map puzzle_id savedPuzzles
     | inl _ => []
     end,
     linked puzzleObjects (owner job) analysisId (snd r) w)
  else ([], w).

Definition outline (sv : Services) (analysisId : string) (w : World)
    : Pc * World :=
  match analyses w !! analysisId with
  | None => (Resolved, w)
  | Some job =>
      if negb (status_eqb (status job) PENDING) then (Resolved, w)
      else
        let analysis := set_status job PROCESSING in
        match save_fault sv (saves w) with
        | Some e =>
            finish_failed sv analysisId (failed_doc analysis e)
              (rejected analysisId analysis w)
        | None =>
            let w1 := called sv analysis (accepted analysisId analysis w) in
            match analyze sv analysis with
            | inl e => finish_failed sv analysisId (failed_doc analysis e) w1
            | inr (resultWithoutPuzzles, puzzleObjects) =>
                let l := link_puzzles sv analysisId analysis puzzleObjects w1 in
                finish_completed sv analysisId
                  (completed_doc sv analysis resultWithoutPuzzles (fst l))
                  (snd l)
            end
        end
  end.

(** The fields of a job that identify the game and its owner. *)
Definition same_game (a b : Analysis) : Prop :=
  analysis_id a = analysis_id b /\ user_id a = user_id b
  /\ batch_id a = batch_id b /\ pgn a = pgn b /\ gcs_url a = gcs_url b
  /\ player_name a = player_name b /\ player_color a = player_color b
  /\ metadata a = metadata b.

(** The status and the acceptance of each write, in order. *)
Definition write_statuses (ws : list (Analysis * bool))
    : list (AnalysisStatus * bool) :=
  map (fun x => (status (fst x), snd x)) ws.

(** External calls an invocation at this program point can still make. *)
Definition calls_ahead (pc : Pc) : nat :=
  match pc with
  | Start | SavingProcessing _ | Analyzing _ => 1
  | _ => 0
  end.

(** The job an invocation will process: stored under the id and PENDING. *)
Definition job_to_process (w : World) (analysisId : string) : option Analysis :=
  match analyses w !! analysisId with
  | Some job => if status_eqb (status job) PENDING then Some job else None
  | None => None
  end.

(** How often an invocation started in [w] calls the external service. *)
Definition service_calls (sv : Services) (analysisId : string) (w : World) : nat :=
  match job_to_process w analysisId with
  | Some _ =>
      if is_accepted (save_fault sv (saves w))
         && has_api_key (GOOGLE_GENERATIVE_AI_API_KEY sv)
      then 1 else 0
  | None => 0
  end.

(** How often it calls the puzzle persistence. *)
Definition linker_calls (sv : Services) (analysisId : string) (w : World) : nat :=
  match job_to_process w analysisId with
  | Some job =>
      if is_accepted (save_fault sv (saves w)) then
        match analyze sv job with
        | inr (_, puzzleObjects) =>
            if Nat.ltb 0 (length puzzleObjects)
               && negb (String.eqb (owner job) "guest")
            then 1 else 0
        | inl _ => 0
        end
      else 0
  | None => 0
  end.

(** The steps the first invocation takes in a schedule. *)
Definition turns_of_first (schedule : list bool) : nat :=
  length (List.filter (fun b => b) schedule).

(** Program points past the claim of the job. *)
Definition past_claim (pc : Pc) : Prop :=
  match pc with
  | Start | SavingProcessing _ => False
  | Analyzing _ | SavingPuzzles _ _ _ _ | Resolved | Rejected _ => True
  | SavingCompleted doc | SavingFailed doc => status doc <> PENDING
  end.

End WorkerOutline.

(* ===================================================================== *)
(** * Dashboard statistics and summary (users/services/dashboard.service.ts) *)
(* ===================================================================== *)

Module DashboardSummary.

Import Dashboard.

(** A stored analysis together with the creation date kept by the schema's
    [timestamps] option.  Dates stay [Date] values (milliseconds); the
    ISO rendering that [toISOString] gives them is not spelled out. *)
Record AnalysisDocument := {
  doc : Analysis;
  created_at : Z
}.

(** [RecentAnalysis] (users/types/index.ts). *)
Record RecentAnalysis := {
  ra_analysis_id : string;
  ra_status : AnalysisStatus;
  ra_player_name : string;
  ra_player_color : PlayerColor;
  opponent : string;
  ra_result : string;
  ra_created_at : Z;
  ra_completed_at : option Z
}.

(** The object built by the [map] callback of [getRecentAnalyses]. *)
Definition to_recent (analysis : AnalysisDocument) : RecentAnalysis :=
  let a := doc analysis in
  {| ra_analysis_id := analysis_id a;
     ra_status := status a;
     ra_player_name := player_name a;
     ra_player_color := default white (player_color a);
     opponent := if color_is (player_color a) white
                 then meta_black (metadata a) else meta_white (metadata a);
     ra_result := meta_result (metadata a);
     ra_created_at := created_at analysis;
     ra_completed_at := completed_at a |}.

(** [analyses.slice(0, limit).map(...)], for a limit that is a natural
    number, as it is at both call sites. *)
Definition getRecentAnalyses (analyses : list AnalysisDocument) (limit : nat)
    : list RecentAnalysis :=
  map to_recent (firstn limit analyses).

(** [DashboardStats] (users/types/index.ts). *)
Record DashboardStats := {
  total_analyses : nat;
  completed : nat;
  pending : nat;
  processing : nat;
  failed : nat;
  win_rate : option float;
  total_games : nat;
  recent_analyses : list RecentAnalysis
}.

(** [DashboardSummary]. *)
Record Summary := {
  stats : DashboardStats;
  most_played_openings : option (list OpeningStat);
  performance_by_color : option Performance
}.

(** What the four queries of [getDashboardSummary] answered: the groups of
    the aggregation (status and count), the five latest analyses, the number
    of documents, and the COMPLETED analyses. *)
Record Answers := {
  statusCounts : list (AnalysisStatus * nat);
  recentAnalyses : list AnalysisDocument;
  total : nat;
  completedAnalyses : list AnalysisDocument
}.

(** The [reduce] that turns the groups into the [counts] object: a later
    group overwrites an earlier one with the same [_id]. *)
Definition counts_of (groups : list (AnalysisStatus * nat))
    : AnalysisStatus -> option nat :=
  fold_left
    (fun acc item st => if status_eqb (fst item) st then Some (snd item) else acc st)
    groups (fun _ => None).

(** [counts[st] || 0]. *)
Definition count_or_zero (counts : AnalysisStatus -> option nat)
    (st : AnalysisStatus) : nat :=
  default 0 (counts st).

(** The [stats] object, built alike by [getDashboardStats] and
    [getDashboardSummary]. *)
Definition build_stats (q : Answers) : DashboardStats :=
  let counts := counts_of (statusCounts q) in
  {| total_analyses := total q;
     completed := count_or_zero counts COMPLETED;
     pending := count_or_zero counts PENDING;
     processing := count_or_zero counts PROCESSING;
     failed := count_or_zero counts FAILED;
     total_games := total q;
     recent_analyses := getRecentAnalyses (recentAnalyses q) 5;
     win_rate := calculateWinRate (map doc (completedAnalyses q)) |}.

Definition getDashboardStats (q : Answers) : DashboardStats := build_stats q.

Definition getDashboardSummary (q : Answers) : Summary :=
  let stats := build_stats q in
  let completedAnalyses := map doc (completedAnalyses q) in
  let mostPlayedOpenings := getMostPlayedOpenings completedAnalyses in
  let performanceByColor := getPerformanceByColor completedAnalyses in
  {| stats := stats;
     most_played_openings :=
       if Nat.ltb 0 (length mostPlayedOpenings) then Some mostPlayedOpenings
       else None;
     performance_by_color :=
       if Nat.ltb 0
            (wins (perf_white performanceByColor)
             + losses (perf_white performanceByColor)
             + draws (perf_white performanceByColor)
             + wins (perf_black performanceByColor)
             + losses (perf_black performanceByColor)
             + draws (perf_black performanceByColor))
       then Some performanceByColor else None |}.

(** ** Notions used to state the properties *)

(** The COMPLETED games of color [c] that are won, respectively drawn. *)
Definition tallied_win (c : PlayerColor) (a : Analysis) : bool :=
  is_completed a && negb (is_draw a) && won a && color_is (player_color a) c.

Definition tallied_draw (c : PlayerColor) (a : Analysis) : bool :=
  is_completed a && is_draw a && color_is (player_color a) c.

Definition played_as (c : PlayerColor) (a : Analysis) : bool :=
  is_completed a && color_is (player_color a) c.

(** The COMPLETED games grouped under a key, and among them the won and the
    drawn ones. *)
Definition keyed_game (key : string) (a : Analysis) : bool :=
  is_completed a && String.eqb (opening_key a) key.

Definition keyed_win (key : string) (a : Analysis) : bool :=
  is_completed a && negb (is_draw a) && won a && String.eqb (opening_key a) key.

Definition keyed_draw (key : string) (a : Analysis) : bool :=
  is_completed a && is_draw a && String.eqb (opening_key a) key.

(** The documents the aggregation has grouped. *)
Definition grouped (groups : list (AnalysisStatus * nat)) : nat :=
  fold_right (fun g n => snd g + n) 0 groups.

(** Counts never increase along the list. *)
Fixpoint descending (l : list OpeningStat) : Prop :=
  match l with
  | [] => True
  | x :: l' => Forall (fun y => count y <= count x) l' /\ descending l'
  end.

(** What the map holds of each counter after the loop has seen a list of
    analyses. *)
Definition tallies_all (m : OpeningMap) (seen : list Analysis) : Prop :=
  forall key,
    match map_get key m with
    | Some s =>
        stat_key s = key
        /\ count s = length (List.filter (keyed_game key) seen)
        /\ os_wins s = length (List.filter (keyed_win key) seen)
        /\ os_draws s = length (List.filter (keyed_draw key) seen)
        /\ count s = os_wins s + os_losses s + os_draws s
        /\ 1 <= count s
    | None => length (List.filter (keyed_game key) seen) = 0
    end.

End DashboardSummary.

(* ===================================================================== *)
(** * The prompt (analysis/services/gemini.service.ts, buildPrompt) *)
(* ===================================================================== *)

Module Prompt.

Import Gemini.

(** The double quote, which the template uses around the keys and values of
    the JSON format it shows. *)
Definition q : string := String (Ascii.ascii_of_nat 34) "".

(** [x || "Unknown"]. *)
Definition or_unknown (x : string) : string :=
  if String.eqb x "" then "Unknown" else x.

Definition playerSide (ctx : AnalysisContext) : string :=
  if color_is (playerColor ctx) white then "White" else "Black".

Definition opponentSide (ctx : AnalysisContext) : string :=
  if color_is (playerColor ctx) white then "Black" else "White".

Definition playerResult (ctx : AnalysisContext) : string :=
  if String.eqb (ctx_result ctx) "1-0" then
    (if color_is (playerColor ctx) white then "won" else "lost")
  else if String.eqb (ctx_result ctx) "0-1" then
    (if color_is (playerColor ctx) black then "won" else "lost")
  else "drew".

(** The template literal of lines 31-109, piece by piece. *)
Definition buildPrompt (ctx : AnalysisContext) : string :=
  "You are an expert chess analyst and personal coach. Analyze the following chess game from the perspective of " +:+ 
  playerName ctx +:+ " (playing as " +:+ playerSide ctx +:+ ").

## Game Information
- White: " +:+ ctx_white ctx +:+ "
- Black: " +:+ ctx_black ctx +:+ "
- Result: " +:+ ctx_result ctx +:+ "
- Event: " +:+ or_unknown (ctx_event ctx) +:+ "
- Date: " +:+ or_unknown (ctx_date ctx) +:+ "
- **Player being analyzed**: " +:+ playerName ctx +:+ " (" +:+ 
  playerSide ctx +:+ ") - " +:+ playerResult ctx +:+ "

## PGN
" +:+ ctx_pgn ctx +:+ "

## Instructions
Analyze this chess game specifically for " +:+ playerName ctx +:+ " (" +:+ 
  playerSide ctx +:+ 
  "). Focus on their moves, decisions, and areas for improvement.

Respond with a JSON object in this exact format:

{
  " +:+ q +:+ "summary" +:+ q +:+ ": " +:+ q +:+ 
  "A 2-3 sentence overview focusing on how " +:+ playerName ctx +:+ 
  " played, including opening choice, key themes, and outcome from their perspective" +:+ 
  q +:+ ",
  " +:+ q +:+ "phases" +:+ q +:+ ": [
    {
      " +:+ q +:+ "name" +:+ q +:+ ": " +:+ q +:+ "Opening" +:+ q +:+ ",
      " +:+ q +:+ "moves" +:+ q +:+ ": " +:+ q +:+ "1-15" +:+ q +:+ ",
      " +:+ q +:+ "evaluation" +:+ q +:+ ": " +:+ q +:+ "Assessment of " +:+ 
  playerName ctx +:+ "'s play in this phase" +:+ q +:+ ",
      " +:+ q +:+ "key_ideas" +:+ q +:+ ": [" +:+ q +:+ "What " +:+ 
  playerName ctx +:+ " did well or poorly" +:+ q +:+ "]
    }
  ],
  " +:+ q +:+ "key_moments" +:+ q +:+ ": [
    {
      " +:+ q +:+ "move_number" +:+ q +:+ ": 15,
      " +:+ q +:+ "move" +:+ q +:+ ": " +:+ q +:+ "Nxe5" +:+ q +:+ ",
      " +:+ q +:+ "fen" +:+ q +:+ ": " +:+ q +:+ q +:+ ",
      " +:+ q +:+ "evaluation" +:+ q +:+ ": " +:+ q +:+ "+1.5" +:+ q +:+ ",
      " +:+ q +:+ "comment" +:+ q +:+ ": " +:+ q +:+ "Explanation of " +:+ 
  playerName ctx +:+ "'s decision and its impact" +:+ q +:+ ",
      " +:+ q +:+ "is_mistake" +:+ q +:+ ": false
    }
  ],
  " +:+ q +:+ "recommendations" +:+ q +:+ ": [" +:+ q +:+ 
  "Specific improvement for " +:+ playerName ctx +:+ q +:+ "],
  " +:+ q +:+ "puzzles" +:+ q +:+ ": [
    {
      " +:+ q +:+ "title" +:+ q +:+ ": " +:+ q +:+ 
  "Puzzle title related to a key moment or theme from the game" +:+ q +:+ ",
      " +:+ q +:+ "description" +:+ q +:+ ": " +:+ q +:+ 
  "Brief description of what the puzzle teaches, related to " +:+ 
  playerName ctx +:+ "'s play" +:+ q +:+ ",
      " +:+ q +:+ "fen" +:+ q +:+ ": " +:+ q +:+ 
  "FEN position string for the puzzle" +:+ q +:+ ",
      " +:+ q +:+ "solution" +:+ q +:+ ": " +:+ q +:+ 
  "Best move or sequence (e.g., 'Nxe5' or '1. Nxe5 dxe5 2. Qh5+')" +:+ q +:+ 
  ",
      " +:+ q +:+ "hint" +:+ q +:+ ": " +:+ q +:+ 
  "Optional hint to help solve the puzzle" +:+ q +:+ ",
      " +:+ q +:+ "difficulty" +:+ q +:+ ": " +:+ q +:+ "easy|medium|hard" +:+ 
  q +:+ ",
      " +:+ q +:+ "theme" +:+ q +:+ ": " +:+ q +:+ 
  "Tactical theme (e.g., 'Fork', 'Pin', 'Back Rank Mate', 'Endgame Technique')" +:+ 
  q +:+ "
    }
  ]
}

Requirements:
- Include 3 phases: Opening, Middlegame, Endgame (or fewer if game ended early)
- Identify 3-5 key moments focusing on " +:+ playerName ctx +:+ "'s moves
- Provide 3-5 actionable recommendations specifically for " +:+ 
  playerName ctx +:+ " to improve
- Focus on conceptual understanding and patterns " +:+ playerName ctx +:+ 
  " should recognize
- Be specific with move numbers
- Address " +:+ playerName ctx +:+ " directly in recommendations (e.g., " +:+ 
  q +:+ "Consider developing..." +:+ q +:+ " not " +:+ q +:+ 
  "White should..." +:+ q +:+ ")
- Generate exactly 2 puzzles based on positions or themes from this game that would help " +:+ 
  playerName ctx +:+ " practice and improve
- Puzzles should be relevant to mistakes or learning opportunities identified in the analysis
- Each puzzle must have a valid FEN position and clear solution
- Puzzle difficulty should match the complexity of the position

Respond with ONLY the JSON object, no other text.".

(** ** Notions used to state the properties *)

(** [s] occurs in [t]. *)
Definition contains (t s : string) : Prop :=
  exists pre post, t = pre +:+ s +:+ post.

End Prompt.

(* ===================================================================== *)
(** * Object storage (analysis/services/gcs.service.ts) *)
(* ===================================================================== *)

Module Storage.

Definition slash : Ascii.ascii := Ascii.ascii_of_nat 47.
Definition dot : Ascii.ascii := Ascii.ascii_of_nat 46.

(** A string holds the text in UTF-8.  [.] refuses the four line
    terminators of the language: LF, CR and, three bytes each in that
    encoding, U+2028 and U+2029 (E2 80 A8 and E2 80 A9); in well-formed
    UTF-8 these byte sequences stand for nothing else.
    [line_terminator_at s] says whether one of the four starts [s]. *)
Definition line_terminator_at (s : string) : bool :=
  match s with
  | EmptyString => false
  | String c s' =>
      Ascii.eqb c (Ascii.ascii_of_nat 10)
      || Ascii.eqb c (Ascii.ascii_of_nat 13)
      || (Ascii.eqb c (Ascii.ascii_of_nat 226)
          && match s' with
             | String d (String e _) =>
                 Ascii.eqb d (Ascii.ascii_of_nat 128)
                 && (Ascii.eqb e (Ascii.ascii_of_nat 168)
                     || Ascii.eqb e (Ascii.ascii_of_nat 169))
             | _ => false
             end)
  end.

(** ** The pattern of [getSignedUrl] and [downloadFile]:
    [^gs://([^/]+)/(.+)$], its slashes escaped in the source *)

(** [.*$] at the start of [s]: no line terminator up to the end of the
    input. *)
Fixpoint single_line (s : string) : bool :=
  match s with
  | EmptyString => true
  | String c s' => negb (line_terminator_at (String c s')) && single_line s'
  end.

(** [(.+)$] at the start of [s]. *)
Definition dot_plus_to_end (s : string) : bool :=
  match s with
  | EmptyString => false
  | String c s' => single_line (String c s')
  end.

(** [([^/]+)/(.+)$] at the start of [s]: the class takes the next unit and,
    greedily, tries to go on; when that fails, the slash and the rest of
    the pattern must match right after the unit.  The two groups are
    returned. *)
Fixpoint bucket_and_path (s : string) : option (string * string) :=
  match s with
  | EmptyString => None
  | String c s' =>
      if Ascii.eqb c slash then None
      else
        match bucket_and_path s' with
        | Some (b, p) => Some (String c b, p)
        | None =>
            match s' with
            | String d p =>
                if Ascii.eqb d slash && dot_plus_to_end p
                then Some (String c EmptyString, p) else None
            | EmptyString => None
            end
        end
  end.

(** The literal text [prefix] at the start of [s], and what follows it. *)
Fixpoint strip_prefix (prefix s : string) : option string :=
  match prefix, s with
  | EmptyString, _ => Some s
  | String a prefix', String b s' =>
      if Ascii.eqb a b then strip_prefix prefix' s' else None
  | String _ _, EmptyString => None
  end.

(** [gcsUrl.match(...)]: the groups [bucketName] and [filePath], or [None]
    for [null]. *)
Definition parse_gs_url (gcsUrl : string) : option (string * string) :=
  match strip_prefix "gs://" gcsUrl with
  | Some rest => bucket_and_path rest
  | None => None
  end.

(** ** [originalName.split(".").pop() || "jpg"] *)

(** [s.split(sep)] for a separator of one code unit. *)
Fixpoint split (sep : Ascii.ascii) (s : string) : list string :=
  match s with
  | EmptyString => [EmptyString]
  | String c s' =>
      if Ascii.eqb c sep then EmptyString :: split sep s'
      else
        match split sep s' with
        | piece :: pieces => String c piece :: pieces
        | [] => [String c EmptyString]
        end
  end.

(** [pieces.pop()], as a value: [None] for [undefined]. *)
Definition pop (pieces : list string) : option string := last pieces.

Definition extension (originalName : string) : string :=
  or_default (pop (split dot originalName)) "jpg".

(** ** The bucket *)

(** What [file.save] stores: the content and the options passed along. *)
Record StoredObject := {
  content : string;
  contentType : string;
  meta_originalName : string;
  uploadedBy : string;
  uploadedAt : string;
  meta_type : option string
}.

(** The objects of the storage, by bucket name and file name. *)
Abbreviation Objects := (gmap (string * string) StoredObject).

Section Service.

(** [process.env.GCP_STORAGE_BUCKET], which the process does not change,
    so that the bucket handle the module caches is the bucket of that
    name; [new Date().toISOString()]; and [Date.now()], a number. *)
Variable GCP_STORAGE_BUCKET : option string.
Variable now_iso : string.
Variable now : float.

(** [Buffer.prototype.toString("utf-8")]; what the client library throws
    when asked to download an object that is not there; the signed URL it
    issues for an object and an expiry date. *)
Variable utf8 : string -> string.
Variable missing_object : string -> string -> Thrown.
Variable sign : string -> string -> float -> string.

Definition getBucketName : Thrown + string :=
  let name := or_default GCP_STORAGE_BUCKET "" in
  if String.eqb name ""
  then inl (JsError "Error" "GCP_STORAGE_BUCKET environment variable is not set")
  else inr name.

(** [file.save(fileBuffer, options)] on [getBucket().file(fileName)],
    followed by the url the two uploads build.  The storage is taken to
    accept the object. *)
Definition save_as (fileName : string) (file : StoredObject)
    (objects : Objects) : Thrown + (string * Objects) :=
  match getBucketName with
  | inl e => inl e
  | inr bucket =>
      inr ("gs://" +:+ bucket +:+ "/" +:+ fileName,
           <[(bucket, fileName) := file]> objects)
  end.

(** [uploadFile], given the identifier that [uuidv4()] draws. *)
Definition uploadFile (uuid : string) (fileBuffer originalName userId : string)
    (objects : Objects) : Thrown + (string * Objects) :=
  let fileName := "uploads/" +:+ userId +:+ "/" +:+ uuid +:+ "-" +:+ originalName in
  save_as fileName
    {| content := fileBuffer; contentType := "text/plain";
       meta_originalName := originalName; uploadedBy := userId;
       uploadedAt := now_iso; meta_type := None |}
    objects.

(** [uploadProfilePicture], given the identifier that [uuidv4()] draws. *)
Definition uploadProfilePicture (uuid : string)
    (fileBuffer originalName mimeType userId : string)
    (objects : Objects) : Thrown + (string * Objects) :=
  let fileName :=
    "profile-pictures/" +:+ userId +:+ "/" +:+ uuid +:+ "." +:+ extension originalName in
  save_as fileName
    {| content := fileBuffer; contentType := mimeType;
       meta_originalName := originalName; uploadedBy := userId;
       uploadedAt := now_iso; meta_type := Some "profile-picture" |}
    objects.

Definition invalid_url (gcsUrl : string) : Thrown :=
  JsError "Error" ("Invalid GCS URL format: " +:+ gcsUrl).

(** [getSignedUrl]; [None] for an omitted [expiresInMinutes].  The expiry
    date is computed in binary64, as the source does. *)
Definition getSignedUrl (gcsUrl : string) (expiresInMinutes : option float)
    (objects : Objects) : Thrown + string :=
  let minutes :=
    match expiresInMinutes with
    | Some m => m
    | None => (365 * 24 * 60)%float
    end in
  match parse_gs_url gcsUrl with
  | None => inl (invalid_url gcsUrl)
  | Some (bucketName, filePath) =>
      match objects !! (bucketName, filePath) with
      | None => inl (JsError "Error" ("File not found: " +:+ gcsUrl))
      | Some _ =>
          inr (sign bucketName filePath (now + minutes * 60 * 1000)%float)
      end
  end.

Definition downloadFile (gcsUrl : string) (objects : Objects) : Thrown + string :=
  match parse_gs_url gcsUrl with
  | None => inl (invalid_url gcsUrl)
  | Some (bucketName, filePath) =>
      match objects !! (bucketName, filePath) with
      | None => inl (missing_object bucketName filePath)
      | Some file => inr (utf8 (content file))
      end
  end.

(** One element of [files], with the identifier that [uuidv4()] draws for
    it. *)
Record UploadedFile := {
  file_uuid : string;
  buffer : string;
  originalname : string
}.

(** [uploadFiles]: every upload is started, and the urls come back in the
    order of the files.  The storage is taken to serve the saves in the
    order they were issued. *)
Fixpoint uploadFiles (files : list UploadedFile) (userId : string)
    (objects : Objects) : Thrown + (list string * Objects) :=
  match files with
  | [] => inr ([], objects)
  | file :: files' =>
      match uploadFile (file_uuid file) (buffer file) (originalname file)
              userId objects with
      | inl e => inl e
      | inr (url, objects') =>
          match uploadFiles files' userId objects' with
          | inl e => inl e
          | inr (urls, objects'') => inr (url :: urls, objects'')
          end
      end
  end.

End Service.

(** ** Notions used in the statements *)

(** The name under which [uploadFile] stores a file. *)
Definition upload_name (userId uuid originalName : string) : string :=
  "uploads/" +:+ userId +:+ "/" +:+ uuid +:+ "-" +:+ originalName.

(** The url of the object [fileName] of [bucket]. *)
Definition gs_url (bucket fileName : string) : string :=
  "gs://" +:+ bucket +:+ "/" +:+ fileName.

End Storage.

(* ===================================================================== *)
(** * Sample documents *)
(* ===================================================================== *)

Module Samples.

Definition game (id : string) (st : AnalysisStatus) (c : option PlayerColor)
    (res : string) (owner_id : option string) : Analysis :=
  {| analysis_id := id; user_id := owner_id; batch_id := None; status := st;
     pgn := "1. e4 e5 2. Nf3 Nc6 3. Bb5 a6"; gcs_url := None;
     player_name := "Ada"; player_color := c;
     metadata := {| meta_white := "Ada"; meta_black := "Bob";
                    meta_result := res; meta_event := None;
                    meta_date := Some "2024.05.01"; meta_eco := Some "C70";
                    meta_opening := Some "Ruy Lopez" |};
     result := None; error := None; completed_at := None |}.

Definition a_user : option string := Some "65f1c0ffee0123456789abcd".

Definition body : AnalysisBody :=
  {| summary := "A quiet Ruy Lopez decided in the endgame.";
     phases := [ {| phase_name := "Opening"; phase_moves := "1-15";
                    phase_evaluation := "Sound development";
                    key_ideas := ["Pressure on e5"] |} ];
     key_moments := [ {| move_number := 15; move := "Nxe5"; km_fen := "";
                         km_evaluation := "+1.5";
                         comment := "Wins a pawn"; is_mistake := false |} ];
     recommendations := ["Castle before opening the centre."] |}.

Definition fork : ChessPuzzle :=
  {| title := "Knight fork"; description := "Win the exchange";
     fen := "r3k2r/8/8/3N4/8/8/8/4K3 w - - 0 1"; solution := "Nc7+";
     hint := None; difficulty := "easy"; theme := "Fork" |}.

Definition pin : ChessPuzzle :=
  {| title := "Pinned knight"; description := "Exploit the pin";
     fen := "4k3/8/2n5/1B6/8/8/8/4K3 w - - 0 1"; solution := "Bxc6+";
     hint := Some "Look at the diagonal"; difficulty := "medium";
     theme := "Pin" |}.

(** A reply wrapped in commentary, and a stand-in for [JSON.parse] that
    accepts the one payload and rejects everything else. *)
Definition reply : string := "Here is the analysis: {payload} Good luck.".

Definition parse_field (field : Gemini.PuzzlesField) (s : string)
    : string + Gemini.GeminiAnalysisResult :=
  if String.eqb s "{payload}"
  then inr {| Gemini.gem_body := body; Gemini.gem_puzzles := field |}
  else inl "Unexpected token".

(** The payload with a well-formed array of candidates, or without the
    field. *)
Definition parse (candidates : option (list ChessPuzzle)) (s : string)
    : string + Gemini.GeminiAnalysisResult :=
  parse_field
    match candidates with
    | Some puzzles => Gemini.PuzzleArray (map Some puzzles)
    | None => Gemini.NoPuzzles
    end s.

Definition new_id (n : nat) : string :=
  "puzzle-" +:+ String (Ascii.ascii_of_nat (48 + n)) "".

(** Services whose external call answers [answer], whose store answers the
    job writes as [faults] says, and whose puzzle persistence fails with
    [puzzle_fault] if that is not [None]. *)
Definition services (answer : Thrown + string)
    (candidates : option (list ChessPuzzle))
    (faults : nat -> option Thrown) (puzzle_fault : option Thrown)
    : Worker.Services :=
  {| Worker.GOOGLE_GENERATIVE_AI_API_KEY := Some "secret";
     Worker.generateText := fun _ => answer;
     Worker.JSON_parse := parse candidates;
     Worker.savePuzzles := Worker.savePuzzles_spec puzzle_fault new_id;
     Worker.save_fault := faults;
     Worker.now := 1714564800000 |}.

Definition no_fault : nat -> option Thrown := fun _ => None.

Definition network_down : Thrown := JsError "MongoNetworkError" "connection timed out".

(** The store rejects the write numbered [n] and accepts the others. *)
Definition fault_at (n : nat) : nat -> option Thrown :=
  fun k => if Nat.eqb k n then Some network_down else None.

Definition world (job : Analysis) : Worker.World :=
  {| Worker.analyses := {[ analysis_id job := job ]};
     Worker.puzzles := []; Worker.saves := 0; Worker.trace := [] |}.

Definition pending_job : Analysis := game "job-1" PENDING (Some white) "1-0" a_user.
Definition guest_job : Analysis :=
  game "job-1" PENDING (Some white) "1-0" (Some "guest").

End Samples.

(* ===================================================================== *)
(** * Properties of the dashboard aggregator *)
(* ===================================================================== *)

Module DashboardFacts.

Import Dashboard.

Lemma filter_andb {A} (f g : A -> bool) (l : list A) :
  List.filter (fun x => f x && g x) l = List.filter f (List.filter g l).
Proof.
  induction l as [|x l IH]; simpl; [reflexivity|].
  destruct (g x); simpl.
  - rewrite Bool.andb_true_r. destruct (f x); simpl; now rewrite IH.
  - rewrite Bool.andb_false_r. exact IH.
Qed.

Lemma filter_idem {A} (f : A -> bool) (l : list A) :
  List.filter f (List.filter f l) = List.filter f l.
Proof.
  rewrite <- filter_andb. apply List.filter_ext. intros x. now destruct (f x).
Qed.

Lemma counts_for_win_rate_split (l : list Analysis) :
  List.filter counts_for_win_rate l
  = List.filter is_completed (List.filter known_result l).
Proof. unfold counts_for_win_rate. apply filter_andb. Qed.

Lemma win_rate_ignores_unknown (l : list Analysis) :
  calculateWinRate (List.filter known_result l) = calculateWinRate l.
Proof.
  unfold calculateWinRate.
  rewrite !counts_for_win_rate_split, filter_idem. reflexivity.
Qed.

(** *** Performance by color *)

Lemma color_eqb_eq (c d : PlayerColor) : color_eqb c d = true <-> c = d.
Proof. destruct c, d; simpl; split; congruence. Qed.

Lemma performance_step_losses (c : PlayerColor) (p : Performance) (a : Analysis) :
  losses (of_color c (performance_step p a))
  = losses (of_color c p) + (if tallied_loss c a then 1 else 0).
Proof.
  unfold performance_step, tallied_loss, other_outcome, is_completed, is_draw, won.
  destruct (status_eqb (status a) COMPLETED); simpl; [|lia].
  destruct (player_color a) as [d|]; simpl.
  - destruct (String.eqb (meta_result (metadata a)) "1/2-1/2"); simpl.
    + destruct c, d; simpl; lia.
    + destruct (is_win (meta_result (metadata a)) (Some d)); simpl;
        destruct c, d; simpl; lia.
  - rewrite Bool.andb_false_r. lia.
Qed.

Lemma performance_fold_losses (c : PlayerColor) (l : list Analysis) (p : Performance) :
  losses (of_color c (fold_left performance_step l p))
  = losses (of_color c p) + length (List.filter (tallied_loss c) l).
Proof.
  revert p. induction l as [|a l IH]; intros p; simpl; [lia|].
  rewrite IH, performance_step_losses.
  destruct (tallied_loss c a); simpl; lia.
Qed.

(** *** Most played openings *)

Lemma map_has_get (key : string) (m : OpeningMap) :
  map_has key m = match map_get key m with Some _ => true | None => false end.
Proof.
  induction m as [|[k s] m IH]; simpl; [reflexivity|].
  destruct (String.eqb k key); simpl; [reflexivity | exact IH].
Qed.

Lemma map_get_app (key : string) (m m' : OpeningMap) :
  map_get key (m ++ m')
  = match map_get key m with Some s => Some s | None => map_get key m' end.
Proof.
  induction m as [|[k s] m IH]; simpl; [reflexivity|].
  destruct (String.eqb k key); [reflexivity | exact IH].
Qed.

Lemma map_get_modify (key key' : string) (f : OpeningStat -> OpeningStat)
    (m : OpeningMap) :
  map_get key (map_modify key' f m)
  = if String.eqb key' key then f <$> map_get key m else map_get key m.
Proof.
  induction m as [|[k s] m IH]; simpl.
  - now destruct (String.eqb key' key).
  - destruct (String.eqb k key') eqn:Ek'; simpl.
    + apply String.eqb_eq in Ek'. subst k.
      destruct (String.eqb key' key); reflexivity.
    + destruct (String.eqb k key) eqn:Ek; [|exact IH].
      apply String.eqb_eq in Ek. subst k.
      now rewrite (String.eqb_sym key' key), Ek'.
Qed.

Lemma distinct_keys_app (m : OpeningMap) (key : string) (s : OpeningStat) :
  distinct_keys m -> map_get key m = None -> distinct_keys (m ++ [(key, s)]).
Proof.
  induction m as [|[k s0] m IH]; simpl; [tauto|].
  intros [Hk Hm] Hget.
  destruct (String.eqb k key) eqn:E; [discriminate|].
  split; [|now apply IH].
  rewrite map_get_app, Hk. simpl.
  rewrite (String.eqb_sym key k), E. reflexivity.
Qed.

Lemma distinct_keys_modify (m : OpeningMap) (key : string)
    (f : OpeningStat -> OpeningStat) :
  distinct_keys m -> distinct_keys (map_modify key f m).
Proof.
  induction m as [|[k s0] m IH]; simpl; [tauto|].
  intros [Hk Hm].
  destruct (String.eqb k key) eqn:E; simpl; [tauto|].
  split; [|now apply IH].
  rewrite map_get_modify, Hk. now destruct (String.eqb key k).
Qed.


Lemma distinct_keys_In (m : OpeningMap) (k : string) (s : OpeningStat) :
  distinct_keys m -> In (k, s) m -> map_get k m = Some s.
Proof.
  induction m as [|[k0 s0] m IH]; simpl; [tauto|].
  intros [Hk Hm] [Heq|Hin].
  - inversion Heq; subst. now rewrite String.eqb_refl.
  - destruct (String.eqb k0 k) eqn:E; [|now apply IH].
    apply String.eqb_eq in E. subst k0.
    rewrite (IH Hm Hin) in Hk. discriminate.
Qed.

Lemma keyed_loss_snoc (key : string) (seen : list Analysis) (a : Analysis) :
  length (List.filter (keyed_loss key) (seen ++ [a]))
  = length (List.filter (keyed_loss key) seen)
    + (if keyed_loss key a then 1 else 0).
Proof.
  rewrite List.filter_app, List.length_app. simpl.
  now destruct (keyed_loss key a).
Qed.

Lemma tally_losses (a : Analysis) (s : OpeningStat) :
  is_completed a = true ->
  stat_key (tally (meta_result (metadata a)) (player_color a) s) = stat_key s
  /\ os_losses (tally (meta_result (metadata a)) (player_color a) s)
     = os_losses s + (if other_outcome a then 1 else 0).
Proof.
  intros Hc. unfold tally, other_outcome, is_draw, won. rewrite Hc. simpl.
  destruct (String.eqb (meta_result (metadata a)) "1/2-1/2"); simpl.
  - split; [reflexivity | lia].
  - destruct (is_win (meta_result (metadata a)) (player_color a)); simpl;
      (split; [reflexivity | lia]).
Qed.

Lemma new_stat_key (a : Analysis) :
  stat_key {| opening := opening_of a;
              eco := if String.eqb (eco_of a) "" then None else Some (eco_of a);
              count := 0; os_wins := 0; os_losses := 0; os_draws := 0 |}
  = opening_key a.
Proof.
  unfold stat_key, opening_key. simpl.
  destruct (String.eqb (eco_of a) "") eqn:E; simpl; [|reflexivity].
  apply String.eqb_eq in E. now rewrite E.
Qed.

Lemma openings_step_tallies (m : OpeningMap) (seen : list Analysis) (a : Analysis) :
  tallies m seen -> tallies (openings_step m a) (seen ++ [a]).
Proof.
  intros Hm key. specialize (Hm key). rewrite keyed_loss_snoc.
  unfold openings_step, keyed_loss at 2, keyed_loss at 3.
  destruct (status_eqb (status a) COMPLETED) eqn:Hc; simpl.
  2:{ unfold other_outcome, is_completed. rewrite Hc. simpl.
      destruct (map_get key m); [rewrite Nat.add_0_r|]; tauto || lia. }
  rewrite map_get_modify.
  destruct (String.eqb (opening_key a) key) eqn:Ek.
  - apply String.eqb_eq in Ek. subst key.
    rewrite Bool.andb_true_r, map_has_get.
    destruct (map_get (opening_key a) m) as [s0|] eqn:Hget.
    + rewrite Hget. simpl.
      destruct (tally_losses a s0 Hc) as [-> ->]. destruct Hm as [-> ->].
      split; reflexivity.
    + rewrite map_get_app, Hget. simpl. rewrite String.eqb_refl. simpl.
      destruct (tally_losses a
                  {| opening := opening_of a;
                     eco := if String.eqb (eco_of a) "" then None
                            else Some (eco_of a);
                     count := 0; os_wins := 0; os_losses := 0; os_draws := 0 |}
                  Hc) as [-> ->].
      rewrite new_stat_key, Hm. simpl. split; reflexivity.
  - rewrite Bool.andb_false_r, Nat.add_0_r.
    destruct (map_has (opening_key a) m); [exact Hm|].
    rewrite map_get_app. destruct (map_get key m); [exact Hm|].
    simpl. rewrite Ek. exact Hm.
Qed.

Lemma openings_step_distinct (m : OpeningMap) (a : Analysis) :
  distinct_keys m -> distinct_keys (openings_step m a).
Proof.
  intros Hm. unfold openings_step.
  destruct (negb (status_eqb (status a) COMPLETED)); [exact Hm|].
  apply distinct_keys_modify. rewrite map_has_get.
  destruct (map_get (opening_key a) m) eqn:Hget; [exact Hm|].
  now apply distinct_keys_app.
Qed.

Lemma openings_fold (l seen : list Analysis) (m : OpeningMap) :
  distinct_keys m -> tallies m seen ->
  distinct_keys (fold_left openings_step l m)
  /\ tallies (fold_left openings_step l m) (seen ++ l).
Proof.
  revert seen m. induction l as [|a l IH]; intros seen m Hd Ht; simpl.
  - rewrite List.app_nil_r. split; assumption.
  - replace (seen ++ a :: l) with ((seen ++ [a]) ++ l)
      by (rewrite <- List.app_assoc; reflexivity).
    apply IH; [now apply openings_step_distinct | now apply openings_step_tallies].
Qed.

Lemma In_insert_by_count (x y : OpeningStat) (l : list OpeningStat) :
  In x (insert_by_count y l) -> x = y \/ In x l.
Proof.
  induction l as [|z l IH]; simpl.
  - intros [H|[]]; auto.
  - destruct (Nat.leb (count z) (count y)); simpl.
    + intros [H|[H|H]]; auto.
    + intros [H|H]; auto. destruct (IH H); auto.
Qed.

Lemma In_sort_by_count (x : OpeningStat) (l : list OpeningStat) :
  In x (sort_by_count l) -> In x l.
Proof.
  induction l as [|y l IH]; simpl; [tauto|].
  intros H. apply In_insert_by_count in H. destruct H; auto.
Qed.

Lemma In_firstn {A} (n : nat) (x : A) (l : list A) : In x (firstn n l) -> In x l.
Proof.
  revert l. induction n as [|n IH]; intros [|y l]; simpl; try tauto.
  intros [H|H]; auto.
Qed.

Lemma openings_losses (analyses : list Analysis) (s : OpeningStat) :
  In s (getMostPlayedOpenings analyses) ->
  os_losses s = length (List.filter (keyed_loss (stat_key s)) analyses).
Proof.
  unfold getMostPlayedOpenings. intros H.
  apply In_firstn, In_sort_by_count, List.in_map_iff in H.
  destruct H as [[k s'] [Hs Hin]]. simpl in Hs. subst s'.
  destruct (openings_fold analyses [] [] I (fun _ => eq_refl)) as [Hd Ht].
  simpl in Ht. specialize (Ht k).
  rewrite (distinct_keys_In _ _ _ Hd Hin) in Ht. destruct Ht as [-> ->].
  reflexivity.
Qed.

(** ** The claims *)

(** C8.  When the games of the input whose result is recorded are exactly
    three COMPLETED games played as white, with results 1-0, 0-1 and
    1/2-1/2, the win rate is 33: one win over the three games, times 100,
    rounded to the nearest integer.  Games whose result is the marker for an
    unknown result may be present in any number and at any place: they do
    not enter the denominator. *)
Theorem win_rate_three_white_games (analyses : list Analysis) (a1 a2 a3 : Analysis) :
  List.filter known_result analyses = [a1; a2; a3] ->
  status a1 = COMPLETED -> status a2 = COMPLETED -> status a3 = COMPLETED ->
  player_color a1 = Some white -> player_color a2 = Some white ->
  player_color a3 = Some white ->
  meta_result (metadata a1) = "1-0" ->
  meta_result (metadata a2) = "0-1" ->
  meta_result (metadata a3) = "1/2-1/2" ->
  calculateWinRate analyses = Some 33%float.
Proof.
  intros Hl S1 S2 S3 C1 C2 C3 R1 R2 R3.
  rewrite <- win_rate_ignores_unknown, Hl.
  unfold calculateWinRate, counts_for_win_rate, count_wins. simpl.
  rewrite S1, S2, S3, R1, R2, R3. simpl.
  rewrite C1, C2, C3, R1, R2, R3.
  vm_compute. reflexivity.
Qed.

Lemma win_rate_three_white_games_witness :
  calculateWinRate
    [Samples.game "g1" COMPLETED (Some white) "1-0" Samples.a_user;
     Samples.game "g2" COMPLETED (Some white) "*" Samples.a_user;
     Samples.game "g3" COMPLETED (Some white) "0-1" Samples.a_user;
     Samples.game "g4" COMPLETED (Some white) "1/2-1/2" Samples.a_user]
  = Some 33%float.
Proof.
  apply (win_rate_three_white_games _
           (Samples.game "g1" COMPLETED (Some white) "1-0" Samples.a_user)
           (Samples.game "g3" COMPLETED (Some white) "0-1" Samples.a_user)
           (Samples.game "g4" COMPLETED (Some white) "1/2-1/2" Samples.a_user));
    reflexivity.
Defined.



End DashboardFacts.

(* ===================================================================== *)
(** * Properties of the reasoning client *)
(* ===================================================================== *)

Module GeminiFacts.

Import Gemini.

Lemma app_cons (c : Ascii.ascii) (s t : string) :
  String c s +:+ t = String c (s +:+ t).
Proof. reflexivity. Qed.

Lemma app_nil (t : string) : "" +:+ t = t.
Proof. reflexivity. Qed.

Lemma occurs_app (c : Ascii.ascii) (s t : string) :
  occurs c (s +:+ t) = occurs c s || occurs c t.
Proof.
  induction s as [|d s IH]; [reflexivity|].
  rewrite app_cons. simpl. rewrite IH. apply Bool.orb_assoc.
Qed.

Lemma match_star_close_none (s : string) :
  match_star_close s = None <-> occurs close_brace s = false.
Proof.
  induction s as [|c s IH]; simpl; [tauto|].
  destruct (match_star_close s) as [m|].
  - split; [discriminate|]. intros H.
    apply Bool.orb_false_iff in H. destruct H as [_ H].
    apply IH in H. discriminate.
  - destruct (Ascii.eqb c close_brace); simpl; [split; discriminate|].
    split; intros _; [now apply IH | reflexivity].
Qed.

Lemma match_star_close_some (s m : string) :
  match_star_close s = Some m <->
  exists mid post,
    s = mid +:+ String close_brace post
    /\ m = mid +:+ String close_brace ""
    /\ occurs close_brace post = false.
Proof.
  split.
  - revert m. induction s as [|c s IH]; simpl; intros m H; [discriminate|].
    destruct (match_star_close s) as [m0|] eqn:E.
    + inversion H; subst m. destruct (IH m0 eq_refl) as (mid & post & -> & -> & Hp).
      exists (String c mid), post. repeat split; assumption.
    + destruct (Ascii.eqb c close_brace) eqn:Ec; [|discriminate].
      inversion H; subst m. apply Ascii.eqb_eq in Ec. subst c.
      exists "", s. repeat split. now apply match_star_close_none.
  - intros (mid & post & -> & -> & Hp). induction mid as [|c mid IH].
    + rewrite !app_nil. simpl.
      apply match_star_close_none in Hp. rewrite Hp. reflexivity.
    + rewrite !app_cons. simpl. now rewrite IH.
Qed.

Lemma regex_match_needs_close (text : string) :
  occurs close_brace text = false -> regex_match text = None.
Proof.
  induction text as [|c rest IH]; simpl; [reflexivity|].
  intros H. apply Bool.orb_false_iff in H. destruct H as [_ H].
  rewrite (proj2 (match_star_close_none rest) H), (IH H).
  now destruct (Ascii.eqb c open_brace).
Qed.

(** The match runs from the first opening brace to the last closing
    brace. *)
Lemma regex_match_some (text span : string) :
  regex_match text = Some span <->
  exists pre mid post,
    text = pre +:+ String open_brace (mid +:+ String close_brace post)
    /\ span = String open_brace (mid +:+ String close_brace "")
    /\ occurs open_brace pre = false
    /\ occurs close_brace post = false.
Proof.
  split.
  - revert span. induction text as [|c rest IH]; simpl; intros span H; [discriminate|].
    destruct (Ascii.eqb c open_brace) eqn:Ec.
    + apply Ascii.eqb_eq in Ec. subst c.
      destruct (match_star_close rest) as [m|] eqn:E.
      * inversion H; subst span.
        apply match_star_close_some in E. destruct E as (mid & post & -> & -> & Hp).
        exists "", mid, post. repeat split; assumption.
      * apply match_star_close_none, regex_match_needs_close in E.
        rewrite E in H. discriminate.
    + destruct (IH span H) as (pre & mid & post & -> & -> & Ho & Hp).
      exists (String c pre), mid, post. repeat split; [|assumption].
      simpl. now rewrite Ec, Ho.
  - intros (pre & mid & post & -> & -> & Ho & Hp).
    induction pre as [|c pre IH].
    + rewrite app_nil. simpl.
      assert (E : match_star_close (mid +:+ String close_brace post)
                  = Some (mid +:+ String close_brace "")).
      { apply match_star_close_some. exists mid, post. repeat split; assumption. }
      now rewrite E.
    + simpl in Ho. apply Bool.orb_false_iff in Ho. destruct Ho as [Ec Ho].
      rewrite app_cons. simpl. rewrite Ec. now apply IH.
Qed.

(** There is no match exactly when no opening brace is followed by a
    closing one. *)
Lemma regex_match_none (text : string) :
  regex_match text = None <->
  ~ exists pre mid post,
      text = pre +:+ String open_brace (mid +:+ String close_brace post).
Proof.
  split.
  - intros H (pre & mid & post & ->). revert H.
    induction pre as [|c pre IH].
    + rewrite app_nil. simpl.
      destruct (match_star_close (mid +:+ String close_brace post)) eqn:E;
        [discriminate|].
      apply match_star_close_none in E. rewrite occurs_app in E. simpl in E.
      rewrite Bool.orb_true_r in E. discriminate.
    + rewrite app_cons. simpl.
      destruct (Ascii.eqb c open_brace); [|exact IH].
      destruct (match_star_close
                  (pre +:+ String open_brace (mid +:+ String close_brace post)));
        [discriminate | exact IH].
  - intros H. destruct (regex_match text) as [span|] eqn:E; [|reflexivity].
    exfalso. apply H. apply regex_match_some in E.
    destruct E as (pre & mid & post & -> & _). eauto.
Qed.

Lemma mapM_all_objects (puzzles : list ChessPuzzle) :
  mapM id (map Some puzzles) = Some puzzles.
Proof.
  induction puzzles as [|p puzzles IH]; [reflexivity|].
  simpl. rewrite IH. reflexivity.
Qed.

Lemma mapM_null_element (elements : list (option ChessPuzzle)) :
  mapM id elements = None <-> In None elements.
Proof.
  induction elements as [|[p|] elements IH]; simpl.
  - split; [discriminate|intros []].
  - destruct (mapM id elements) as [puzzles|]; simpl.
    + split; [discriminate|]. intros [H|H]; [discriminate|].
      apply IH in H. discriminate.
    + split; [|reflexivity]. intros _. right. apply IH. reflexivity.
  - split; [|reflexivity]. intros _. left. reflexivity.
Qed.

(** What the log of lines 190-197 makes of the [puzzles] value. *)
Lemma logged_puzzles_spec (field : PuzzlesField) :
  match logged_puzzles field with
  | inr puzzles =>
      (field = PuzzleArray (map Some puzzles)
       \/ (puzzles = [] /\ (field = NoPuzzles \/ field = NotSized)))
  | inl e =>
      is_parse_error e = false
      /\ (exists msg, e = JsError "TypeError" msg)
      /\ (field = NotAnArray
          \/ exists elements, field = PuzzleArray elements /\ In None elements)
  end.
Proof.
  destruct field as [|elements| |]; simpl.
  - right. split; [reflexivity|]. left. reflexivity.
  - destruct (mapM id elements) as [puzzles|] eqn:E.
    + left. f_equal. clear -E. revert puzzles E.
      induction elements as [|[p|] elements IH]; simpl; intros puzzles E.
      * injection E as <-. reflexivity.
      * destruct (mapM id elements) as [rest|]; [|discriminate].
        injection E as <-. simpl. f_equal. apply IH. reflexivity.
      * discriminate.
    + split; [reflexivity|]. split; [eexists; reflexivity|].
      right. exists elements. split; [reflexivity|].
      apply mapM_null_element, E.
  - right. split; [reflexivity|]. right. reflexivity.
  - split; [reflexivity|]. split; [eexists; reflexivity|]. left. reflexivity.
Qed.

(** ** The claims *)



End GeminiFacts.

(* ===================================================================== *)
(** * Properties of the job processor *)
(* ===================================================================== *)

Module WorkerFacts.

Import Gemini Worker Samples.

(** *** One step at a time *)

Lemma run_S (sv : Services) (id : string) (n : nat) (pc : Pc) (w : World) :
  run sv id (S n) pc w
  = run sv id n (fst (step sv id pc w)) (snd (step sv id pc w)).
Proof. simpl. now destruct (step sv id pc w). Qed.

Lemma run_Resolved (sv : Services) (id : string) (n : nat) (w : World) :
  run sv id n Resolved w = (Resolved, w).
Proof. induction n as [|n IH]; [reflexivity | exact IH]. Qed.

Lemma run_Rejected (sv : Services) (id : string) (n : nat) (e : Thrown) (w : World) :
  run sv id n (Rejected e) w = (Rejected e, w).
Proof. induction n as [|n IH]; [reflexivity | exact IH]. Qed.

Lemma save_accepts (sv : Services) (id : string) (doc : Analysis) (w : World) :
  save_fault sv (saves w) = None ->
  save sv id doc w = (None, accepted id doc w).
Proof. intros H. unfold save. now rewrite H. Qed.

Lemma save_rejects (sv : Services) (id : string) (doc : Analysis) (w : World)
    (e : Thrown) :
  save_fault sv (saves w) = Some e ->
  save sv id doc w = (Some e, rejected id doc w).
Proof. intros H. unfold save. now rewrite H. Qed.

Lemma step_Start_pending (sv : Services) (id : string) (w : World) (job : Analysis) :
  analyses w !! id = Some job -> status job = PENDING ->
  step sv id Start w = (SavingProcessing (claimed job), w).
Proof. intros Hj Hs. simpl. now rewrite Hj, Hs. Qed.

Lemma saves_accepted (id : string) (doc : Analysis) (w : World) :
  saves (accepted id doc w) = S (saves w).
Proof. reflexivity. Qed.

Lemma called_same (sv : Services) (doc : Analysis) (w : World) :
  analyses (called sv doc w) = analyses w
  /\ puzzles (called sv doc w) = puzzles w
  /\ saves (called sv doc w) = saves w
  /\ writes (trace (called sv doc w)) = writes (trace w)
  /\ puzzle_saves (trace (called sv doc w)) = puzzle_saves (trace w).
Proof.
  unfold called. destruct (has_api_key _); simpl; [|repeat split].
  unfold writes, puzzle_saves. rewrite omap_app, List.filter_app. simpl.
  rewrite !List.app_nil_r. repeat split.
Qed.

Lemma writes_accepted (id : string) (doc : Analysis) (w : World) :
  writes (trace (accepted id doc w)) = writes (trace w) ++ [(doc, true)].
Proof. unfold writes. simpl. now rewrite omap_app. Qed.

Lemma writes_rejected (id : string) (doc : Analysis) (w : World) :
  writes (trace (rejected id doc w)) = writes (trace w) ++ [(doc, false)].
Proof. unfold writes. simpl. now rewrite omap_app. Qed.

Lemma puzzle_saves_accepted (id : string) (doc : Analysis) (w : World) :
  puzzle_saves (trace (accepted id doc w)) = puzzle_saves (trace w).
Proof.
  unfold puzzle_saves. simpl. rewrite List.filter_app. simpl.
  now rewrite List.app_nil_r.
Qed.

Lemma puzzle_saves_rejected (id : string) (doc : Analysis) (w : World) :
  puzzle_saves (trace (rejected id doc w)) = puzzle_saves (trace w).
Proof.
  unfold puzzle_saves. simpl. rewrite List.filter_app. simpl.
  now rewrite List.app_nil_r.
Qed.

Lemma writes_linked (cands : list ChessPuzzle) (userId id : string)
    (stored : list Puzzle) (w : World) :
  writes (trace (linked cands userId id stored w)) = writes (trace w).
Proof. unfold writes. simpl. rewrite omap_app. simpl. apply List.app_nil_r. Qed.

Lemma puzzle_saves_linked (cands : list ChessPuzzle) (userId id : string)
    (stored : list Puzzle) (w : World) :
  puzzle_saves (trace (linked cands userId id stored w))
  = S (puzzle_saves (trace w)).
Proof.
  unfold puzzle_saves. simpl. rewrite List.filter_app, List.length_app. simpl.
  lia.
Qed.

(** The claim of a PENDING job, when the store accepts it. *)
Lemma claim_accepted (sv : Services) (id : string) (w : World) (job : Analysis) :
  analyses w !! id = Some job -> status job = PENDING ->
  save_fault sv (saves w) = None ->
  processAnalysis sv id w
  = run sv id 4 (Analyzing (claimed job)) (accepted id (claimed job) w).
Proof.
  intros Hj Hs Hf. unfold processAnalysis.
  rewrite run_S, (step_Start_pending sv id w job Hj Hs). simpl fst; simpl snd.
  rewrite run_S. simpl step. now rewrite (save_accepts sv id _ w Hf).
Qed.

(** The commit of FAILED, at the [save] of line 117. *)
Lemma commit_failed (sv : Services) (id : string) (n : nat) (doc : Analysis)
    (w : World) :
  run sv id (S n) (SavingFailed doc) w
  = match save_fault sv (saves w) with
    | None => (Resolved, accepted id doc w)
    | Some e => (Rejected e, rejected id doc w)
    end.
Proof.
  rewrite run_S. simpl step. unfold save.
  destruct (save_fault sv (saves w)); simpl.
  - apply run_Rejected.
  - apply run_Resolved.
Qed.

(** The commit of COMPLETED, at the [save] of line 105, which stands inside
    the outer [try]. *)
Lemma commit_completed (sv : Services) (id : string) (n : nat) (doc : Analysis)
    (w : World) :
  run sv id (S (S n)) (SavingCompleted doc) w
  = match save_fault sv (saves w) with
    | None => (Resolved, accepted id doc w)
    | Some e =>
        match save_fault sv (S (saves w)) with
        | None => (Resolved, accepted id (failed_doc doc e) (rejected id doc w))
        | Some e' => (Rejected e', rejected id (failed_doc doc e) (rejected id doc w))
        end
    end.
Proof.
  rewrite run_S. simpl step. unfold save.
  destruct (save_fault sv (saves w)) as [e|]; simpl fst; simpl snd.
  - unfold fail_with. rewrite commit_failed. reflexivity.
  - apply run_Resolved.
Qed.

(** Events are only ever added to the trace. *)
Lemma step_keeps_trace (sv : Services) (id : string) (pc : Pc) (w : World)
    (ev : Event) :
  In ev (trace w) -> In ev (trace (snd (step sv id pc w))).
Proof.
  intros H.
  assert (Hsnoc : forall e', In ev (trace w ++ [e']))
    by (intros; apply List.in_or_app; now left).
  destruct pc; simpl; try exact H.
  - destruct (analyses w !! id) as [job|]; [|exact H].
    now destruct (negb (status_eqb (status job) PENDING)).
  - unfold save. destruct (save_fault sv (saves w)); simpl; apply Hsnoc.
  - assert (Hc : In ev (trace (called sv analysis w))).
    { unfold called. destruct (has_api_key _); [apply Hsnoc | exact H]. }
    destruct (analyze sv analysis) as [e|[b cands]]; [exact Hc|].
    now destruct (_ && _).
  - destruct (savePuzzles sv puzzleObjects userId id (puzzles w)) as [[e|saved] stored];
      simpl; apply Hsnoc.
  - unfold save. destruct (save_fault sv (saves w)); simpl; apply Hsnoc.
  - unfold save. destruct (save_fault sv (saves w)); simpl; apply Hsnoc.
Qed.

Lemma run_keeps_trace (sv : Services) (id : string) (n : nat) (pc : Pc)
    (w : World) (ev : Event) :
  In ev (trace w) -> In ev (trace (snd (run sv id n pc w))).
Proof.
  revert pc w. induction n as [|n IH]; intros pc w H; [exact H|].
  rewrite run_S. apply IH. now apply step_keeps_trace.
Qed.

(** The ways in which the reasoning client fails: the key is missing, the
    external service fails, or its answer cannot be parsed. *)
Lemma analyze_failures (sv : Services) (job : Analysis) (e : Thrown) :
  analyze sv job = inl e <->
  (has_api_key (GOOGLE_GENERATIVE_AI_API_KEY sv) = false
   /\ e = JsError "Error"
            ("GOOGLE_GENERATIVE_AI_API_KEY environment variable is not set. " +:+
             "Please set it in your environment variables or Cloud Run configuration."))
  \/ (has_api_key (GOOGLE_GENERATIVE_AI_API_KEY sv) = true
      /\ generateText sv (context_of job) = inl e)
  \/ (has_api_key (GOOGLE_GENERATIVE_AI_API_KEY sv) = true
      /\ exists text, generateText sv (context_of job) = inr text
                      /\ parse_response (JSON_parse sv) text = inl e).
Proof.
  unfold analyze, analyzeGame.
  destruct (has_api_key (GOOGLE_GENERATIVE_AI_API_KEY sv)); simpl.
  - destruct (generateText sv (context_of job)) as [e'|text]; split.
    + intros H. right. left. split; [reflexivity | congruence].
    + intros [[H _]|[[_ H]|[_ (text & H & _)]]]; congruence.
    + intros H. right. right. split; [reflexivity|]. eauto.
    + intros [[H _]|[[_ H]|[_ (text' & H & H')]]]; congruence.
  - split.
    + intros H. left. inversion H. split; reflexivity.
    + intros [[_ ->]|[[H _]|[H _]]]; [reflexivity | discriminate | discriminate].
Qed.

(** *** Every invocation settles *)

Lemma step_awaits_left (sv : Services) (id : string) (pc : Pc) (w : World) :
  awaits_left (fst (step sv id pc w)) <= pred (awaits_left pc).
Proof.
  destruct pc; simpl; try lia.
  - destruct (analyses w !! id) as [job|]; simpl; [|lia].
    destruct (negb (status_eqb (status job) PENDING)); simpl; lia.
  - unfold save. destruct (save_fault sv (saves w)); simpl; lia.
  - destruct (analyze sv analysis) as [e|[b cands]]; simpl; [lia|].
    destruct (_ && _); simpl; lia.
  - destruct (savePuzzles sv puzzleObjects userId id (puzzles w)) as [[e|saved] stored];
      simpl; lia.
  - unfold save. destruct (save_fault sv (saves w)); simpl; lia.
  - unfold save. destruct (save_fault sv (saves w)); simpl; lia.
Qed.

Lemma run_settles (sv : Services) (id : string) (n : nat) (pc : Pc) (w : World) :
  awaits_left pc <= n -> settled (fst (run sv id n pc w)) = true.
Proof.
  revert pc w. induction n as [|n IH]; intros pc w H.
  - destruct pc; simpl in *; try lia; reflexivity.
  - rewrite run_S. apply IH.
    pose proof (step_awaits_left sv id pc w). lia.
Qed.

(** The promise returned by [processAnalysis] always settles. *)
Lemma processAnalysis_settles (sv : Services) (id : string) (w : World) :
  settled (fst (processAnalysis sv id w)) = true.
Proof. apply run_settles. simpl. lia. Qed.

Lemma skip_unless_pending (sv : Services) (id : string) (w : World) (job : Analysis) :
  analyses w !! id = Some job -> status job <> PENDING ->
  processAnalysis sv id w = (Resolved, w).
Proof.
  intros Hj Hs. unfold processAnalysis. rewrite run_S.
  assert (E : step sv id Start w = (Resolved, w)).
  { simpl. rewrite Hj. destruct (status job); simpl; congruence. }
  rewrite E. apply run_Resolved.
Qed.

(** The invocation up to the commit of COMPLETED, when the claim is accepted
    and the analysis succeeds. *)
Lemma analysis_succeeded (sv : Services) (id : string) (w : World)
    (job : Analysis) (b : AnalysisBody) (cands : list ChessPuzzle) :
  analyses w !! id = Some job -> status job = PENDING ->
  save_fault sv (saves w) = None ->
  analyze sv job = inr (b, cands) ->
  let w2 := called sv (claimed job) (accepted id (claimed job) w) in
  processAnalysis sv id w
  = if Nat.ltb 0 (length cands) && negb (String.eqb (owner job) "guest")
    then
      let r := savePuzzles sv cands (owner job) id (puzzles w) in
      run sv id 2
        (complete_with sv (claimed job) b
           (match fst r with
            | inr savedPuzzles => map puzzle_id savedPuzzles
            | inl _ => []
            end))
        (linked cands (owner job) id (snd r) w2)
    else run sv id 3 (complete_with sv (claimed job) b []) w2.
Proof.
  intros Hj Hs Hf Ha w2.
  rewrite (claim_accepted sv id w job Hj Hs Hf), run_S. simpl step.
  change (analyze sv (claimed job)) with (analyze sv job). rewrite Ha.
  change (owner (claimed job)) with (owner job).
  destruct (Nat.ltb 0 (length cands) && negb (String.eqb (owner job) "guest"));
    simpl fst; simpl snd; [|reflexivity].
  rewrite run_S. simpl step.
  destruct (called_same sv (claimed job) (accepted id (claimed job) w))
    as (_ & -> & _).
  change (puzzles (accepted id (claimed job) w)) with (puzzles w).
  destruct (savePuzzles sv cands (owner job) id (puzzles w)) as [[e|saved] stored];
    reflexivity.
Qed.

(** The invocation when the claim is accepted and the analysis fails. *)
Lemma analysis_failed (sv : Services) (id : string) (w : World)
    (job : Analysis) (e : Thrown) :
  analyses w !! id = Some job -> status job = PENDING ->
  save_fault sv (saves w) = None ->
  analyze sv job = inl e ->
  let failed := failed_doc (claimed job) e in
  let w2 := called sv (claimed job) (accepted id (claimed job) w) in
  processAnalysis sv id w
  = match save_fault sv (S (saves w)) with
    | None => (Resolved, accepted id failed w2)
    | Some e' => (Rejected e', rejected id failed w2)
    end.
Proof.
  intros Hj Hs Hf Ha failed w2.
  rewrite (claim_accepted sv id w job Hj Hs Hf), run_S. simpl step.
  change (analyze sv (claimed job)) with (analyze sv job). rewrite Ha.
  simpl fst; simpl snd. unfold fail_with. rewrite commit_failed.
  destruct (called_same sv (claimed job) (accepted id (claimed job) w))
    as (_ & _ & -> & _). reflexivity.
Qed.

(** What the commit of COMPLETED leaves behind. *)
Lemma commit_completed_facts (sv : Services) (id : string) (n : nat)
    (doc : Analysis) (w : World) :
  let r := run sv id (S (S n)) (SavingCompleted doc) w in
  puzzles (snd r) = puzzles w
  /\ puzzle_saves (trace (snd r)) = puzzle_saves (trace w)
  /\ exists rest,
       writes (trace (snd r))
       = writes (trace w) ++ (doc, is_accepted (save_fault sv (saves w))) :: rest
       /\ (save_fault sv (saves w) = None ->
           rest = [] /\ r = (Resolved, accepted id doc w)).
Proof.
  intros r. unfold r. rewrite commit_completed.
  destruct (save_fault sv (saves w)) as [e|]; [destruct (save_fault sv (S (saves w)))|];
    simpl snd; simpl is_accepted.
  - split; [reflexivity|]. split; [now rewrite !puzzle_saves_rejected|].
    exists [(failed_doc doc e, false)]. split; [|discriminate].
    rewrite !writes_rejected, <- List.app_assoc. reflexivity.
  - split; [reflexivity|].
    split; [now rewrite puzzle_saves_accepted, puzzle_saves_rejected|].
    exists [(failed_doc doc e, true)]. split; [|discriminate].
    rewrite writes_accepted, writes_rejected, <- List.app_assoc. reflexivity.
  - split; [reflexivity|]. split; [apply puzzle_saves_accepted|].
    exists []. split; [apply writes_accepted | split; reflexivity].
Qed.

(** ** The claims *)

(** C2.  For a job whose status is not PENDING, an invocation of
    [processAnalysis] with its id returns and leaves the world as it found
    it: the job record and both collections are unchanged and no event is
    added to the trace, so there is no write and no external call. *)
Theorem processAnalysis_skips_claimed_jobs
    (sv : Services) (id : string) (w : World) (job : Analysis) :
  analyses w !! id = Some job ->
  status job <> PENDING ->
  processAnalysis sv id w = (Resolved, w).
Proof. apply skip_unless_pending. Qed.

Lemma processAnalysis_skips_claimed_jobs_witness :
  let sv := services (inr reply) (Some [fork; pin]) no_fault None in
  let job := game "job-1" COMPLETED (Some white) "1-0" a_user in
  processAnalysis sv "job-1" (world job) = (Resolved, world job).
Proof.
  intros sv job.
  apply (processAnalysis_skips_claimed_jobs sv "job-1" (world job) job);
    [reflexivity | discriminate].
Defined.

(** C4.  When the reasoning client fails on a PENDING job (the claim of the
    job having been accepted, so that the client is called at all), the only
    writes of the invocation are the claim and one commit of FAILED.  The
    document of that commit is the job with the status FAILED and, as its
    error, the message of the error the client has thrown ("Unknown error"
    when what it has thrown is not an Error); its result and its completion
    date are those of the job as it was found, so a job without a
    completion date stays without one.  No COMPLETED document is written.
    The invocation returns if the store accepts the commit, and fails with
    the store's error if not. *)
Theorem reasoning_failure_commits_failed
    (sv : Services) (id : string) (w : World) (job : Analysis) (e : Thrown) :
  analyses w !! id = Some job ->
  status job = PENDING ->
  save_fault sv (saves w) = None ->
  analyze sv job = inl e ->
  let captured :=
    match e with
    | JsError _ message => message
    | NotAnError => "Unknown error"
    end in
  let claim :=
    with_outcome job PROCESSING (result job) (error job) (completed_at job) in
  let failed :=
    with_outcome job FAILED (result job) (Some captured) (completed_at job) in
  let w2 := called sv claim (accepted id claim w) in
  processAnalysis sv id w
  = match save_fault sv (S (saves w)) with
    | None => (Resolved, accepted id failed w2)
    | Some e' => (Rejected e', rejected id failed w2)
    end
  /\ writes (trace (snd (processAnalysis sv id w)))
     = writes (trace w)
       ++ [(claim, true);
           (failed, is_accepted (save_fault sv (S (saves w))))]
  /\ Forall (fun x => status (fst x) <> COMPLETED)
       [(claim, true); (failed, is_accepted (save_fault sv (S (saves w))))]
  /\ (completed_at job = None -> completed_at failed = None).
Proof.
  intros Hj Hs Hf Ha captured claim failed w2.
  assert (E : processAnalysis sv id w
              = match save_fault sv (S (saves w)) with
                | None => (Resolved, accepted id failed w2)
                | Some e' => (Rejected e', rejected id failed w2)
                end).
  { apply (analysis_failed sv id w job e Hj Hs Hf Ha). }
  split; [exact E|]. split.
  - rewrite E.
    destruct (called_same sv claim (accepted id claim w))
      as (_ & _ & _ & Hw & _).
    destruct (save_fault sv (S (saves w))); simpl snd; simpl is_accepted;
      [rewrite writes_rejected | rewrite writes_accepted];
      unfold w2; rewrite Hw, writes_accepted, <- List.app_assoc; reflexivity.
  - split; [|intros H; exact H].
    repeat constructor; simpl; discriminate.
Qed.

Lemma reasoning_failure_commits_failed_witness :
  let sv := services (inr "I cannot analyse this game.") None no_fault None in
  let r := processAnalysis sv "job-1" (world pending_job) in
  fst r = Resolved
  /\ map (fun x => status (fst x)) (writes (trace (snd r))) = [PROCESSING; FAILED]
  /\ (analyses (snd r) !! "job-1")
     = Some (with_outcome pending_job FAILED None
               (Some "Failed to parse JSON from Gemini response") None).
Proof.
  intros sv r.
  destruct (reasoning_failure_commits_failed sv "job-1" (world pending_job)
              pending_job
              (JsError "Error" "Failed to parse JSON from Gemini response")
              eq_refl eq_refl eq_refl eq_refl) as (E & Hw & _).
  unfold r. rewrite Hw, E. repeat split.
Defined.

(** C5.  When the analysis of a PENDING job succeeds and persisting its
    puzzle candidates fails, the failure is absorbed: the write that follows
    the claim is the commit of COMPLETED, with a result whose list of puzzle
    references is empty.  When the store accepts that commit the invocation
    returns, the persisted job is COMPLETED, and there is no write of
    FAILED. *)
Theorem puzzle_failure_still_completes
    (sv : Services) (id : string) (w : World) (job : Analysis)
    (b : AnalysisBody) (cands : list ChessPuzzle) (e : Thrown)
    (stored : list Puzzle) :
  analyses w !! id = Some job ->
  status job = PENDING ->
  save_fault sv (saves w) = None ->
  analyze sv job = inr (b, cands) ->
  cands <> [] ->
  owner job <> "guest" ->
  savePuzzles sv cands (owner job) id (puzzles w) = (inl e, stored) ->
  let done := completed_doc sv (claimed job) b [] in
  let w3 := linked cands (owner job) id stored
              (called sv (claimed job) (accepted id (claimed job) w)) in
  let r := processAnalysis sv id w in
  status done = COMPLETED
  /\ result done = Some {| res_body := b; res_puzzles := [] |}
  /\ (exists rest,
        writes (trace (snd r))
        = writes (trace w)
          ++ (claimed job, true)
             :: (done, is_accepted (save_fault sv (S (saves w)))) :: rest)
  /\ (save_fault sv (S (saves w)) = None ->
      r = (Resolved, accepted id done w3)
      /\ writes (trace (snd r))
         = writes (trace w) ++ [(claimed job, true); (done, true)]
      /\ analyses (snd r) !! id = Some done).
Proof.
  intros Hj Hs Hf Ha Hc Ho Hp done w3 r.
  split; [reflexivity|]. split; [reflexivity|].
  assert (E : r = run sv id 2 (SavingCompleted done) w3).
  { unfold r. rewrite (analysis_succeeded sv id w job b cands Hj Hs Hf Ha).
    apply String.eqb_neq in Ho. rewrite Ho.
    destruct cands as [|c cands]; [congruence|]. simpl negb. simpl andb.
    cbv zeta. rewrite Hp. reflexivity. }
  destruct (called_same sv (claimed job) (accepted id (claimed job) w))
    as (_ & _ & Hsv & Hw & _).
  assert (Hw3 : writes (trace w3) = writes (trace w) ++ [(claimed job, true)]).
  { unfold w3. now rewrite writes_linked, Hw, writes_accepted. }
  assert (Hs3 : saves w3 = S (saves w)) by exact Hsv.
  destruct (commit_completed_facts sv id 0 done w3) as (_ & _ & rest & Hr & Hok).
  rewrite <- E, Hs3, Hw3, <- List.app_assoc in Hr. simpl in Hr.
  split; [exists rest; exact Hr|].
  intros Hf2. rewrite Hs3 in Hok. destruct (Hok Hf2) as [-> Er].
  rewrite <- E in Er. rewrite Hf2 in Hr.
  split; [exact Er|]. split; [exact Hr|].
  rewrite Er. simpl. apply lookup_insert_eq.
Qed.

Lemma puzzle_failure_still_completes_witness :
  let sv := services (inr reply) (Some [fork; pin]) no_fault (Some network_down) in
  let r := processAnalysis sv "job-1" (world pending_job) in
  fst r = Resolved
  /\ map (fun x => status (fst x)) (writes (trace (snd r))) = [PROCESSING; COMPLETED]
  /\ (analyses (snd r) !! "job-1")
     = Some (completed_doc sv (claimed pending_job) body []).
Proof.
  intros sv r.
  assert (Hc : [fork; pin] <> []) by discriminate.
  assert (Ho : owner pending_job <> "guest") by discriminate.
  destruct (puzzle_failure_still_completes sv "job-1" (world pending_job)
              pending_job body [fork; pin] network_down []
              eq_refl eq_refl eq_refl eq_refl Hc Ho eq_refl)
    as (_ & _ & _ & H).
  destruct (H eq_refl) as (E & Hw & Hl).
  unfold r. rewrite Hw, Hl, E. repeat split.
Defined.

Lemma saved_bodies (h : nat -> string) (userId analysisId : string)
    (cands : list ChessPuzzle) :
  let saved := imap (fun i p => {| puzzle_id := h i; pz_user_id := userId;
                                   pz_analysis_id := Some analysisId;
                                   pz_puzzle := p |}) cands in
  map pz_puzzle saved = cands
  /\ Forall (fun p => pz_user_id p = userId
                      /\ pz_analysis_id p = Some analysisId) saved.
Proof.
  revert h. induction cands as [|c cands IH]; intros h; simpl.
  - split; constructor.
  - destruct (IH (fun i => h (S i))) as [Hm Hf]. split.
    + f_equal. exact Hm.
    + constructor; [split; reflexivity | exact Hf].
Qed.

Lemma saved_ids (h : nat -> string) (userId analysisId : string)
    (cands : list ChessPuzzle) :
  map puzzle_id
    (imap (fun i p => {| puzzle_id := h i; pz_user_id := userId;
                         pz_analysis_id := Some analysisId;
                         pz_puzzle := p |}) cands)
  = map h (seq 0 (length cands)).
Proof.
  revert h. induction cands as [|c cands IH]; intros h; [reflexivity|].
  simpl. f_equal. rewrite <- List.seq_shift, List.map_map.
  apply (IH (fun i => h (S i))).
Qed.

(** C6.  Let the analysis of a PENDING job succeed with some candidates.
    If the owner is the guest sentinel, the invocation never calls the
    puzzle persistence, the Puzzle collection is unchanged, and the commit
    of COMPLETED is the job with the body of the analysis and an empty list
    of puzzle references as its result.  If the owner is an authenticated
    user and there are candidates, the persistence is called once, with the
    candidates, the owner and the id of the job, and when it succeeds the
    result of the commit of COMPLETED holds the body and exactly the ids of
    the documents it returned; by its type the result holds identifiers,
    never puzzle bodies.  With the persistence of the specification, the
    Puzzle collection has then grown by one record per candidate, in order,
    each holding its candidate, the owner, the id of the job and a fresh
    id, and these ids are the references of the result. *)
Theorem guest_jobs_store_no_puzzles
    (sv : Services) (id : string) (w : World) (job : Analysis)
    (b : AnalysisBody) (cands : list ChessPuzzle) :
  analyses w !! id = Some job ->
  status job = PENDING ->
  save_fault sv (saves w) = None ->
  analyze sv job = inr (b, cands) ->
  let r := processAnalysis sv id w in
  let ok := is_accepted (save_fault sv (S (saves w))) in
  let claim :=
    with_outcome job PROCESSING (result job) (error job) (completed_at job) in
  let completed (puzzleIds : list string) :=
    with_outcome job COMPLETED
      (Some {| res_body := b; res_puzzles := puzzleIds |})
      (error job) (Some (now sv)) in
  (owner job = "guest" ->
     puzzles (snd r) = puzzles w
     /\ puzzle_saves (trace (snd r)) = puzzle_saves (trace w)
     /\ exists rest,
          writes (trace (snd r))
          = writes (trace w) ++ (claim, true) :: (completed [], ok) :: rest)
  /\ (forall saved stored,
        owner job <> "guest" ->
        cands <> [] ->
        savePuzzles sv cands (owner job) id (puzzles w) = (inr saved, stored) ->
        puzzles (snd r) = stored
        /\ puzzle_saves (trace (snd r)) = S (puzzle_saves (trace w))
        /\ In (EvSavePuzzles cands (owner job) id) (trace (snd r))
        /\ exists rest,
             writes (trace (snd r))
             = writes (trace w)
               ++ (claim, true) :: (completed (map puzzle_id saved), ok) :: rest)
  /\ (forall new_id : nat -> string,
        savePuzzles sv = savePuzzles_spec None new_id ->
        owner job <> "guest" ->
        cands <> [] ->
        exists saved,
          puzzles (snd r) = puzzles w ++ saved
          /\ map pz_puzzle saved = cands
          /\ Forall (fun p => pz_user_id p = owner job
                              /\ pz_analysis_id p = Some id) saved
          /\ map puzzle_id saved
             = map (fun i => new_id (length (puzzles w) + i))
                 (seq 0 (length cands))
          /\ exists rest,
               writes (trace (snd r))
               = writes (trace w)
                 ++ (claim, true)
                    :: (completed (map puzzle_id saved), ok) :: rest).
Proof.
  intros Hj Hs Hf Ha r ok claim completed.
  destruct (called_same sv (claimed job) (accepted id (claimed job) w))
    as (_ & Hpz & Hsv & Hw & Hps).
  assert (Huser : forall saved stored,
        owner job <> "guest" ->
        cands <> [] ->
        savePuzzles sv cands (owner job) id (puzzles w) = (inr saved, stored) ->
        puzzles (snd r) = stored
        /\ puzzle_saves (trace (snd r)) = S (puzzle_saves (trace w))
        /\ In (EvSavePuzzles cands (owner job) id) (trace (snd r))
        /\ exists rest,
             writes (trace (snd r))
             = writes (trace w)
               ++ (claim, true) :: (completed (map puzzle_id saved), ok) :: rest).
  { intros saved stored Ho Hc Hsp.
    set (w3 := linked cands (owner job) id stored
                 (called sv (claimed job) (accepted id (claimed job) w))).
    assert (E : r = run sv id 2
                      (SavingCompleted
                         (completed_doc sv (claimed job) b (map puzzle_id saved)))
                      w3).
    { unfold r. rewrite (analysis_succeeded sv id w job b cands Hj Hs Hf Ha).
      apply String.eqb_neq in Ho. rewrite Ho.
      destruct cands as [|c cands]; [congruence|]. simpl negb. simpl andb.
      cbv zeta. rewrite Hsp. reflexivity. }
    destruct (commit_completed_facts sv id 0
                (completed_doc sv (claimed job) b (map puzzle_id saved)) w3)
      as (Hp & Hq & rest & Hr & _).
    rewrite <- E in Hp, Hq, Hr.
    split; [exact Hp|]. split; [|split].
    + rewrite Hq. unfold w3.
      now rewrite puzzle_saves_linked, Hps, puzzle_saves_accepted.
    + rewrite E. apply run_keeps_trace. unfold w3. simpl.
      apply List.in_or_app. right. now left.
    + exists rest. rewrite Hr. unfold w3.
      rewrite writes_linked, Hw, writes_accepted, <- List.app_assoc.
      change (saves (linked _ _ _ _ _))
        with (saves (called sv (claimed job) (accepted id (claimed job) w))).
      rewrite Hsv. reflexivity. }
  split; [|split; [exact Huser|]].
  - intros Ho.
    assert (E : r = run sv id 3 (SavingCompleted (completed_doc sv (claimed job) b []))
                      (called sv (claimed job) (accepted id (claimed job) w))).
    { unfold r. rewrite (analysis_succeeded sv id w job b cands Hj Hs Hf Ha).
      rewrite Ho. simpl negb. now rewrite Bool.andb_false_r. }
    destruct (commit_completed_facts sv id 1 (completed_doc sv (claimed job) b [])
                (called sv (claimed job) (accepted id (claimed job) w)))
      as (Hp & Hq & rest & Hr & _).
    rewrite <- E in Hp, Hq, Hr.
    rewrite Hp, Hq, Hpz, Hps, puzzle_saves_accepted.
    split; [reflexivity|]. split; [reflexivity|].
    exists rest. rewrite Hr, Hw, Hsv, writes_accepted, <- List.app_assoc.
    reflexivity.
  - intros new_id Hsp Ho Hc.
    assert (Hrun : savePuzzles sv cands (owner job) id (puzzles w)
                   = (inr (imap (fun i p =>
                                   {| puzzle_id := new_id (length (puzzles w) + i);
                                      pz_user_id := owner job;
                                      pz_analysis_id := Some id;
                                      pz_puzzle := p |}) cands),
                      puzzles w
                      ++ imap (fun i p =>
                                 {| puzzle_id := new_id (length (puzzles w) + i);
                                    pz_user_id := owner job;
                                    pz_analysis_id := Some id;
                                    pz_puzzle := p |}) cands))
      by (rewrite Hsp; reflexivity).
    destruct (Huser _ _ Ho Hc Hrun) as (Hp & _ & _ & Hrest).
    eexists. split; [exact Hp|].
    destruct (saved_bodies (fun i => new_id (length (puzzles w) + i))
                (owner job) id cands) as [Hb Hall].
    split; [exact Hb|]. split; [exact Hall|].
    split; [apply (saved_ids (fun i => new_id (length (puzzles w) + i)))|].
    exact Hrest.
Qed.

Lemma guest_jobs_store_no_puzzles_witness :
  let sv := services (inr reply) (Some [fork; pin]) no_fault None in
  let guest := processAnalysis sv "job-1" (world guest_job) in
  let user := processAnalysis sv "job-1" (world pending_job) in
  (puzzles (snd guest) = []
   /\ puzzle_saves (trace (snd guest)) = 0
   /\ map (fun x => res_puzzles <$> result (fst x))
        (take 2 (writes (trace (snd guest))))
      = [None; Some []])
  /\ (map puzzle_id (puzzles (snd user)) = ["puzzle-0"; "puzzle-1"]
      /\ puzzle_saves (trace (snd user)) = 1
      /\ map (fun x => res_puzzles <$> result (fst x))
           (take 2 (writes (trace (snd user))))
         = [None; Some ["puzzle-0"; "puzzle-1"]]).
Proof.
  intros sv guest user. split.
  - destruct (guest_jobs_store_no_puzzles sv "job-1" (world guest_job) guest_job
                body [fork; pin] eq_refl eq_refl eq_refl eq_refl) as [H _].
    destruct (H eq_refl) as (Hp & Hq & rest & Hw).
    unfold guest. rewrite Hp, Hq, Hw. repeat split.
  - assert (Hc : [fork; pin] <> []) by discriminate.
    assert (Ho : owner pending_job <> "guest") by discriminate.
    destruct (guest_jobs_store_no_puzzles sv "job-1" (world pending_job)
                pending_job body [fork; pin] eq_refl eq_refl eq_refl eq_refl)
      as (_ & H & _).
    destruct (H _ _ Ho Hc eq_refl) as (Hp & Hq & _ & rest & Hw).
    unfold user. rewrite Hp, Hq, Hw. repeat split.
Defined.

(** An authenticated job with two candidates ends with two stored puzzles
    and their two ids in its result. *)
Example authenticated_job_links_two_puzzles :
  let sv := services (inr reply) (Some [fork; pin]) no_fault None in
  let r := processAnalysis sv "job-1" (world pending_job) in
  map puzzle_id (puzzles (snd r)) = ["puzzle-0"; "puzzle-1"]
  /\ map pz_analysis_id (puzzles (snd r)) = [Some "job-1"; Some "job-1"]
  /\ (res_puzzles <$> (analyses (snd r) !! "job-1" ≫= result))
     = Some ["puzzle-0"; "puzzle-1"].
Proof. vm_compute. repeat split. Qed.

(** The invocation when the store rejects the claim itself. *)
Lemma claim_rejected (sv : Services) (id : string) (w : World) (job : Analysis)
    (e : Thrown) :
  analyses w !! id = Some job -> status job = PENDING ->
  save_fault sv (saves w) = Some e ->
  let failed := failed_doc (claimed job) e in
  let w1 := rejected id (claimed job) w in
  processAnalysis sv id w
  = match save_fault sv (S (saves w)) with
    | None => (Resolved, accepted id failed w1)
    | Some e' => (Rejected e', rejected id failed w1)
    end.
Proof.
  intros Hj Hs Hf failed w1. unfold processAnalysis.
  rewrite run_S, (step_Start_pending sv id w job Hj Hs). simpl fst; simpl snd.
  rewrite run_S. simpl step. rewrite (save_rejects sv id _ w e Hf).
  simpl fst; simpl snd. unfold fail_with. rewrite commit_failed. reflexivity.
Qed.

(** The invocation once the commit of COMPLETED has been rejected. *)
Lemma completed_commit_rejected (sv : Services) (id : string) (w : World)
    (job : Analysis) (b : AnalysisBody) (cands : list ChessPuzzle) (e1 : Thrown) :
  analyses w !! id = Some job -> status job = PENDING ->
  save_fault sv (saves w) = None ->
  analyze sv job = inr (b, cands) ->
  save_fault sv (S (saves w)) = Some e1 ->
  exists puzzleIds w3,
    let done := completed_doc sv (claimed job) b puzzleIds in
    saves w3 = S (saves w)
    /\ analyses w3 = <[id := claimed job]> (analyses w)
    /\ writes (trace w3) = writes (trace w) ++ [(claimed job, true)]
    /\ processAnalysis sv id w
       = match save_fault sv (S (S (saves w))) with
         | None => (Resolved, accepted id (failed_doc done e1) (rejected id done w3))
         | Some e2 => (Rejected e2, rejected id (failed_doc done e1) (rejected id done w3))
         end.
Proof.
  intros Hj Hs Hf Ha Hf1.
  destruct (called_same sv (claimed job) (accepted id (claimed job) w))
    as (Han & _ & Hsv & Hw & _).
  rewrite (analysis_succeeded sv id w job b cands Hj Hs Hf Ha).
  destruct (Nat.ltb 0 (length cands) && negb (String.eqb (owner job) "guest")).
  - cbv zeta.
    destruct (savePuzzles sv cands (owner job) id (puzzles w)) as [r stored].
    simpl fst; simpl snd. unfold complete_with. rewrite commit_completed.
    change (saves (linked _ _ _ _ _))
      with (saves (called sv (claimed job) (accepted id (claimed job) w))).
    rewrite Hsv, saves_accepted, Hf1.
    eexists _,
            (linked cands (owner job) id stored
               (called sv (claimed job) (accepted id (claimed job) w))).
    split; [exact Hsv|]. split; [simpl; exact Han|].
    split; [|reflexivity].
    now rewrite writes_linked, Hw, writes_accepted.
  - unfold complete_with.
    rewrite commit_completed, Hsv, saves_accepted, Hf1.
    exists [], (called sv (claimed job) (accepted id (claimed job) w)).
    split; [exact Hsv|]. split; [exact Han|].
    split; [|reflexivity].
    now rewrite Hw, writes_accepted.
Qed.

(** C7, as the code has it.  Take a stored PENDING job.  A rejected commit
    of FAILED propagates: the invocation fails with the store's error, and
    the job stays as the last accepted write left it, which is PENDING when
    the store had rejected the claim as well, and PROCESSING when it had
    accepted the claim and the reasoning client has failed.  A rejected
    commit of COMPLETED does not propagate by itself: it is caught by the
    same handler as every other failure, which sets the status FAILED and,
    as the error of the job, the message of the store's error ("Unknown
    error" when what the store has thrown is not an Error), and commits
    that; the invocation returns normally, leaving the job FAILED, if this
    second commit is accepted, and fails with the store's second error,
    leaving the job in PROCESSING, if it is rejected too. *)
Theorem terminal_commit_rejection
    (sv : Services) (id : string) (w : World) (job : Analysis) :
  analyses w !! id = Some job ->
  status job = PENDING ->
  let r := processAnalysis sv id w in
  let message (e : Thrown) :=
    match e with
    | JsError _ text => text
    | NotAnError => "Unknown error"
    end in
  let claim :=
    with_outcome job PROCESSING (result job) (error job) (completed_at job) in
  let failed (e : Thrown) :=
    with_outcome job FAILED (result job) (Some (message e)) (completed_at job) in
  (forall e0 e1,
      save_fault sv (saves w) = Some e0 ->
      save_fault sv (S (saves w)) = Some e1 ->
      fst r = Rejected e1
      /\ analyses (snd r) !! id = Some job
      /\ writes (trace (snd r))
         = writes (trace w) ++ [(claim, false); (failed e0, false)])
  /\ (forall e e1,
        save_fault sv (saves w) = None ->
        analyze sv job = inl e ->
        save_fault sv (S (saves w)) = Some e1 ->
        fst r = Rejected e1
        /\ analyses (snd r) !! id = Some claim
        /\ writes (trace (snd r))
           = writes (trace w) ++ [(claim, true); (failed e, false)])
  /\ (forall b cands e1,
        save_fault sv (saves w) = None ->
        analyze sv job = inr (b, cands) ->
        save_fault sv (S (saves w)) = Some e1 ->
        exists puzzleIds,
          let done :=
            with_outcome job COMPLETED
              (Some {| res_body := b; res_puzzles := puzzleIds |})
              (error job) (Some (now sv)) in
          let failed_done :=
            with_outcome job FAILED (result done) (Some (message e1))
              (completed_at done) in
          writes (trace (snd r))
          = writes (trace w)
            ++ [(claim, true); (done, false);
                (failed_done, is_accepted (save_fault sv (S (S (saves w)))))]
          /\ match save_fault sv (S (S (saves w))) with
             | None =>
                 fst r = Resolved /\ analyses (snd r) !! id = Some failed_done
             | Some e2 =>
                 fst r = Rejected e2 /\ analyses (snd r) !! id = Some claim
             end).
Proof.
  intros Hj Hs r message claim failed. split; [|split].
  - intros e0 e1 Hf Hf1. unfold r.
    rewrite (claim_rejected sv id w job e0 Hj Hs Hf), Hf1.
    simpl fst; simpl snd.
    split; [reflexivity|]. split; [exact Hj|].
    now rewrite !writes_rejected, <- List.app_assoc.
  - intros e e1 Hf Ha Hf1.
    destruct (called_same sv (claimed job) (accepted id (claimed job) w))
      as (Han & _ & Hsv & Hw & _).
    assert (E : r = (Rejected e1,
                     rejected id (failed_doc (claimed job) e)
                       (called sv (claimed job) (accepted id (claimed job) w)))).
    { unfold r. rewrite (analysis_failed sv id w job e Hj Hs Hf Ha).
      now rewrite Hf1. }
    rewrite E. simpl fst; simpl snd.
    split; [reflexivity|]. split.
    + simpl. rewrite Han. simpl. apply lookup_insert_eq.
    + now rewrite writes_rejected, Hw, writes_accepted, <- List.app_assoc.
  - intros b cands e1 Hf Ha Hf1.
    destruct (completed_commit_rejected sv id w job b cands e1 Hj Hs Hf Ha Hf1)
      as (puzzleIds & w3 & _ & Han & Hw3 & E).
    exists puzzleIds. cbv zeta. unfold r. rewrite E.
    destruct (save_fault sv (S (S (saves w)))); simpl fst; simpl snd;
      simpl is_accepted.
    + rewrite !writes_rejected, Hw3, <- !List.app_assoc.
      split; [reflexivity|]. split; [reflexivity|].
      simpl. rewrite Han. apply lookup_insert_eq.
    + rewrite writes_accepted, writes_rejected, Hw3, <- !List.app_assoc.
      split; [reflexivity|]. split; [reflexivity|].
      simpl. apply lookup_insert_eq.
Qed.

Lemma terminal_commit_rejection_witness :
  let sv := services (inr "Service unavailable") None (fault_at 1) None in
  let r := processAnalysis sv "job-1" (world pending_job) in
  fst r = Rejected network_down
  /\ stored_status (snd r) "job-1" = Some PROCESSING
  /\ map (fun x => (status (fst x), error (fst x), snd x))
       (writes (trace (snd r)))
     = [(PROCESSING, None, true);
        (FAILED, Some "Failed to parse JSON from Gemini response", false)].
Proof.
  intros sv r.
  destruct (terminal_commit_rejection sv "job-1" (world pending_job) pending_job
              eq_refl eq_refl) as (_ & H & _).
  destruct (H (JsError "Error" "Failed to parse JSON from Gemini response")
              network_down eq_refl eq_refl eq_refl) as (E & Hl & Hw).
  unfold r, stored_status. rewrite E, Hl, Hw. repeat split.
Defined.

(** C7, as stated, fails when the store rejects the commit of COMPLETED and
    accepts the write that follows: the invocation returns normally, the
    error having been turned into a FAILED job. *)
Lemma rejected_completion_is_absorbed :
  let sv := services (inr reply) (Some [fork; pin]) (fault_at 1) None in
  let r := processAnalysis sv "job-1" (world pending_job) in
  fst r = Resolved
  /\ map (fun x => (status (fst x), snd x)) (writes (trace (snd r)))
     = [(PROCESSING, true); (COMPLETED, false); (FAILED, true)]
  /\ stored_status (snd r) "job-1" = Some FAILED.
Proof. vm_compute. repeat split. Qed.

(** *** Result and error against the status *)

(** When the store accepts the first terminal commit of an invocation, the
    persisted job is terminal and its fields agree with its status. *)
Lemma accepted_commit_fields_agree (sv : Services) (id : string) (w : World)
    (job : Analysis) :
  analyses w !! id = Some job -> status job = PENDING ->
  result job = None -> error job = None ->
  save_fault sv (saves w) = None ->
  save_fault sv (S (saves w)) = None ->
  exists doc,
    analyses (snd (processAnalysis sv id w)) !! id = Some doc
    /\ (status doc = COMPLETED \/ status doc = FAILED)
    /\ outcome_fields_agree doc = true.
Proof.
  intros Hj Hs Hr He Hf Hf1.
  destruct (called_same sv (claimed job) (accepted id (claimed job) w))
    as (_ & _ & Hsv & _).
  destruct (analyze sv job) as [e|[b cands]] eqn:Ha.
  - rewrite (analysis_failed sv id w job e Hj Hs Hf Ha), Hf1.
    eexists. split; [apply lookup_insert_eq|]. split; [now right|].
    unfold outcome_fields_agree. simpl. now rewrite Hr.
  - rewrite (analysis_succeeded sv id w job b cands Hj Hs Hf Ha).
    destruct (_ && _); cbv zeta; unfold complete_with.
    + destruct (savePuzzles sv cands (owner job) id (puzzles w)) as [r stored].
      rewrite commit_completed.
      change (saves (linked _ _ _ _ _))
        with (saves (called sv (claimed job) (accepted id (claimed job) w))).
      rewrite Hsv, saves_accepted, Hf1.
      eexists. split; [apply lookup_insert_eq|]. split; [now left|].
      unfold outcome_fields_agree. simpl. now rewrite He.
    + rewrite commit_completed, Hsv, saves_accepted, Hf1.
      eexists. split; [apply lookup_insert_eq|]. split; [now left|].
      unfold outcome_fields_agree. simpl. now rewrite He.
Qed.

(** C1 at its failing input.  The store rejects the commit of COMPLETED and
    accepts the commit of FAILED that the handler makes next; the document
    of that commit still holds the result and the completion date assigned
    before the first commit, so the persisted FAILED job has an error and a
    result at once. *)
Theorem failed_job_keeps_result_after_rejected_completion :
  let sv := services (inr reply) (Some [fork; pin]) (fault_at 1) None in
  let r := processAnalysis sv "job-1" (world pending_job) in
  fst r = Resolved
  /\ stored_status (snd r) "job-1" = Some FAILED
  /\ (error <$> analyses (snd r) !! "job-1") = Some (Some "connection timed out")
  /\ (result <$> analyses (snd r) !! "job-1")
     = Some (Some {| res_body := body; res_puzzles := ["puzzle-0"; "puzzle-1"] |})
  /\ (completed_at <$> analyses (snd r) !! "job-1") = Some (Some 1714564800000%Z)
  /\ (outcome_fields_agree <$> analyses (snd r) !! "job-1") = Some false.
Proof. vm_compute. repeat split. Qed.

(** *** After the claim *)

Lemma generate_calls_snoc (tr : list Event) (e : Event) :
  generate_calls (tr ++ [e])
  = generate_calls tr + (match e with EvGenerate _ => 1 | _ => 0 end).
Proof.
  unfold generate_calls. rewrite List.filter_app, List.length_app.
  now destruct e.
Qed.

Lemma step_past_analysis (sv : Services) (id : string) (pc : Pc) (w : World) :
  past_analysis pc -> claimed_in id w ->
  past_analysis (fst (step sv id pc w))
  /\ claimed_in id (snd (step sv id pc w))
  /\ generate_calls (trace (snd (step sv id pc w))) = generate_calls (trace w).
Proof.
  intros Hpc Hw.
  assert (Hsave : forall doc (ok : bool), status doc <> PENDING ->
            claimed_in id (if ok then accepted id doc w else rejected id doc w)
            /\ generate_calls
                 (trace (if ok then accepted id doc w else rejected id doc w))
               = generate_calls (trace w)).
  { intros doc [|] Hd; simpl; rewrite generate_calls_snoc, Nat.add_0_r.
    - split; [|reflexivity]. exists doc. split; [apply lookup_insert_eq | exact Hd].
    - split; [exact Hw | reflexivity]. }
  destruct pc; simpl in Hpc; try contradiction; simpl.
  - destruct (savePuzzles sv puzzleObjects userId id (puzzles w)) as [[e|saved] stored];
      simpl; rewrite generate_calls_snoc, Nat.add_0_r;
      (split; [discriminate | split; [exact Hw | reflexivity]]).
  - unfold save. destruct (save_fault sv (saves w)) as [e|]; simpl fst; simpl snd.
    + split; [discriminate|]. apply (Hsave analysis false Hpc).
    + split; [exact I|]. apply (Hsave analysis true Hpc).
  - unfold save. destruct (save_fault sv (saves w)) as [e|]; simpl fst; simpl snd.
    + split; [exact I|]. apply (Hsave analysis false Hpc).
    + split; [exact I|]. apply (Hsave analysis true Hpc).
  - auto.
  - auto.
Qed.

Lemma run_past_analysis (sv : Services) (id : string) (n : nat) (pc : Pc) (w : World) :
  past_analysis pc -> claimed_in id w ->
  claimed_in id (snd (run sv id n pc w))
  /\ generate_calls (trace (snd (run sv id n pc w))) = generate_calls (trace w).
Proof.
  revert pc w. induction n as [|n IH]; intros pc w Hpc Hw; [now split|].
  rewrite run_S.
  destruct (step_past_analysis sv id pc w Hpc Hw) as (Hpc' & Hw' & Hg).
  destruct (IH _ _ Hpc' Hw') as [Hc Hg']. split; [exact Hc | congruence].
Qed.

Lemma interleave_first (sv : Services) (id : string) (n : nat)
    (schedule : list bool) (pc1 pc2 : Pc) (w : World) :
  interleave sv id (repeat true n ++ schedule) pc1 pc2 w
  = interleave sv id schedule (fst (run sv id n pc1 w)) pc2
      (snd (run sv id n pc1 w)).
Proof.
  revert pc1 w. induction n as [|n IH]; intros pc1 w; [reflexivity|].
  rewrite run_S. simpl. destruct (step sv id pc1 w) as [pc1' w']. apply IH.
Qed.

Lemma interleave_second (sv : Services) (id : string) (n : nat)
    (schedule : list bool) (pc1 pc2 : Pc) (w : World) :
  interleave sv id (repeat false n ++ schedule) pc1 pc2 w
  = interleave sv id schedule pc1 (fst (run sv id n pc2 w))
      (snd (run sv id n pc2 w)).
Proof.
  revert pc2 w. induction n as [|n IH]; intros pc2 w; [reflexivity|].
  rewrite run_S. simpl. destruct (step sv id pc2 w) as [pc2' w']. apply IH.
Qed.




End WorkerFacts.


(* ===================================================================== *)
(** * Further properties of the job processor *)
(* ===================================================================== *)

Module WorkerOutlineFacts.

Import Gemini Worker WorkerOutline Samples.

Lemma finish_failed_run (sv : Services) (id : string) (n : nat)
    (doc : Analysis) (w : World) :
  run sv id (S n) (SavingFailed doc) w = finish_failed sv id doc w.
Proof. apply WorkerFacts.commit_failed. Qed.

Lemma finish_completed_run (sv : Services) (id : string) (n : nat)
    (doc : Analysis) (w : World) :
  run sv id (S (S n)) (SavingCompleted doc) w = finish_completed sv id doc w.
Proof.
  rewrite WorkerFacts.commit_completed. unfold finish_completed, finish_failed.
  reflexivity.
Qed.

(** The step machine computes the direct-style reading of the function. *)
Lemma processAnalysis_outline (sv : Services) (id : string) (w : World) :
  processAnalysis sv id w = outline sv id w.
Proof.
  unfold processAnalysis, outline. rewrite WorkerFacts.run_S. simpl step.
  destruct (analyses w !! id) as [job|]; [|apply WorkerFacts.run_Resolved].
  destruct (negb (status_eqb (status job) PENDING));
    [apply WorkerFacts.run_Resolved|].
  simpl fst; simpl snd. rewrite WorkerFacts.run_S. simpl step. unfold save.
  destruct (save_fault sv (saves w)) as [e0|]; simpl fst; simpl snd.
  { unfold fail_with. apply finish_failed_run. }
  rewrite WorkerFacts.run_S. simpl step.
  destruct (analyze sv (set_status job PROCESSING)) as [e|[b cands]];
    simpl fst; simpl snd.
  { unfold fail_with. apply finish_failed_run. }
  unfold link_puzzles.
  destruct (Nat.ltb 0 (length cands)
            && negb (String.eqb (owner (set_status job PROCESSING)) "guest"));
    simpl fst; simpl snd.
  - rewrite WorkerFacts.run_S. simpl step.
    destruct (savePuzzles sv cands (owner (set_status job PROCESSING)) id
                (puzzles (called sv (set_status job PROCESSING)
                            (accepted id (set_status job PROCESSING) w))))
      as [[e|saved] stored]; simpl fst; simpl snd;
      unfold complete_with; apply finish_completed_run.
  - unfold complete_with. apply finish_completed_run.
Qed.

(** *** What the pieces leave in the trace and in the store *)

Lemma finish_failed_writes (sv : Services) (id : string) (doc : Analysis) (w : World) :
  writes (trace (snd (finish_failed sv id doc w)))
  = writes (trace w) ++ [(doc, is_accepted (save_fault sv (saves w)))].
Proof.
  unfold finish_failed. destruct (save_fault sv (saves w)); simpl snd.
  - apply WorkerFacts.writes_rejected.
  - apply WorkerFacts.writes_accepted.
Qed.

Lemma finish_completed_writes (sv : Services) (id : string) (doc : Analysis)
    (w : World) :
  writes (trace (snd (finish_completed sv id doc w)))
  = writes (trace w)
    ++ match save_fault sv (saves w) with
       | None => [(doc, true)]
       | Some e => [(doc, false);
                    (failed_doc doc e, is_accepted (save_fault sv (S (saves w))))]
       end.
Proof.
  unfold finish_completed. destruct (save_fault sv (saves w)) as [e|]; simpl snd.
  - rewrite finish_failed_writes, WorkerFacts.writes_rejected, <- List.app_assoc.
    reflexivity.
  - apply WorkerFacts.writes_accepted.
Qed.

Lemma link_puzzles_same (sv : Services) (id : string) (job : Analysis)
    (cands : list ChessPuzzle) (w : World) :
  analyses (snd (link_puzzles sv id job cands w)) = analyses w
  /\ saves (snd (link_puzzles sv id job cands w)) = saves w
  /\ writes (trace (snd (link_puzzles sv id job cands w))) = writes (trace w)
  /\ generate_calls (trace (snd (link_puzzles sv id job cands w)))
     = generate_calls (trace w).
Proof.
  unfold link_puzzles. destruct (_ && _); simpl snd; [|repeat split].
  split; [reflexivity|]. split; [reflexivity|].
  split; [apply WorkerFacts.writes_linked|].
  simpl. rewrite WorkerFacts.generate_calls_snoc. apply Nat.add_0_r.
Qed.

Lemma finish_failed_store (sv : Services) (id : string) (doc : Analysis) (w : World) :
  analyses (snd (finish_failed sv id doc w))
  = match save_fault sv (saves w) with
    | None => <[id := doc]> (analyses w)
    | Some _ => analyses w
    end.
Proof. unfold finish_failed. now destruct (save_fault sv (saves w)). Qed.

Lemma finish_completed_store (sv : Services) (id : string) (doc : Analysis)
    (w : World) :
  analyses (snd (finish_completed sv id doc w))
  = match save_fault sv (saves w) with
    | None => <[id := doc]> (analyses w)
    | Some e =>
        match save_fault sv (S (saves w)) with
        | None => <[id := failed_doc doc e]> (analyses w)
        | Some _ => analyses w
        end
    end.
Proof.
  unfold finish_completed. destruct (save_fault sv (saves w)) as [e|]; simpl snd;
    [|reflexivity].
  rewrite finish_failed_store. reflexivity.
Qed.

Lemma called_store (sv : Services) (doc : Analysis) (w : World) :
  analyses (called sv doc w) = analyses w /\ saves (called sv doc w) = saves w
  /\ writes (trace (called sv doc w)) = writes (trace w).
Proof.
  destruct (WorkerFacts.called_same sv doc w) as (H1 & _ & H2 & H3 & _).
  repeat split; assumption.
Qed.

Lemma pending_eqb (job : Analysis) :
  negb (status_eqb (status job) PENDING) = false <-> status job = PENDING.
Proof. destruct (status job); simpl; split; congruence. Qed.

(** *** The writes of an invocation *)

(** X1.  Whatever the store, the services and the job, the writes of one
    invocation follow the state machine: none at all; or the claim
    (PROCESSING) and a commit of FAILED; or the claim and an accepted commit
    of COMPLETED; or the claim, a rejected commit of COMPLETED and a commit
    of FAILED.  Only an accepted claim is followed by a commit of COMPLETED,
    and no write carries the status PENDING. *)
Theorem writes_follow_the_state_machine
    (sv : Services) (id : string) (w : World) :
  exists ws,
    writes (trace (snd (processAnalysis sv id w))) = writes (trace w) ++ ws
    /\ (write_statuses ws = []
        \/ exists ok : bool,
             write_statuses ws = [(PROCESSING, false); (FAILED, ok)]
             \/ write_statuses ws = [(PROCESSING, true); (FAILED, ok)]
             \/ write_statuses ws = [(PROCESSING, true); (COMPLETED, true)]
             \/ write_statuses ws
                = [(PROCESSING, true); (COMPLETED, false); (FAILED, ok)]).
Proof.
  rewrite processAnalysis_outline. unfold outline.
  destruct (analyses w !! id) as [job|];
    [|exists []; split; [now rewrite List.app_nil_r | now left]].
  destruct (negb (status_eqb (status job) PENDING));
    [exists []; split; [now rewrite List.app_nil_r | now left]|].
  cbv zeta. set (doc := set_status job PROCESSING).
  destruct (save_fault sv (saves w)) as [e0|] eqn:Hf.
  - eexists. split.
    + rewrite finish_failed_writes, WorkerFacts.writes_rejected,
        <- List.app_assoc. reflexivity.
    + right. eexists. left. reflexivity.
  - destruct (called_store sv doc (accepted id doc w)) as (_ & Hsv & Hw).
    destruct (analyze sv doc) as [e|[b cands]].
    + eexists. split.
      * rewrite finish_failed_writes, Hw, WorkerFacts.writes_accepted,
          <- List.app_assoc. reflexivity.
      * right. eexists. right. left. reflexivity.
    + destruct (link_puzzles_same sv id doc cands
                  (called sv doc (accepted id doc w))) as (_ & Hs & Hlw & _).
      rewrite finish_completed_writes, Hlw, Hw, WorkerFacts.writes_accepted,
        <- List.app_assoc, Hs, Hsv, WorkerFacts.saves_accepted.
      eexists. split; [reflexivity|].
      right. destruct (save_fault sv (S (saves w))) as [e1|].
      * eexists. right. right. right. reflexivity.
      * exists true. right. right. left. reflexivity.
Qed.

(** *** What an invocation leaves alone *)

Lemma same_game_refl (a : Analysis) : same_game a a.
Proof. repeat split. Qed.

(** The document an invocation leaves under its id is the one it found or
    one of those it wrote, all of which are the job it found with other
    values of [status], [result], [error] and [completed_at]. *)
Lemma outline_store (sv : Services) (id : string) (w : World) :
  analyses (snd (outline sv id w)) = analyses w
  \/ exists job doc,
       analyses w !! id = Some job /\ same_game doc job
       /\ status doc <> PENDING
       /\ analyses (snd (outline sv id w)) = <[id := doc]> (analyses w).
Proof.
  unfold outline. destruct (analyses w !! id) as [job|] eqn:Hj; [|now left].
  destruct (negb (status_eqb (status job) PENDING)); [now left|].
  cbv zeta. set (doc := set_status job PROCESSING).
  assert (Hins : forall d d' : Analysis,
             <[id := d']> (<[id := d]> (analyses w)) = <[id := d']> (analyses w))
    by (intros; apply insert_insert_eq).
  destruct (save_fault sv (saves w)) as [e0|] eqn:Hf.
  - rewrite finish_failed_store. simpl.
    destruct (save_fault sv (S (saves w))); [now left|].
    right. exists job, (failed_doc doc e0).
    split; [reflexivity|]. split; [repeat split|]. split; [discriminate|].
    reflexivity.
  - destruct (called_store sv doc (accepted id doc w)) as (Han & Hsv & _).
    destruct (analyze sv doc) as [e|[b cands]].
    + rewrite finish_failed_store, Han, Hsv. simpl.
      right. destruct (save_fault sv (S (saves w))).
      * exists job, doc. split; [reflexivity|]. split; [repeat split|].
        split; [discriminate | reflexivity].
      * exists job, (failed_doc doc e). split; [reflexivity|].
        split; [repeat split|]. split; [discriminate | apply Hins].
    + destruct (link_puzzles_same sv id doc cands
                  (called sv doc (accepted id doc w))) as (Hla & Hls & _).
      rewrite finish_completed_store, Hla, Hls, Han, Hsv. simpl.
      right. destruct (save_fault sv (S (saves w))) as [e1|].
      * destruct (save_fault sv (S (S (saves w)))).
        -- exists job, doc. split; [reflexivity|]. split; [repeat split|].
           split; [discriminate | reflexivity].
        -- eexists job, _. split; [reflexivity|].
           split; [|split; [|apply Hins]]; [repeat split | discriminate].
      * eexists job, _. split; [reflexivity|].
        split; [|split; [|apply Hins]]; [repeat split | discriminate].
Qed.

(** X2.  An invocation for one id never changes the record of another
    job. *)
Theorem other_jobs_are_untouched
    (sv : Services) (id other : string) (w : World) :
  other <> id ->
  analyses (snd (processAnalysis sv id w)) !! other = analyses w !! other.
Proof.
  intros Hne. rewrite processAnalysis_outline.
  destruct (outline_store sv id w) as [->|(job & doc & _ & _ & _ & ->)];
    [reflexivity|].
  apply lookup_insert_ne. congruence.
Qed.

Lemma other_jobs_are_untouched_witness :
  let sv := services (inr reply) (Some [fork; pin]) no_fault None in
  let w := {| analyses := <["job-2" := game "job-2" PENDING None "*" None]>
                            {[ "job-1" := pending_job ]};
              puzzles := []; saves := 0; trace := [] |} in
  analyses (snd (processAnalysis sv "job-1" w)) !! "job-2"
  = Some (game "job-2" PENDING None "*" None).
Proof.
  intros sv w.
  assert (Hne : "job-2" <> "job-1") by discriminate.
  rewrite (other_jobs_are_untouched sv "job-1" "job-2" w Hne). reflexivity.
Defined.

(** X3.  Whatever happens during an invocation, the job stays stored under
    its id, and the fields that identify the game and its owner (the ids,
    the PGN, the GCS url, the name and color of the player, the metadata)
    are those it had: only [status], [result], [error] and [completed_at]
    are ever written. *)
Theorem game_fields_are_never_rewritten
    (sv : Services) (id : string) (w : World) (job : Analysis) :
  analyses w !! id = Some job ->
  exists doc,
    analyses (snd (processAnalysis sv id w)) !! id = Some doc
    /\ same_game doc job.
Proof.
  intros Hj. rewrite processAnalysis_outline.
  destruct (outline_store sv id w) as [->|(job' & doc & Hj' & Hsame & _ & ->)].
  - exists job. split; [exact Hj | apply same_game_refl].
  - exists doc. split; [apply lookup_insert_eq|]. congruence.
Qed.

Lemma game_fields_are_never_rewritten_witness :
  let sv := services (inr reply) (Some [fork; pin]) (fault_at 1) None in
  exists doc,
    analyses (snd (processAnalysis sv "job-1" (world pending_job))) !! "job-1"
    = Some doc
    /\ same_game doc pending_job.
Proof.
  intros sv.
  apply (game_fields_are_never_rewritten sv "job-1" (world pending_job)
           pending_job).
  reflexivity.
Defined.

(** X4.  A stored status never goes back to PENDING: a job that is stored
    with another status before an invocation (for any id) has a status
    other than PENDING after it, and a job the invocation has written is not
    PENDING either. *)
Theorem claimed_jobs_stay_claimed
    (sv : Services) (id other : string) (w : World) (job : Analysis) :
  analyses w !! other = Some job ->
  status job <> PENDING ->
  exists doc,
    analyses (snd (processAnalysis sv id w)) !! other = Some doc
    /\ status doc <> PENDING.
Proof.
  intros Hj Hs. rewrite processAnalysis_outline.
  destruct (outline_store sv id w) as [->|(job' & doc & _ & _ & Hd & ->)].
  - exists job. split; assumption.
  - destruct (decide (id = other)) as [->|Hne].
    + exists doc. split; [apply lookup_insert_eq | exact Hd].
    + exists job. split; [|exact Hs]. rewrite lookup_insert_ne; assumption.
Qed.

Lemma claimed_jobs_stay_claimed_witness :
  let sv := services (inr reply) None no_fault None in
  let job := game "job-1" FAILED (Some white) "1-0" a_user in
  exists doc,
    analyses (snd (processAnalysis sv "job-1" (world job))) !! "job-1" = Some doc
    /\ status doc <> PENDING.
Proof.
  intros sv job.
  assert (Hs : status job <> PENDING) by discriminate.
  apply (claimed_jobs_stay_claimed sv "job-1" "job-1" (world job) job eq_refl Hs).
Defined.

(** *** External effects *)

Lemma finish_failed_calls (sv : Services) (id : string) (doc : Analysis) (w : World) :
  generate_calls (trace (snd (finish_failed sv id doc w))) = generate_calls (trace w)
  /\ puzzle_saves (trace (snd (finish_failed sv id doc w))) = puzzle_saves (trace w)
  /\ puzzles (snd (finish_failed sv id doc w)) = puzzles w.
Proof.
  unfold finish_failed. destruct (save_fault sv (saves w)); simpl snd;
    rewrite ?WorkerFacts.puzzle_saves_accepted, ?WorkerFacts.puzzle_saves_rejected;
    simpl; rewrite WorkerFacts.generate_calls_snoc, Nat.add_0_r; repeat split.
Qed.

Lemma finish_completed_calls (sv : Services) (id : string) (doc : Analysis)
    (w : World) :
  generate_calls (trace (snd (finish_completed sv id doc w)))
  = generate_calls (trace w)
  /\ puzzle_saves (trace (snd (finish_completed sv id doc w)))
     = puzzle_saves (trace w)
  /\ puzzles (snd (finish_completed sv id doc w)) = puzzles w.
Proof.
  unfold finish_completed. destruct (save_fault sv (saves w)) as [e|]; simpl snd.
  - destruct (finish_failed_calls sv id (failed_doc doc e) (rejected id doc w))
      as (-> & -> & ->).
    rewrite WorkerFacts.puzzle_saves_rejected. simpl.
    rewrite WorkerFacts.generate_calls_snoc, Nat.add_0_r. repeat split.
  - rewrite WorkerFacts.puzzle_saves_accepted. simpl.
    rewrite WorkerFacts.generate_calls_snoc, Nat.add_0_r. repeat split.
Qed.

Lemma called_calls (sv : Services) (doc : Analysis) (w : World) :
  generate_calls (trace (called sv doc w))
  = generate_calls (trace w)
    + (if has_api_key (GOOGLE_GENERATIVE_AI_API_KEY sv) then 1 else 0).
Proof.
  unfold called. destruct (has_api_key _); simpl; [|lia].
  now rewrite WorkerFacts.generate_calls_snoc.
Qed.

Lemma job_to_process_spec (w : World) (id : string) :
  match analyses w !! id with
  | Some job =>
      if negb (status_eqb (status job) PENDING)
      then job_to_process w id = None
      else job_to_process w id = Some job
  | None => job_to_process w id = None
  end.
Proof.
  unfold job_to_process. destruct (analyses w !! id) as [job|]; [|reflexivity].
  now destruct (status_eqb (status job) PENDING).
Qed.

Lemma invocation_effects_counted
    (sv : Services) (id : string) (w : World) :
  generate_calls (trace (snd (processAnalysis sv id w)))
  = generate_calls (trace w) + service_calls sv id w
  /\ puzzle_saves (trace (snd (processAnalysis sv id w)))
     = puzzle_saves (trace w) + linker_calls sv id w
  /\ (linker_calls sv id w = 0 ->
      puzzles (snd (processAnalysis sv id w)) = puzzles w).
Proof.
  rewrite processAnalysis_outline.
  unfold outline, service_calls, linker_calls.
  pose proof (job_to_process_spec w id) as Hjob.
  destruct (analyses w !! id) as [job|];
    [|rewrite Hjob; simpl; rewrite !Nat.add_0_r; repeat split].
  destruct (negb (status_eqb (status job) PENDING));
    rewrite Hjob; [simpl; rewrite !Nat.add_0_r; repeat split|].
  cbv zeta. set (doc := set_status job PROCESSING).
  destruct (save_fault sv (saves w)) as [e0|]; simpl is_accepted; simpl andb.
  - destruct (finish_failed_calls sv id (failed_doc doc e0) (rejected id doc w))
      as (-> & -> & ->).
    rewrite WorkerFacts.puzzle_saves_rejected. simpl.
    rewrite WorkerFacts.generate_calls_snoc. repeat split; lia.
  - pose proof (called_calls sv doc (accepted id doc w)) as Hc.
    destruct (WorkerFacts.called_same sv doc (accepted id doc w))
      as (_ & Hpz & _ & _ & Hps).
    rewrite WorkerFacts.puzzle_saves_accepted in Hps.
    assert (Hg0 : generate_calls (trace (accepted id doc w))
                  = generate_calls (trace w)).
    { simpl. rewrite WorkerFacts.generate_calls_snoc. lia. }
    rewrite Hg0 in Hc.
    change (analyze sv doc) with (analyze sv job).
    destruct (analyze sv job) as [e|[b cands]].
    + destruct (finish_failed_calls sv id (failed_doc doc e)
                  (called sv doc (accepted id doc w))) as (-> & -> & ->).
      rewrite Hc, Hps, Hpz. repeat split; lia.
    + destruct (finish_completed_calls sv id
                  (completed_doc sv doc b
                     (fst (link_puzzles sv id doc cands
                             (called sv doc (accepted id doc w)))))
                  (snd (link_puzzles sv id doc cands
                          (called sv doc (accepted id doc w)))))
        as (-> & -> & ->).
      destruct (link_puzzles_same sv id doc cands
                  (called sv doc (accepted id doc w))) as (_ & _ & _ & ->).
      unfold link_puzzles. change (owner doc) with (owner job).
      destruct (Nat.ltb 0 (length cands) && negb (String.eqb (owner job) "guest"));
        simpl snd.
      * rewrite WorkerFacts.puzzle_saves_linked, Hps, Hc.
        repeat split; lia.
      * rewrite Hps, Hc, Hpz. repeat split; lia.
Qed.

(** X5.  The external effects of an invocation, counted exactly.  It calls
    the external service once when the job is stored and PENDING, the store
    accepts the claim and the API key is configured, and never otherwise.
    It calls the puzzle persistence once when, in addition, the analysis
    succeeds with at least one candidate for an owner other than the guest,
    and never otherwise; when it does not call it, the Puzzle collection is
    left as it was. *)
Theorem external_effects_are_counted
    (sv : Services) (id : string) (w : World) :
  let r := processAnalysis sv id w in
  generate_calls (trace (snd r))
  = generate_calls (trace w) + service_calls sv id w
  /\ puzzle_saves (trace (snd r))
     = puzzle_saves (trace w) + linker_calls sv id w
  /\ (linker_calls sv id w = 0 -> puzzles (snd r) = puzzles w).
Proof. apply invocation_effects_counted. Qed.

(** X6.  For a stored PENDING job, the promise and the store agree: when
    the invocation returns normally the persisted job is COMPLETED or
    FAILED, and when it fails the persisted job is still PENDING or
    PROCESSING. *)
Theorem settles_with_the_store
    (sv : Services) (id : string) (w : World) (job : Analysis) :
  analyses w !! id = Some job ->
  status job = PENDING ->
  let r := processAnalysis sv id w in
  match fst r with
  | Resolved => stored_status (snd r) id = Some COMPLETED
                \/ stored_status (snd r) id = Some FAILED
  | Rejected _ => stored_status (snd r) id = Some PENDING
                  \/ stored_status (snd r) id = Some PROCESSING
  | _ => False
  end.
Proof.
  intros Hj Hs. cbv zeta. rewrite processAnalysis_outline. unfold outline.
  rewrite Hj, (proj2 (pending_eqb job) Hs). cbv zeta.
  set (doc := set_status job PROCESSING). unfold stored_status.
  destruct (save_fault sv (saves w)) as [e0|] eqn:Hf.
  - unfold finish_failed. simpl saves.
    destruct (save_fault sv (S (saves w))); simpl.
    + left. rewrite Hj. simpl. now rewrite Hs.
    + right. now rewrite lookup_insert_eq.
  - destruct (called_store sv doc (accepted id doc w)) as (Han & Hsv & _).
    destruct (analyze sv doc) as [e|[b cands]].
    + unfold finish_failed. rewrite Hsv. simpl saves.
      destruct (save_fault sv (S (saves w))); simpl.
      * right. rewrite Han. simpl. now rewrite lookup_insert_eq.
      * right. now rewrite lookup_insert_eq.
    + destruct (link_puzzles_same sv id doc cands
                  (called sv doc (accepted id doc w))) as (Hla & Hls & _).
      unfold finish_completed, finish_failed.
      repeat (simpl saves; rewrite ?Hls, ?Hsv).
      destruct (save_fault sv (S (saves w))) as [e1|];
        [destruct (save_fault sv (S (S (saves w))))|]; simpl.
      * right. rewrite Hla, Han. simpl. now rewrite lookup_insert_eq.
      * right. now rewrite lookup_insert_eq.
      * left. now rewrite lookup_insert_eq.
Qed.

Lemma settles_with_the_store_witness :
  let sv := services (inl network_down) None (fault_at 1) None in
  let r := processAnalysis sv "job-1" (world pending_job) in
  fst r = Rejected network_down
  /\ stored_status (snd r) "job-1" = Some PROCESSING.
Proof.
  intros sv r.
  pose proof (settles_with_the_store sv "job-1" (world pending_job) pending_job
                eq_refl eq_refl) as H.
  assert (E : fst r = Rejected network_down) by reflexivity.
  cbv zeta in H.
  change (processAnalysis sv "job-1" (world pending_job)) with r in H.
  rewrite E in H. split; [exact E|].
  destruct H as [H|H]; [vm_compute in H; discriminate H | exact H].
Defined.

(** *** Edge cases of one invocation *)

(** X7.  Without the API key the reasoning client fails before it reaches
    the external service: the invocation makes no external call, and the
    commit that follows the claim is FAILED with the message that names the
    missing environment variable. *)
Theorem missing_key_fails_without_a_call
    (sv : Services) (id : string) (w : World) (job : Analysis) :
  analyses w !! id = Some job ->
  status job = PENDING ->
  save_fault sv (saves w) = None ->
  has_api_key (GOOGLE_GENERATIVE_AI_API_KEY sv) = false ->
  let r := processAnalysis sv id w in
  let msg := "GOOGLE_GENERATIVE_AI_API_KEY environment variable is not set. " +:+
             "Please set it in your environment variables or Cloud Run configuration." in
  generate_calls (trace (snd r)) = generate_calls (trace w)
  /\ puzzles (snd r) = puzzles w
  /\ writes (trace (snd r))
     = writes (trace w)
       ++ [(claimed job, true);
           (set_error (set_status (claimed job) FAILED) msg,
            is_accepted (save_fault sv (S (saves w))))].
Proof.
  intros Hj Hs Hf Hk r msg.
  assert (Ha : analyze sv job = inl (JsError "Error" msg)).
  { unfold analyze, analyzeGame. now rewrite Hk. }
  destruct (invocation_effects_counted sv id w) as (Hg & _ & Hp).
  unfold r. split; [|split].
  - rewrite Hg. unfold service_calls. rewrite Hk, Bool.andb_false_r.
    destruct (job_to_process w id); lia.
  - apply Hp. unfold linker_calls, job_to_process. rewrite Hj, Hs. simpl.
    rewrite Hf, Ha. reflexivity.
  - rewrite (WorkerFacts.analysis_failed sv id w job _ Hj Hs Hf Ha).
    destruct (called_store sv (claimed job) (accepted id (claimed job) w))
      as (_ & _ & Hw).
    destruct (save_fault sv (S (saves w))); simpl snd; simpl is_accepted;
      rewrite ?WorkerFacts.writes_rejected, ?WorkerFacts.writes_accepted, Hw,
        WorkerFacts.writes_accepted, <- List.app_assoc; reflexivity.
Qed.

Lemma missing_key_fails_without_a_call_witness :
  let sv := {| GOOGLE_GENERATIVE_AI_API_KEY := None;
               generateText := fun _ => inr reply;
               JSON_parse := parse None;
               savePuzzles := savePuzzles_spec None new_id;
               save_fault := no_fault; now := 0 |} in
  let r := processAnalysis sv "job-1" (world pending_job) in
  generate_calls (trace (snd r)) = 0
  /\ stored_status (snd r) "job-1" = Some FAILED.
Proof.
  intros sv r.
  destruct (missing_key_fails_without_a_call sv "job-1" (world pending_job)
              pending_job eq_refl eq_refl eq_refl eq_refl) as (Hg & _ & _).
  split; [exact Hg | reflexivity].
Defined.



(** X9.  When the store rejects the claim itself, the reasoning client is
    never called: the handler sets the status FAILED and, as the error of
    the job, the message of the store's error ("Unknown error" when what
    the store has thrown is not an Error), and commits that, so that the
    persisted job goes from PENDING to FAILED without ever being PROCESSING
    if that commit is accepted, and the invocation fails, leaving the job
    PENDING, if it is rejected too. *)
Theorem rejected_claim_fails_the_job
    (sv : Services) (id : string) (w : World) (job : Analysis) (e : Thrown) :
  analyses w !! id = Some job ->
  status job = PENDING ->
  save_fault sv (saves w) = Some e ->
  let r := processAnalysis sv id w in
  let message :=
    match e with
    | JsError _ text => text
    | NotAnError => "Unknown error"
    end in
  let claim :=
    with_outcome job PROCESSING (result job) (error job) (completed_at job) in
  let failed :=
    with_outcome job FAILED (result job) (Some message) (completed_at job) in
  generate_calls (trace (snd r)) = generate_calls (trace w)
  /\ writes (trace (snd r))
     = writes (trace w)
       ++ [(claim, false);
           (failed, is_accepted (save_fault sv (S (saves w))))]
  /\ match save_fault sv (S (saves w)) with
     | None => fst r = Resolved /\ analyses (snd r) !! id = Some failed
     | Some e' => fst r = Rejected e' /\ analyses (snd r) !! id = Some job
     end.
Proof.
  intros Hj Hs Hf r message claim failed.
  destruct (invocation_effects_counted sv id w) as (Hg & _).
  unfold r. split.
  { rewrite Hg. unfold service_calls. rewrite Hf. simpl.
    destruct (job_to_process w id); lia. }
  rewrite processAnalysis_outline. unfold outline.
  rewrite Hj, (proj2 (pending_eqb job) Hs), Hf. cbv zeta.
  split.
  - rewrite finish_failed_writes, WorkerFacts.writes_rejected, <- List.app_assoc.
    reflexivity.
  - unfold finish_failed. simpl saves.
    destruct (save_fault sv (S (saves w))); simpl.
    + split; [reflexivity | exact Hj].
    + split; [reflexivity | apply lookup_insert_eq].
Qed.

Lemma rejected_claim_fails_the_job_witness :
  let sv := services (inr reply) None (fault_at 0) None in
  let r := processAnalysis sv "job-1" (world pending_job) in
  fst r = Resolved
  /\ generate_calls (trace (snd r)) = 0
  /\ map (fun x => (status (fst x), error (fst x), snd x))
       (writes (trace (snd r)))
     = [(PROCESSING, None, false); (FAILED, Some "connection timed out", true)].
Proof.
  intros sv r.
  destruct (rejected_claim_fails_the_job sv "job-1" (world pending_job)
              pending_job network_down eq_refl eq_refl eq_refl)
    as (Hg & Hw & Hr & _).
  unfold r. rewrite Hw. split; [exact Hr|]. split; [exact Hg | reflexivity].
Defined.

(** *** Two invocations, any schedule *)

Lemma step_calls (sv : Services) (id : string) (pc : Pc) (w : World) :
  generate_calls (trace (snd (step sv id pc w)))
  + calls_ahead (fst (step sv id pc w))
  <= generate_calls (trace w) + calls_ahead pc.
Proof.
  assert (Hsave : forall doc,
            generate_calls (trace (snd (save sv id doc w)))
            = generate_calls (trace w)).
  { intros doc. unfold save. destruct (save_fault sv (saves w)); simpl;
      now rewrite WorkerFacts.generate_calls_snoc, Nat.add_0_r. }
  destruct pc; simpl step.
  - destruct (analyses w !! id) as [job|]; [|simpl; lia].
    destruct (negb (status_eqb (status job) PENDING)); simpl; lia.
  - specialize (Hsave analysis).
    destruct (save sv id analysis w) as [[e|] w']; simpl in *; lia.
  - pose proof (called_calls sv analysis w) as Hc.
    assert (generate_calls (trace (called sv analysis w))
            <= generate_calls (trace w) + 1)
      by (destruct (has_api_key _); lia).
    destruct (analyze sv analysis) as [e|[b cands]]; [simpl; lia|].
    destruct (_ && _); simpl; lia.
  - destruct (savePuzzles sv puzzleObjects userId id (puzzles w)) as [[e|saved] stored];
      simpl; rewrite WorkerFacts.generate_calls_snoc; lia.
  - specialize (Hsave analysis).
    destruct (save sv id analysis w) as [[e|] w']; simpl in *; lia.
  - specialize (Hsave analysis).
    destruct (save sv id analysis w) as [[e|] w']; simpl in *; lia.
  - simpl. lia.
  - simpl. lia.
Qed.

(** X10.  However two invocations for one id interleave, each of them calls
    the external service at most once: along any schedule, the number of
    calls made plus the calls the two program points may still make never
    grows.  Two fresh invocations therefore make at most two calls in
    all. *)
Theorem interleaved_calls_are_bounded
    (sv : Services) (id : string) (schedule : list bool) (pc1 pc2 : Pc)
    (w : World) :
  let r := interleave sv id schedule pc1 pc2 w in
  generate_calls (trace (snd r))
  + calls_ahead (fst (fst r)) + calls_ahead (snd (fst r))
  <= generate_calls (trace w) + calls_ahead pc1 + calls_ahead pc2.
Proof.
  cbv zeta. revert pc1 pc2 w.
  induction schedule as [|[|] schedule IH]; intros pc1 pc2 w; simpl.
  - lia.
  - pose proof (step_calls sv id pc1 w) as H.
    destruct (step sv id pc1 w) as [pc1' w']. simpl in H.
    specialize (IH pc1' pc2 w'). lia.
  - pose proof (step_calls sv id pc2 w) as H.
    destruct (step sv id pc2 w) as [pc2' w']. simpl in H.
    specialize (IH pc1 pc2' w'). lia.
Qed.

Lemma step_past_claim (sv : Services) (id : string) (pc : Pc) (w : World) :
  past_claim pc -> claimed_in id w ->
  past_claim (fst (step sv id pc w)) /\ claimed_in id (snd (step sv id pc w)).
Proof.
  intros Hpc Hw.
  assert (Hsave : forall doc, status doc <> PENDING ->
            claimed_in id (snd (save sv id doc w))).
  { intros doc Hd. unfold save. destruct (save_fault sv (saves w)); simpl;
      [exact Hw|]. exists doc. split; [apply lookup_insert_eq | exact Hd]. }
  destruct pc; simpl in Hpc; try contradiction; simpl step.
  - assert (Hc : claimed_in id (called sv analysis w)).
    { destruct (called_store sv analysis w) as (Ha & _).
      destruct Hw as (doc & Hd & Hs). exists doc. now rewrite Ha. }
    destruct (analyze sv analysis) as [e|[b cands]];
      [split; [discriminate | exact Hc]|].
    destruct (_ && _); simpl; (split; [try exact I; discriminate | exact Hc]).
  - destruct (savePuzzles sv puzzleObjects userId id (puzzles w)) as [[e|saved] stored];
      simpl; (split; [discriminate | exact Hw]).
  - specialize (Hsave analysis Hpc).
    destruct (save sv id analysis w) as [[e|] w']; simpl in *;
      (split; [try exact I; discriminate | exact Hsave]).
  - specialize (Hsave analysis Hpc).
    destruct (save sv id analysis w) as [[e|] w']; simpl in *;
      (split; [exact I | exact Hsave]).
  - split; [exact I | exact Hw].
  - split; [exact I | exact Hw].
Qed.

Lemma run_past_claim (sv : Services) (id : string) (n : nat) (pc : Pc) (w : World) :
  past_claim pc -> claimed_in id w ->
  past_claim (fst (run sv id n pc w)) /\ claimed_in id (snd (run sv id n pc w)).
Proof.
  revert pc w. induction n as [|n IH]; intros pc w Hpc Hw; [now split|].
  rewrite WorkerFacts.run_S.
  destruct (step_past_claim sv id pc w Hpc Hw) as [Hpc' Hw']. now apply IH.
Qed.

Lemma step_Start_claimed (sv : Services) (id : string) (w : World) :
  claimed_in id w -> step sv id Start w = (Resolved, w).
Proof.
  intros (doc & Hd & Hs). simpl. rewrite Hd.
  destruct (status doc); simpl; congruence.
Qed.

Lemma interleave_after_second_returned (sv : Services) (id : string)
    (schedule : list bool) (pc1 : Pc) (w : World) :
  interleave sv id schedule pc1 Resolved w
  = (fst (run sv id (turns_of_first schedule) pc1 w), Resolved,
     snd (run sv id (turns_of_first schedule) pc1 w)).
Proof.
  revert pc1 w. induction schedule as [|[|] schedule IH]; intros pc1 w.
  - reflexivity.
  - change (turns_of_first (true :: schedule)) with (S (turns_of_first schedule)).
    rewrite WorkerFacts.run_S. simpl.
    destruct (step sv id pc1 w) as [pc1' w']. apply IH.
  - simpl. apply IH.
Qed.

(** X11.  The race is confined to the window between the read and the
    claim.  Once the job is stored with a status other than PENDING and the
    first invocation is past its claim, a second invocation that has not
    yet read the job has no effect at all, however the two interleave: the
    outcome is that of the first invocation running alone for as many steps
    as the schedule gives it, and the second returns at its first step. *)
Theorem late_invocation_has_no_effect
    (sv : Services) (id : string) (schedule : list bool) (pc1 : Pc) (w : World) :
  claimed_in id w ->
  past_claim pc1 ->
  interleave sv id schedule pc1 Start w
  = (fst (run sv id (turns_of_first schedule) pc1 w),
     if existsb negb schedule then Resolved else Start,
     snd (run sv id (turns_of_first schedule) pc1 w)).
Proof.
  revert pc1 w. induction schedule as [|[|] schedule IH]; intros pc1 w Hw Hpc.
  - reflexivity.
  - change (turns_of_first (true :: schedule)) with (S (turns_of_first schedule)).
    rewrite WorkerFacts.run_S. simpl.
    destruct (step_past_claim sv id pc1 w Hpc Hw) as [Hpc' Hw'].
    destruct (step sv id pc1 w) as [pc1' w']. now apply IH.
  - cbn [interleave]. rewrite (step_Start_claimed sv id w Hw).
    rewrite interleave_after_second_returned. reflexivity.
Qed.

Lemma late_invocation_has_no_effect_witness :
  let sv := services (inr reply) (Some [fork; pin]) no_fault None in
  let w1 := accepted "job-1" (claimed pending_job) (world pending_job) in
  let r := interleave sv "job-1" [false; true; true; false; true; true]
             (Analyzing (claimed pending_job)) Start w1 in
  snd (fst r) = Resolved
  /\ generate_calls (trace (snd r)) = 1
  /\ write_statuses (writes (trace (snd r)))
     = [(PROCESSING, true); (COMPLETED, true)].
Proof.
  intros sv w1 r.
  assert (Hw : claimed_in "job-1" w1).
  { exists (claimed pending_job). split; [reflexivity | discriminate]. }
  unfold r.
  rewrite (late_invocation_has_no_effect sv "job-1" _
             (Analyzing (claimed pending_job)) w1 Hw I).
  repeat split.
Defined.

End WorkerOutlineFacts.

(* ===================================================================== *)
(** * Further properties of the dashboard aggregator *)
(* ===================================================================== *)

Module DashboardSummaryFacts.

Import Dashboard DashboardSummary Samples.

(** *** Win rate *)

(** The win rate is undefined exactly when no game of the input is both
    COMPLETED and of known result. *)
Lemma win_rate_undefined_iff (analyses : list Analysis) :
  calculateWinRate analyses = None
  <-> List.filter counts_for_win_rate analyses = [].
Proof.
  unfold calculateWinRate.
  destruct (List.filter counts_for_win_rate analyses) as [|a l]; simpl.
  - split; reflexivity.
  - split; discriminate.
Qed.

(** *** Performance by color *)

Lemma performance_step_tally (c : PlayerColor) (p : Performance) (a : Analysis) :
  wins (of_color c (performance_step p a))
  = wins (of_color c p) + (if tallied_win c a then 1 else 0)
  /\ draws (of_color c (performance_step p a))
     = draws (of_color c p) + (if tallied_draw c a then 1 else 0).
Proof.
  unfold performance_step, tallied_win, tallied_draw, is_completed, is_draw, won.
  destruct (status_eqb (status a) COMPLETED); simpl; [|lia].
  destruct (player_color a) as [d|]; simpl.
  - destruct (String.eqb (meta_result (metadata a)) "1/2-1/2"); simpl.
    + destruct c, d; simpl; lia.
    + destruct (is_win (meta_result (metadata a)) (Some d)); simpl;
        destruct c, d; simpl; lia.
  - rewrite !Bool.andb_false_r. lia.
Qed.

Lemma performance_fold_tally (c : PlayerColor) (l : list Analysis) (p : Performance) :
  wins (of_color c (fold_left performance_step l p))
  = wins (of_color c p) + length (List.filter (tallied_win c) l)
  /\ draws (of_color c (fold_left performance_step l p))
     = draws (of_color c p) + length (List.filter (tallied_draw c) l).
Proof.
  revert p. induction l as [|a l IH]; intros p; simpl; [lia|].
  destruct (IH (performance_step p a)) as [-> ->].
  destruct (performance_step_tally c p a) as [-> ->].
  destruct (tallied_win c a), (tallied_draw c a); simpl; lia.
Qed.

Lemma played_as_split (c : PlayerColor) (l : list Analysis) :
  length (List.filter (played_as c) l)
  = length (List.filter (tallied_win c) l)
    + length (List.filter (tallied_loss c) l)
    + length (List.filter (tallied_draw c) l).
Proof.
  induction l as [|a l IH]; simpl; [reflexivity|].
  unfold played_as, tallied_win, tallied_loss, tallied_draw, other_outcome in *.
  destruct (is_completed a), (is_draw a), (won a),
    (color_is (player_color a) c); simpl; lia.
Qed.

(** X12.  In the performance-by-color breakdown the three counters of a
    color partition the COMPLETED games played with that color: the draws
    are the games with result 1/2-1/2, the wins are the other games won by
    that color, and wins, losses and draws add up to the number of
    COMPLETED games played with that color.  Games that are not COMPLETED
    or have no subject color count nowhere. *)
Theorem performance_partitions_the_games (analyses : list Analysis)
    (c : PlayerColor) :
  let s := of_color c (getPerformanceByColor analyses) in
  wins s = length (List.filter (tallied_win c) analyses)
  /\ draws s = length (List.filter (tallied_draw c) analyses)
  /\ wins s + losses s + draws s
     = length (List.filter (played_as c) analyses).
Proof.
  cbv zeta. unfold getPerformanceByColor.
  destruct (performance_fold_tally c analyses
              {| perf_white := no_games; perf_black := no_games |}) as [Hw Hd].
  rewrite Hw, Hd, DashboardFacts.performance_fold_losses, played_as_split.
  destruct c; simpl; repeat split; lia.
Qed.

(** *** Most played openings *)

Lemma keyed_snoc (f : Analysis -> bool) (seen : list Analysis) (a : Analysis) :
  length (List.filter f (seen ++ [a]))
  = length (List.filter f seen) + (if f a then 1 else 0).
Proof.
  rewrite List.filter_app, List.length_app. simpl. now destruct (f a).
Qed.

Lemma tally_counters (a : Analysis) (s : OpeningStat) :
  is_completed a = true ->
  let s' := tally (meta_result (metadata a)) (player_color a) s in
  stat_key s' = stat_key s
  /\ count s' = S (count s)
  /\ os_wins s' = os_wins s + (if negb (is_draw a) && won a then 1 else 0)
  /\ os_draws s' = os_draws s + (if is_draw a then 1 else 0)
  /\ os_wins s' + os_losses s' + os_draws s'
     = S (os_wins s + os_losses s + os_draws s).
Proof.
  intros Hc. unfold tally, is_draw, won. simpl.
  destruct (String.eqb (meta_result (metadata a)) "1/2-1/2"); simpl.
  - repeat split; lia.
  - destruct (is_win (meta_result (metadata a)) (player_color a)); simpl;
      repeat split; lia.
Qed.

Lemma openings_step_tallies_all (m : OpeningMap) (seen : list Analysis)
    (a : Analysis) :
  tallies_all m seen -> tallies_all (openings_step m a) (seen ++ [a]).
Proof.
  intros Hm key. specialize (Hm key). rewrite !keyed_snoc.
  unfold openings_step, keyed_game at 2, keyed_win at 2, keyed_draw at 2.
  unfold keyed_game at 3.
  destruct (status_eqb (status a) COMPLETED) eqn:Hc; simpl.
  2:{ unfold is_completed. rewrite Hc. simpl. rewrite !Nat.add_0_r. exact Hm. }
  assert (Hc' : is_completed a = true) by exact Hc.
  rewrite Hc'. simpl andb. rewrite DashboardFacts.map_get_modify.
  destruct (String.eqb (opening_key a) key) eqn:Ek.
  - apply String.eqb_eq in Ek. subst key.
    rewrite !Bool.andb_true_r, DashboardFacts.map_has_get.
    destruct (map_get (opening_key a) m) as [s0|] eqn:Hget.
    + rewrite Hget. simpl.
      destruct (tally_counters a s0 Hc') as (-> & -> & -> & -> & Hsum).
      destruct Hm as (-> & Hn & -> & -> & Hs & Hpos).
      repeat split; lia.
    + rewrite DashboardFacts.map_get_app, Hget. simpl.
      rewrite String.eqb_refl. simpl.
      destruct (tally_counters a
                  {| opening := opening_of a;
                     eco := if String.eqb (eco_of a) "" then None
                            else Some (eco_of a);
                     count := 0; os_wins := 0; os_losses := 0; os_draws := 0 |}
                  Hc') as (-> & -> & -> & -> & Hsum).
      rewrite DashboardFacts.new_stat_key. simpl in *.
      assert (Hw : length (List.filter (keyed_win (opening_key a)) seen) = 0
                   /\ length (List.filter (keyed_draw (opening_key a)) seen) = 0).
      { clear -Hm. induction seen as [|x seen IH]; [now split|].
        simpl in *. unfold keyed_game, keyed_win, keyed_draw in *.
        destruct (is_completed x), (String.eqb (opening_key x) (opening_key a));
          simpl in *; try discriminate;
          rewrite ?Bool.andb_false_r; apply IH; exact Hm. }
      destruct Hw as [-> ->]. rewrite Hm.
      repeat split; lia.
  - rewrite !Bool.andb_false_r, !Nat.add_0_r.
    destruct (map_has (opening_key a) m); [exact Hm|].
    rewrite DashboardFacts.map_get_app. destruct (map_get key m); [exact Hm|].
    simpl. rewrite Ek. exact Hm.
Qed.

Lemma openings_fold_all (l seen : list Analysis) (m : OpeningMap) :
  tallies_all m seen ->
  tallies_all (fold_left openings_step l m) (seen ++ l).
Proof.
  revert seen m. induction l as [|a l IH]; intros seen m Ht; simpl.
  - now rewrite List.app_nil_r.
  - replace (seen ++ a :: l) with ((seen ++ [a]) ++ l)
      by (rewrite <- List.app_assoc; reflexivity).
    apply IH. now apply openings_step_tallies_all.
Qed.

(** The map built by the loop of [getMostPlayedOpenings]. *)
Lemma opening_map_facts (analyses : list Analysis) :
  distinct_keys (fold_left openings_step analyses [])
  /\ tallies_all (fold_left openings_step analyses []) analyses.
Proof.
  split.
  - apply (DashboardFacts.openings_fold analyses [] [] I (fun _ => eq_refl)).
  - apply (openings_fold_all analyses [] []). intros key. reflexivity.
Qed.

Lemma Forall_insert_by_count (P : OpeningStat -> Prop) (x : OpeningStat)
    (l : list OpeningStat) :
  P x -> Forall P l -> Forall P (insert_by_count x l).
Proof.
  intros Hx Hl. induction Hl as [|y l Hy Hl IH]; simpl.
  - now constructor.
  - destruct (Nat.leb (count y) (count x)); repeat constructor; assumption.
Qed.

Lemma descending_insert (x : OpeningStat) (l : list OpeningStat) :
  descending l -> descending (insert_by_count x l).
Proof.
  induction l as [|y l IH]; simpl; [intros _; split; [constructor | exact I]|].
  intros [Hy Hl]. destruct (Nat.leb (count y) (count x)) eqn:E; simpl.
  - apply Nat.leb_le in E. split; [|split; assumption].
    constructor; [exact E|].
    eapply Forall_impl; [exact Hy|]. simpl. intros z Hz. lia.
  - apply Nat.leb_gt in E. split; [|now apply IH].
    apply Forall_insert_by_count; [lia | exact Hy].
Qed.

Lemma descending_sort (l : list OpeningStat) : descending (sort_by_count l).
Proof.
  induction l as [|x l IH]; simpl; [exact I | now apply descending_insert].
Qed.

Lemma descending_app (l1 l2 : list OpeningStat) :
  descending (l1 ++ l2) ->
  descending l1
  /\ forall x y, In x l1 -> In y l2 -> count y <= count x.
Proof.
  induction l1 as [|a l1 IH]; simpl.
  - intros _. split; [exact I | intros x y []].
  - intros [Ha Hd]. destruct (IH Hd) as [Hd1 Hc].
    apply Forall_app in Ha. destruct Ha as [Ha1 Ha2]. split; [split; assumption|].
    intros x y [->|Hx] Hy; [|now apply Hc].
    rewrite List.Forall_forall in Ha2. now apply Ha2.
Qed.

Lemma insert_by_count_perm (x : OpeningStat) (l : list OpeningStat) :
  Permutation (insert_by_count x l) (x :: l).
Proof.
  induction l as [|y l IH]; simpl; [reflexivity|].
  destruct (Nat.leb (count y) (count x)); [reflexivity|].
  rewrite IH. apply perm_swap.
Qed.

Lemma sort_by_count_perm (l : list OpeningStat) : Permutation (sort_by_count l) l.
Proof.
  induction l as [|x l IH]; simpl; [reflexivity|].
  rewrite insert_by_count_perm. now constructor.
Qed.

Lemma NoDup_firstn_keep {A} (n : nat) (l : list A) :
  List.NoDup l -> List.NoDup (firstn n l).
Proof.
  revert l. induction n as [|n IH]; intros [|x l] H; simpl; try constructor.
  - inversion H; subst. intros Hin. apply DashboardFacts.In_firstn in Hin. tauto.
  - inversion H; subst. now apply IH.
Qed.

Lemma distinct_keys_NoDup (m : OpeningMap) :
  distinct_keys m -> List.NoDup (map fst m).
Proof.
  induction m as [|[k s] m IH]; simpl; [constructor|].
  intros [Hk Hm]. constructor; [|now apply IH].
  intros Hin. apply List.in_map_iff in Hin. destruct Hin as [[k' s'] [E Hin]].
  simpl in E. subst k'.
  rewrite (DashboardFacts.distinct_keys_In m k s' Hm Hin) in Hk. discriminate.
Qed.

Lemma stat_keys_of_map (analyses : list Analysis) :
  map stat_key (map snd (fold_left openings_step analyses []))
  = map fst (fold_left openings_step analyses []).
Proof.
  destruct (opening_map_facts analyses) as [Hd Ht].
  rewrite List.map_map. apply List.map_ext_in. intros [k s] Hin. simpl.
  specialize (Ht k). rewrite (DashboardFacts.distinct_keys_In _ _ _ Hd Hin) in Ht.
  tauto.
Qed.

(** X13.  [getMostPlayedOpenings] returns at most five entries, in order of
    descending count, and no two of them stand for the same opening key. *)
Theorem openings_ranking_shape (analyses : list Analysis) :
  let ranking := getMostPlayedOpenings analyses in
  length ranking <= 5
  /\ descending ranking
  /\ List.NoDup (map stat_key ranking).
Proof.
  cbv zeta. unfold getMostPlayedOpenings.
  set (m := fold_left openings_step analyses []).
  split; [apply List.firstn_le_length|]. split.
  - pose proof (descending_sort (map snd m)) as H.
    rewrite <- (List.firstn_skipn 5 (sort_by_count (map snd m))) in H.
    now apply descending_app in H.
  - rewrite <- List.firstn_map. apply NoDup_firstn_keep.
    apply (Permutation_NoDup (l := map stat_key (map snd m))).
    + symmetry. apply Permutation_map, sort_by_count_perm.
    + unfold m. rewrite stat_keys_of_map. apply distinct_keys_NoDup.
      apply (opening_map_facts analyses).
Qed.

(** X14.  Each entry of the ranking accounts for the COMPLETED games
    grouped under its key, and for nothing else: its count is the number of
    those games, at least one; its wins are those of them that are won and
    not drawn, its draws those with result 1/2-1/2; and wins, losses and
    draws add up to the count. *)
Theorem opening_entries_count_their_games (analyses : list Analysis)
    (s : OpeningStat) :
  In s (getMostPlayedOpenings analyses) ->
  count s = length (List.filter (keyed_game (stat_key s)) analyses)
  /\ 1 <= count s
  /\ os_wins s = length (List.filter (keyed_win (stat_key s)) analyses)
  /\ os_draws s = length (List.filter (keyed_draw (stat_key s)) analyses)
  /\ count s = os_wins s + os_losses s + os_draws s.
Proof.
  unfold getMostPlayedOpenings. intros H.
  apply DashboardFacts.In_firstn, DashboardFacts.In_sort_by_count,
    List.in_map_iff in H.
  destruct H as [[k s'] [Hs Hin]]. simpl in Hs. subst s'.
  destruct (opening_map_facts analyses) as [Hd Ht].
  specialize (Ht k). rewrite (DashboardFacts.distinct_keys_In _ _ _ Hd Hin) in Ht.
  destruct Ht as (-> & H1 & H2 & H3 & H4 & H5). repeat split; assumption.
Qed.

Lemma opening_entries_count_their_games_witness :
  let games := [game "g1" COMPLETED (Some white) "1-0" a_user;
                game "g2" PENDING (Some white) "*" a_user;
                game "g3" COMPLETED (Some black) "1/2-1/2" a_user] in
  let s := {| opening := "Ruy Lopez"; eco := Some "C70"; count := 2;
              os_wins := 1; os_losses := 0; os_draws := 1 |} in
  count s = length (List.filter (keyed_game (stat_key s)) games)
  /\ os_draws s = length (List.filter (keyed_draw (stat_key s)) games).
Proof.
  intros games s.
  assert (Hin : In s (getMostPlayedOpenings games)) by (left; reflexivity).
  destruct (opening_entries_count_their_games games s Hin)
    as (H1 & _ & _ & H2 & _).
  split; [exact H1 | exact H2].
Defined.

Lemma ranking_top_five (analyses : list Analysis) (a : Analysis) :
  In a analyses ->
  status a = COMPLETED ->
  let ranking := getMostPlayedOpenings analyses in
  (exists s, In s ranking /\ stat_key s = opening_key a)
  \/ (length ranking = 5
      /\ forall s, In s ranking ->
           length (List.filter (keyed_game (opening_key a)) analyses) <= count s).
Proof.
  intros Ha Hs. cbv zeta. unfold getMostPlayedOpenings.
  set (m := fold_left openings_step analyses []).
  destruct (opening_map_facts analyses) as [Hd Ht]. fold m in Hd, Ht.
  specialize (Ht (opening_key a)).
  assert (Hpos : 1 <= length (List.filter (keyed_game (opening_key a)) analyses)).
  { assert (Hin : In a (List.filter (keyed_game (opening_key a)) analyses)).
    { apply List.filter_In. split; [exact Ha|].
      unfold keyed_game, is_completed. now rewrite Hs, String.eqb_refl. }
    destruct (List.filter _ analyses); [destruct Hin | simpl; lia]. }
  destruct (map_get (opening_key a) m) as [s|] eqn:Hget; [|lia].
  destruct Ht as (Hk & Hn & _).
  assert (Hsm : In s (sort_by_count (map snd m))).
  { apply (Permutation_in _ (symmetry (sort_by_count_perm _))).
    apply List.in_map_iff. exists (opening_key a, s). split; [reflexivity|].
    clear -Hget. induction m as [|[k s0] m IH]; simpl in *; [discriminate|].
    destruct (String.eqb k (opening_key a)) eqn:E.
    - apply String.eqb_eq in E. inversion Hget; subst. now left.
    - right. now apply IH. }
  rewrite <- (List.firstn_skipn 5 (sort_by_count (map snd m))) in Hsm.
  apply List.in_app_or in Hsm. destruct Hsm as [Hin|Hin].
  - left. exists s. split; assumption.
  - right.
    pose proof (descending_sort (map snd m)) as Hdesc.
    rewrite <- (List.firstn_skipn 5 (sort_by_count (map snd m))) in Hdesc.
    apply descending_app in Hdesc. destruct Hdesc as [_ Hle]. split.
    + rewrite List.length_firstn.
      assert (length (skipn 5 (sort_by_count (map snd m))) <> 0)
        by (destruct (skipn 5 _); [destruct Hin | discriminate]).
      rewrite List.length_skipn in *. lia.
    + intros s' Hs'. rewrite <- Hn. now apply Hle.
Qed.

(** X15.  The ranking is the top five: every opening played in a COMPLETED
    game is listed, unless the ranking already holds five entries each
    played at least as often. *)
Theorem openings_ranking_is_top_five (analyses : list Analysis) (a : Analysis) :
  In a analyses ->
  status a = COMPLETED ->
  let ranking := getMostPlayedOpenings analyses in
  (exists s, In s ranking /\ stat_key s = opening_key a)
  \/ (length ranking = 5
      /\ forall s, In s ranking ->
           length (List.filter (keyed_game (opening_key a)) analyses) <= count s).
Proof. apply ranking_top_five. Qed.

Lemma openings_ranking_is_top_five_witness :
  let g := game "g1" COMPLETED (Some white) "1-0" a_user in
  exists s, In s (getMostPlayedOpenings [g]) /\ stat_key s = opening_key g.
Proof.
  intros g.
  destruct (openings_ranking_is_top_five [g] g (or_introl eq_refl) eq_refl)
    as [H|[H _]]; [exact H | discriminate H].
Defined.

(** *** The summary *)

Lemma openings_step_skips (m : OpeningMap) (l : list Analysis) :
  List.filter is_completed l = [] -> fold_left openings_step l m = m.
Proof.
  induction l as [|a l IH]; simpl; [reflexivity|].
  unfold openings_step at 2, is_completed at 1.
  destruct (status_eqb (status a) COMPLETED); simpl; [discriminate | exact IH].
Qed.

Lemma filter_nil_weaken {A} (f g : A -> bool) (l : list A) :
  (forall x, f x = true -> g x = true) ->
  List.filter g l = [] -> List.filter f l = [].
Proof.
  intros Hfg. induction l as [|x l IH]; simpl; [reflexivity|].
  destruct (g x) eqn:Eg; [discriminate|]. intros H.
  destruct (f x) eqn:Ef; [|now apply IH].
  apply Hfg in Ef. congruence.
Qed.

Lemma filter_nil_length {A} (f : A -> bool) (l : list A) :
  List.filter f l = [] <-> length (List.filter f l) = 0.
Proof. destruct (List.filter f l); simpl; split; congruence. Qed.

(** X16.  Which sections of the dashboard summary are present.  The
    openings ranking is absent exactly when the query returned no COMPLETED
    analysis; the performance breakdown is absent exactly when it returned
    no COMPLETED analysis with a subject color; the win rate is undefined
    exactly when it returned no COMPLETED analysis of known result.  Hence
    a breakdown or a win rate is never shown without the ranking, while the
    ranking and the breakdown can be shown without a win rate. *)
Theorem summary_sections (q : Answers) :
  let s := getDashboardSummary q in
  let games := map doc (completedAnalyses q) in
  (most_played_openings s = None <-> List.filter is_completed games = [])
  /\ (performance_by_color s = None
      <-> List.filter (played_as white) games = []
          /\ List.filter (played_as black) games = [])
  /\ (win_rate (stats s) = None
      <-> List.filter counts_for_win_rate games = [])
  /\ (most_played_openings s = None ->
      performance_by_color s = None /\ win_rate (stats s) = None).
Proof.
  cbv zeta. set (games := map doc (completedAnalyses q)).
  assert (H1 : most_played_openings (getDashboardSummary q) = None
               <-> List.filter is_completed games = []).
  { unfold getDashboardSummary. simpl. fold games. split.
    - intros H. destruct (getMostPlayedOpenings games) as [|s l] eqn:E;
        [|discriminate].
      destruct (List.filter is_completed games) as [|a l] eqn:Ef; [reflexivity|].
      assert (Ha : In a (List.filter is_completed games))
        by (rewrite Ef; now left).
      apply List.filter_In in Ha. destruct Ha as [Ha Hc].
      assert (Hs : status a = COMPLETED)
        by (unfold is_completed in Hc; destruct (status a); simpl in Hc; congruence).
      destruct (ranking_top_five games a Ha Hs) as [(s & Hin & _)|[Hl _]];
        rewrite E in *; [destruct Hin | discriminate].
    - intros H. unfold getMostPlayedOpenings.
      now rewrite (openings_step_skips [] games H). }
  assert (H2 : performance_by_color (getDashboardSummary q) = None
               <-> List.filter (played_as white) games = []
                   /\ List.filter (played_as black) games = []).
  { unfold getDashboardSummary. simpl. fold games.
    unfold getPerformanceByColor.
    set (p0 := {| perf_white := no_games; perf_black := no_games |}).
    destruct (performance_fold_tally white games p0) as [Hww Hwd].
    destruct (performance_fold_tally black games p0) as [Hbw Hbd].
    pose proof (DashboardFacts.performance_fold_losses white games p0) as Hwl.
    pose proof (DashboardFacts.performance_fold_losses black games p0) as Hbl.
    pose proof (played_as_split white games) as Hw.
    pose proof (played_as_split black games) as Hb.
    simpl in Hww, Hwd, Hbw, Hbd, Hwl, Hbl.
    rewrite !filter_nil_length.
    destruct (Nat.ltb 0 _) eqn:E.
    - apply Nat.ltb_lt in E. split; [discriminate|]. intros [? ?]. lia.
    - apply Nat.ltb_ge in E. split; [|reflexivity]. intros _. lia. }
  assert (H3 : win_rate (stats (getDashboardSummary q)) = None
               <-> List.filter counts_for_win_rate games = [])
    by apply win_rate_undefined_iff.
  split; [exact H1|]. split; [exact H2|]. split; [exact H3|].
  intros H. apply H1 in H. split.
  - apply H2.
    split; (apply (filter_nil_weaken _ is_completed); [|exact H]);
      intros x Hx; unfold played_as in Hx;
      now apply Bool.andb_true_iff in Hx.
  - apply H3. apply (filter_nil_weaken _ is_completed); [|exact H].
    intros x Hx. unfold counts_for_win_rate in Hx.
    now apply Bool.andb_true_iff in Hx.
Qed.

(** *** The status counters *)

Lemma counts_of_snoc (l : list (AnalysisStatus * nat)) (g : AnalysisStatus * nat)
    (st : AnalysisStatus) :
  counts_of (l ++ [g]) st
  = if status_eqb (fst g) st then Some (snd g) else counts_of l st.
Proof. unfold counts_of. now rewrite fold_left_app. Qed.

Lemma status_eqb_eq (a b : AnalysisStatus) : status_eqb a b = true <-> a = b.
Proof. destruct a, b; simpl; split; congruence. Qed.

Lemma counts_of_absent (l : list (AnalysisStatus * nat)) (st : AnalysisStatus) :
  ~ In st (map fst l) -> counts_of l st = None.
Proof.
  induction l as [|g l IH] using List.rev_ind; intros H; [reflexivity|].
  rewrite counts_of_snoc. rewrite List.map_app, List.in_app_iff in H. simpl in H.
  destruct (status_eqb (fst g) st) eqn:E.
  - apply status_eqb_eq in E. tauto.
  - apply IH. tauto.
Qed.

Lemma grouped_snoc (l : list (AnalysisStatus * nat)) (g : AnalysisStatus * nat) :
  grouped (l ++ [g]) = grouped l + snd g.
Proof.
  unfold grouped. rewrite fold_right_app. simpl.
  induction l as [|x l IH]; simpl; lia.
Qed.

Lemma counters_add_up (groups : list (AnalysisStatus * nat)) :
  List.NoDup (map fst groups) ->
  count_or_zero (counts_of groups) COMPLETED
  + count_or_zero (counts_of groups) PENDING
  + count_or_zero (counts_of groups) PROCESSING
  + count_or_zero (counts_of groups) FAILED
  = grouped groups.
Proof.
  induction groups as [|g l IH] using List.rev_ind; intros H; [reflexivity|].
  rewrite List.map_app in H. simpl in H.
  pose proof (List.NoDup_remove_1 _ _ _ H) as Hl.
  pose proof (List.NoDup_remove_2 _ _ _ H) as Hg.
  rewrite List.app_nil_r in Hl, Hg. specialize (IH Hl).
  apply counts_of_absent in Hg.
  rewrite grouped_snoc, <- IH. unfold count_or_zero in *.
  rewrite !counts_of_snoc.
  destruct g as [[| | |] n]; simpl in *; rewrite Hg; simpl; lia.
Qed.

(** X17.  When the aggregation answers with one group per status, as a
    [$group] stage does, the four status counters of the statistics add up
    to the number of documents it has grouped: a status without a group
    counts zero and no group is lost.  The number of games is the total
    number of analyses, and at most five recent analyses are listed. *)
Theorem status_counters_add_up (q : Answers) :
  List.NoDup (map fst (statusCounts q)) ->
  let s := getDashboardStats q in
  completed s + pending s + processing s + failed s = grouped (statusCounts q)
  /\ total_games s = total_analyses s
  /\ length (recent_analyses s) <= 5.
Proof.
  intros H. cbv zeta. unfold getDashboardStats, build_stats. simpl.
  split; [now apply counters_add_up|]. split; [reflexivity|].
  unfold getRecentAnalyses. rewrite List.length_map. apply List.firstn_le_length.
Qed.

Lemma status_counters_add_up_witness :
  let q := {| statusCounts := [(COMPLETED, 3); (FAILED, 1)];
              recentAnalyses := []; total := 4; completedAnalyses := [] |} in
  let s := getDashboardStats q in
  completed s + pending s + processing s + failed s = 4.
Proof.
  intros q s.
  assert (H : List.NoDup (map fst (statusCounts q))).
  { repeat constructor; simpl; intuition discriminate. }
  destruct (status_counters_add_up q H) as (E & _). exact E.
Defined.

End DashboardSummaryFacts.

(* ===================================================================== *)
(** * Properties of the prompt and of the extraction *)
(* ===================================================================== *)

Module PromptFacts.

Import Gemini Prompt.

Lemma app_assoc (a b c : string) : (a +:+ b) +:+ c = a +:+ (b +:+ c).
Proof.
  induction a as [|x a IH]; [reflexivity|].
  rewrite !GeminiFacts.app_cons. now rewrite IH.
Qed.

Lemma app_nil_r (a : string) : a +:+ "" = a.
Proof.
  induction a as [|x a IH]; [reflexivity|].
  rewrite GeminiFacts.app_cons. now rewrite IH.
Qed.

Lemma contains_skip (a t s : string) : contains t s -> contains (a +:+ t) s.
Proof.
  intros (pre & post & ->). exists (a +:+ pre), post. now rewrite app_assoc.
Qed.

Lemma contains_head (s post : string) : contains (s +:+ post) s.
Proof. exists "", post. reflexivity. Qed.

Lemma contains_head2 (a b post : string) :
  contains (a +:+ b +:+ post) (a +:+ b).
Proof. rewrite <- app_assoc. apply contains_head. Qed.

Lemma contains_head6 (a b c d e f post : string) :
  contains (a +:+ b +:+ c +:+ d +:+ e +:+ f +:+ post)
           (a +:+ b +:+ c +:+ d +:+ e +:+ f).
Proof.
  exists "", post. rewrite GeminiFacts.app_nil, !app_assoc. reflexivity.
Qed.

Lemma color_cases (o : option PlayerColor) :
  (color_is o white = true /\ color_is o black = false)
  \/ (color_is o white = false /\ color_is o black = true)
  \/ (color_is o white = false /\ color_is o black = false).
Proof. destruct o as [[|]|]; simpl; tauto. Qed.

(** X18.  The verdict that the prompt states about the analyzed player
    agrees with the dashboard's rule for a win: it is "won" exactly when the
    result is a win for the player's color.  Every result other than 1-0
    and 0-1, the unknown result included, is described as "drew", and a
    decisive result for a player without a color as "lost".  The prompt
    carries that verdict on the line naming the player, and the PGN
    unchanged. *)
Theorem prompt_verdict (ctx : AnalysisContext) :
  (playerResult ctx = "won"
   <-> Dashboard.is_win (ctx_result ctx) (playerColor ctx) = true)
  /\ (playerResult ctx = "drew"
      <-> ctx_result ctx <> "1-0" /\ ctx_result ctx <> "0-1")
  /\ (playerColor ctx = None ->
      playerResult ctx = "lost" \/ playerResult ctx = "drew")
  /\ contains (buildPrompt ctx)
       ("
- **Player being analyzed**: " +:+ playerName ctx +:+ " (" +:+
        playerSide ctx +:+ ") - " +:+ playerResult ctx)
  /\ contains (buildPrompt ctx) ("

## PGN
" +:+ ctx_pgn ctx).
Proof.
  split; [|split; [|split; [|split]]].
  - unfold playerResult, Dashboard.is_win.
    destruct (String.eqb (ctx_result ctx) "1-0") eqn:E1.
    + apply String.eqb_eq in E1. rewrite E1. simpl.
      destruct (color_is (playerColor ctx) white); simpl; split; congruence.
    + destruct (String.eqb (ctx_result ctx) "0-1"); simpl.
      * destruct (color_is (playerColor ctx) black); split; congruence.
      * split; congruence.
  - unfold playerResult.
    destruct (String.eqb (ctx_result ctx) "1-0") eqn:E1.
    + apply String.eqb_eq in E1.
      destruct (color_is (playerColor ctx) white); split;
        try discriminate; tauto.
    + apply String.eqb_neq in E1.
      destruct (String.eqb (ctx_result ctx) "0-1") eqn:E2.
      * apply String.eqb_eq in E2.
        destruct (color_is (playerColor ctx) black); split;
          try discriminate; tauto.
      * apply String.eqb_neq in E2. tauto.
  - intros Hc. unfold playerResult. rewrite Hc. simpl.
    destruct (String.eqb (ctx_result ctx) "1-0"); [now left|].
    destruct (String.eqb (ctx_result ctx) "0-1"); [now left | now right].
  - unfold buildPrompt. do 14 apply contains_skip. apply contains_head6.
  - unfold buildPrompt. do 20 apply contains_skip. apply contains_head2.
Qed.

(** *** Extraction *)

Lemma regex_match_of_span (pre mid post : string) :
  occurs open_brace pre = false ->
  occurs close_brace post = false ->
  regex_match (pre +:+ String open_brace (mid +:+ String close_brace post))
  = Some (String open_brace (mid +:+ String close_brace "")).
Proof.
  intros Ho Hc. apply GeminiFacts.regex_match_some.
  exists pre, mid, post. repeat split; assumption.
Qed.

(** X19.  Commentary without braces never changes what the client
    extracts.  For a payload that opens and closes with a brace, wrapped in
    text that holds no opening brace before it and no closing brace after
    it, the client parses exactly the payload, so its outcome is the
    outcome on the payload alone; and matching an extracted span again
    yields the same span. *)
Theorem commentary_is_ignored
    (JSON_parse : string -> string + GeminiAnalysisResult)
    (pre mid post : string) :
  occurs open_brace pre = false ->
  occurs close_brace post = false ->
  let span := String open_brace (mid +:+ String close_brace "") in
  regex_match (pre +:+ span +:+ post) = Some span
  /\ regex_match span = Some span
  /\ parse_response JSON_parse (pre +:+ span +:+ post)
     = parse_response JSON_parse span.
Proof.
  intros Ho Hc span.
  assert (E : pre +:+ span +:+ post
              = pre +:+ String open_brace (mid +:+ String close_brace post)).
  { unfold span. rewrite GeminiFacts.app_cons, app_assoc. reflexivity. }
  assert (H1 : regex_match (pre +:+ span +:+ post) = Some span)
    by (rewrite E; now apply regex_match_of_span).
  assert (H2 : regex_match span = Some span).
  { pose proof (regex_match_of_span "" mid "" eq_refl eq_refl) as H.
    rewrite GeminiFacts.app_nil in H. exact H. }
  split; [exact H1|]. split; [exact H2|].
  unfold parse_response. now rewrite H1, H2.
Qed.

Lemma commentary_is_ignored_witness :
  regex_match ("Here is the analysis: " +:+ "{payload}" +:+ " Good luck.")
  = Some "{payload}".
Proof.
  destruct (commentary_is_ignored (Samples.parse None)
              "Here is the analysis: " "payload" " Good luck."
              eq_refl eq_refl) as (H & _).
  exact H.
Defined.

End PromptFacts.


(* ===================================================================== *)
(** * Facts about the object storage *)
(* ===================================================================== *)

Module StorageFacts.

Import Gemini Storage.

(** ** The url pattern *)

Lemma strip_prefix_app (prefix s : string) :
  strip_prefix prefix (prefix +:+ s) = Some s.
Proof.
  induction prefix as [|a prefix IH]; [destruct s; reflexivity|].
  simpl. rewrite Ascii.eqb_refl. exact IH.
Qed.

Lemma strip_prefix_inv (prefix s rest : string) :
  strip_prefix prefix s = Some rest -> s = prefix +:+ rest.
Proof.
  revert s. induction prefix as [|a prefix IH]; intros s H.
  - destruct s; simpl in H; injection H as <-; reflexivity.
  - destruct s as [|b s]; simpl in H; [discriminate|].
    destruct (Ascii.eqb_spec a b) as [->|]; [|discriminate].
    rewrite GeminiFacts.app_cons. f_equal. apply IH, H.
Qed.

Lemma dot_plus_to_end_spec (p : string) :
  dot_plus_to_end p = true <-> String.eqb p "" = false /\ single_line p = true.
Proof.
  destruct p as [|c p]; simpl.
  - split; [discriminate|intros [H _]; discriminate].
  - split; [intros H; split; [reflexivity|exact H]|intros [_ H]; exact H].
Qed.

Lemma bucket_and_path_build (b p : string) :
  String.eqb b "" = false ->
  occurs slash b = false ->
  dot_plus_to_end p = true ->
  bucket_and_path (b +:+ String slash p) = Some (b, p).
Proof.
  induction b as [|c b IH]; intros Hb Hs Hp; [discriminate|].
  simpl in Hs. apply Bool.orb_false_iff in Hs as [Hc Hs].
  rewrite GeminiFacts.app_cons. simpl. rewrite Hc.
  destruct b as [|d b].
  - rewrite GeminiFacts.app_nil. simpl. rewrite Hp. reflexivity.
  - rewrite IH; [reflexivity|reflexivity|exact Hs|exact Hp].
Qed.

Lemma bucket_and_path_inv (s b p : string) :
  bucket_and_path s = Some (b, p) ->
  s = b +:+ String slash p
  /\ String.eqb b "" = false
  /\ occurs slash b = false
  /\ dot_plus_to_end p = true.
Proof.
  revert b p. induction s as [|c s IH]; intros b p H; [discriminate|].
  simpl in H. destruct (Ascii.eqb c slash) eqn:Hc; [discriminate|].
  destruct (bucket_and_path s) as [[b' p']|] eqn:Hrec.
  - injection H as <- <-.
    destruct (IH b' p' eq_refl) as (-> & Hb & Hs & Hp).
    repeat split; [|exact Hp]. simpl. rewrite Hc. exact Hs.
  - destruct s as [|d s]; [discriminate|].
    destruct (Ascii.eqb_spec d slash) as [->|]; [|discriminate].
    destruct (dot_plus_to_end s) eqn:Hp; [|discriminate].
    injection H as <- <-. repeat split; try exact Hp. simpl. rewrite Hc. reflexivity.
Qed.

Lemma parse_gs_url_build (b p : string) :
  String.eqb b "" = false ->
  occurs slash b = false ->
  String.eqb p "" = false ->
  single_line p = true ->
  parse_gs_url (gs_url b p) = Some (b, p).
Proof.
  intros Hb Hs Hp Hl. unfold parse_gs_url, gs_url.
  rewrite strip_prefix_app.
  apply bucket_and_path_build; [exact Hb|exact Hs|].
  apply dot_plus_to_end_spec. split; assumption.
Qed.

Lemma parse_gs_url_inv (u b p : string) :
  parse_gs_url u = Some (b, p) ->
  u = gs_url b p
  /\ String.eqb b "" = false
  /\ occurs slash b = false
  /\ String.eqb p "" = false
  /\ single_line p = true.
Proof.
  unfold parse_gs_url. intros H.
  destruct (strip_prefix "gs://" u) as [rest|] eqn:Hpre; [|discriminate].
  apply strip_prefix_inv in Hpre.
  destruct (bucket_and_path_inv _ _ _ H) as (-> & Hb & Hs & Hp).
  apply dot_plus_to_end_spec in Hp as [Hp Hl].
  repeat split; assumption.
Qed.

(** X20. The pattern of [getSignedUrl] and [downloadFile] accepts exactly
    the urls [gs://bucket/path] whose bucket is not empty and holds no
    slash and whose path is not empty and holds none of the four line
    terminators (LF, CR, U+2028, U+2029); the groups are that bucket and
    that path (which may hold further slashes). *)
Theorem gs_url_pattern (gcsUrl bucketName filePath : string) :
  parse_gs_url gcsUrl = Some (bucketName, filePath)
  <-> gcsUrl = gs_url bucketName filePath
      /\ String.eqb bucketName "" = false
      /\ occurs slash bucketName = false
      /\ String.eqb filePath "" = false
      /\ single_line filePath = true.
Proof.
  split.
  - apply parse_gs_url_inv.
  - intros (-> & Hb & Hs & Hp & Hl). apply parse_gs_url_build; assumption.
Qed.

(** ** The extension of a profile picture *)

Lemma split_nonempty (sep : Ascii.ascii) (s : string) :
  exists piece pieces, split sep s = piece :: pieces.
Proof.
  destruct s as [|c s]; simpl; [eauto|].
  destruct (Ascii.eqb c sep); [eauto|].
  destruct (split sep s); eauto.
Qed.

Lemma split_without_separator (sep : Ascii.ascii) (s : string) :
  occurs sep s = false -> split sep s = [s].
Proof.
  induction s as [|c s IH]; [reflexivity|].
  simpl. intros H. apply Bool.orb_false_iff in H as [Hc Hs].
  rewrite Hc, (IH Hs). reflexivity.
Qed.

Lemma split_app (sep : Ascii.ascii) (s t : string) :
  split sep (s +:+ String sep t) = split sep s ++ split sep t.
Proof.
  induction s as [|c s IH].
  - rewrite GeminiFacts.app_nil. simpl. rewrite Ascii.eqb_refl. reflexivity.
  - rewrite GeminiFacts.app_cons. simpl. rewrite IH.
    destruct (Ascii.eqb c sep); [reflexivity|].
    destruct (split_nonempty sep s) as (piece & pieces & ->). reflexivity.
Qed.

Lemma pop_after_last_separator (sep : Ascii.ascii) (stem e : string) :
  occurs sep e = false ->
  pop (split sep (stem +:+ String sep e)) = Some e.
Proof.
  intros He. rewrite split_app, (split_without_separator _ _ He).
  unfold pop. apply last_snoc.
Qed.

Lemma extension_cases (originalName : string) :
  exists e,
    occurs dot e = false
    /\ extension originalName = (if String.eqb e "" then "jpg" else e)
    /\ (originalName = e \/ exists stem, originalName = stem +:+ String dot e).
Proof.
  induction originalName as [|c s (e & He & Hx & Hs)].
  - exists "". repeat split. left. reflexivity.
  - destruct (Ascii.eqb_spec c dot) as [->|Hc].
    + exists e. split; [exact He|]. split.
      * destruct Hs as [->|(stem & ->)].
        -- change (String dot e) with ("" +:+ String dot e).
           unfold extension. rewrite (pop_after_last_separator _ _ _ He).
           reflexivity.
        -- change (String dot (stem +:+ String dot e))
             with (String dot stem +:+ String dot e).
           unfold extension. rewrite (pop_after_last_separator _ _ _ He).
           reflexivity.
      * right. destruct Hs as [->|(stem & ->)].
        -- exists "". reflexivity.
        -- exists (String dot stem). reflexivity.
    + apply Ascii.eqb_neq in Hc. destruct Hs as [->|(stem & ->)].
      * exists (String c e). split; [simpl; rewrite Hc; exact He|]. split.
        -- unfold extension.
           rewrite split_without_separator by (simpl; rewrite Hc; exact He).
           reflexivity.
        -- left. reflexivity.
      * exists e. split; [exact He|]. split.
        -- change (String c (stem +:+ String dot e))
             with (String c stem +:+ String dot e).
           unfold extension. rewrite (pop_after_last_separator _ _ _ He).
           reflexivity.
        -- right. exists (String c stem). reflexivity.
Qed.

(** X21. The extension that [uploadProfilePicture] gives the stored
    picture is the text after the last dot of the original name, and the
    whole name when it holds no dot; where that text is empty (an empty
    name, a name ending in a dot) the extension is "jpg".  It is never
    empty and holds no dot. *)
Theorem extension_is_the_text_after_the_last_dot (stem e : string) :
  occurs dot e = false ->
  extension (stem +:+ "." +:+ e) = (if String.eqb e "" then "jpg" else e)
  /\ extension e = (if String.eqb e "" then "jpg" else e)
  /\ String.eqb (extension e) "" = false
  /\ occurs dot (extension e) = false.
Proof.
  intros He.
  assert (Hx : extension e = (if String.eqb e "" then "jpg" else e)).
  { unfold extension. rewrite (split_without_separator _ _ He). reflexivity. }
  split.
  - unfold extension.
    change ("." +:+ e) with (String dot e).
    rewrite (pop_after_last_separator _ _ _ He). reflexivity.
  - split; [exact Hx|]. rewrite Hx.
    destruct (String.eqb e "") eqn:Hempty; [split; reflexivity|].
    split; [exact Hempty|exact He].
Qed.

Lemma extension_is_the_text_after_the_last_dot_witness :
  extension "me.final.png" = "png" /\ extension "png" = "png".
Proof.
  destruct (extension_is_the_text_after_the_last_dot "me.final" "png" eq_refl)
    as (H1 & H2 & _).
  split; [exact H1|exact H2].
Defined.

(** ** Uploads and downloads *)

Section Service.

Variable GCP_STORAGE_BUCKET : option string.
Variable now_iso : string.
Variable now : float.
Variable utf8 : string -> string.
Variable missing_object : string -> string -> Thrown.
Variable sign : string -> string -> float -> string.

Lemma save_as_reads_back (bucket fileName : string) (file : StoredObject)
    (objects : Objects) :
  getBucketName GCP_STORAGE_BUCKET = inr bucket ->
  occurs slash bucket = false ->
  String.eqb fileName "" = false ->
  single_line fileName = true ->
  let url := gs_url bucket fileName in
  let objects' := <[(bucket, fileName) := file]> objects in
  save_as GCP_STORAGE_BUCKET fileName file objects = inr (url, objects')
  /\ parse_gs_url url = Some (bucket, fileName)
  /\ downloadFile utf8 missing_object url objects' = inr (utf8 (content file))
  /\ (forall minutes,
        getSignedUrl now sign url (Some minutes) objects'
        = inr (sign bucket fileName (now + minutes * 60 * 1000)%float))
  /\ (forall other,
        other <> url ->
        downloadFile utf8 missing_object other objects'
        = downloadFile utf8 missing_object other objects).
Proof.
  intros Hb Hs Hn Hl url objects'.
  assert (Hne : String.eqb bucket "" = false).
  { unfold getBucketName in Hb.
    destruct (String.eqb (or_default GCP_STORAGE_BUCKET "") "") eqn:E;
      [discriminate|].
    injection Hb as <-. exact E. }
  assert (Hp : parse_gs_url url = Some (bucket, fileName))
    by (apply parse_gs_url_build; assumption).
  split; [unfold save_as; rewrite Hb; reflexivity|].
  split; [exact Hp|].
  split; [unfold downloadFile; rewrite Hp; subst objects';
          rewrite lookup_insert_eq; reflexivity|].
  split.
  - intros minutes. unfold getSignedUrl. rewrite Hp. subst objects'.
    rewrite lookup_insert_eq. reflexivity.
  - intros other Hother. unfold downloadFile.
    destruct (parse_gs_url other) as [[b p]|] eqn:Ho; [|reflexivity].
    subst objects'. rewrite lookup_insert_ne; [reflexivity|].
    intros Heq. injection Heq as <- <-.
    apply parse_gs_url_inv in Ho as [Ho _]. apply Hother. exact Ho.
Qed.

(** X22. With the bucket variable set to a name without a slash, and when
    the name of the object, [uploads/<user>/<uuid>-<name>], holds no line
    terminator, [uploadFile] stores the buffer under that name and returns
    a url from which [downloadFile] gives the same content back and for
    which [getSignedUrl] issues a url that expires at the current time plus
    the given minutes, the sum taken in binary64; the download of every
    other url is as before the upload. *)
Theorem uploaded_file_reads_back
    (bucket uuid fileBuffer originalName userId : string) (objects : Objects) :
  getBucketName GCP_STORAGE_BUCKET = inr bucket ->
  occurs slash bucket = false ->
  single_line (upload_name userId uuid originalName) = true ->
  let url := gs_url bucket (upload_name userId uuid originalName) in
  exists objects',
    uploadFile GCP_STORAGE_BUCKET now_iso uuid fileBuffer originalName userId
      objects = inr (url, objects')
    /\ downloadFile utf8 missing_object url objects' = inr (utf8 fileBuffer)
    /\ (forall minutes,
          getSignedUrl now sign url (Some minutes) objects'
          = inr (sign bucket (upload_name userId uuid originalName)
                   (now + minutes * 60 * 1000)%float))
    /\ (forall other,
          other <> url ->
          downloadFile utf8 missing_object other objects'
          = downloadFile utf8 missing_object other objects).
Proof.
  intros Hb Hs Hl url.
  destruct (save_as_reads_back bucket (upload_name userId uuid originalName)
              {| content := fileBuffer; contentType := "text/plain";
                 meta_originalName := originalName; uploadedBy := userId;
                 uploadedAt := now_iso; meta_type := None |}
              objects Hb Hs eq_refl Hl) as (Hsave & _ & Hd & Hg & Hf).
  eexists. split; [exact Hsave|]. split; [exact Hd|]. split; [exact Hg|exact Hf].
Qed.

(** X23. Under the same condition on the bucket, and when the name of the
    object, [profile-pictures/<user>/<uuid>.<extension>], holds no line
    terminator, [uploadProfilePicture] stores the picture under that name
    with the given content type, and the url it returns downloads the same
    content and is signed, by default, for 365 * 24 * 60 minutes from the
    current time. *)
Theorem profile_picture_reads_back
    (bucket uuid fileBuffer originalName mimeType userId : string)
    (objects : Objects) :
  let fileName :=
    "profile-pictures/" +:+ userId +:+ "/" +:+ uuid +:+ "."
      +:+ extension originalName in
  getBucketName GCP_STORAGE_BUCKET = inr bucket ->
  occurs slash bucket = false ->
  single_line fileName = true ->
  exists objects' file,
    uploadProfilePicture GCP_STORAGE_BUCKET now_iso uuid fileBuffer originalName
      mimeType userId objects = inr (gs_url bucket fileName, objects')
    /\ objects' !! (bucket, fileName) = Some file
    /\ content file = fileBuffer
    /\ contentType file = mimeType
    /\ downloadFile utf8 missing_object (gs_url bucket fileName) objects'
       = inr (utf8 fileBuffer)
    /\ getSignedUrl now sign (gs_url bucket fileName) None objects'
       = inr (sign bucket fileName (now + 365 * 24 * 60 * 60 * 1000)%float).
Proof.
  intros fileName Hb Hs Hl.
  destruct (save_as_reads_back bucket fileName
              {| content := fileBuffer; contentType := mimeType;
                 meta_originalName := originalName; uploadedBy := userId;
                 uploadedAt := now_iso; meta_type := Some "profile-picture" |}
              objects Hb Hs eq_refl Hl) as (Hsave & Hp & Hd & _ & _).
  eexists. eexists. split; [exact Hsave|].
  split; [apply lookup_insert_eq|]. split; [reflexivity|]. split; [reflexivity|].
  split; [exact Hd|].
  unfold getSignedUrl. rewrite Hp, lookup_insert_eq. reflexivity.
Qed.

Lemma uploadFiles_stores_each (bucket userId : string) :
  getBucketName GCP_STORAGE_BUCKET = inr bucket ->
  forall (files : list UploadedFile) (objects : Objects),
  exists objects',
    uploadFiles GCP_STORAGE_BUCKET now_iso files userId objects
    = inr ((fun f => gs_url bucket
                       (upload_name userId (file_uuid f) (originalname f)))
             <$> files, objects')
    /\ (forall key,
          (forall f, f ∈ files ->
             key <> (bucket, upload_name userId (file_uuid f) (originalname f))) ->
          objects' !! key = objects !! key)
    /\ (NoDup ((fun f => upload_name userId (file_uuid f) (originalname f))
                 <$> files) ->
        forall f, f ∈ files ->
          exists o,
            objects' !! (bucket, upload_name userId (file_uuid f) (originalname f))
            = Some o
            /\ content o = buffer f).
Proof.
  intros Hb files.
  induction files as [|f fs IH]; intros objects.
  - exists objects. split; [reflexivity|]. split; [reflexivity|].
    intros _ f Hf. apply elem_of_nil in Hf. destruct Hf.
  - simpl. unfold uploadFile, save_as. rewrite Hb.
    match goal with
    | |- context [uploadFiles _ _ fs userId ?o] =>
        destruct (IH o) as (objects' & Hrun & Hframe & Hread)
    end.
    rewrite Hrun. exists objects'.
    fold (upload_name userId (file_uuid f) (originalname f)) in Hframe.
    split; [reflexivity|]. split.
    + intros key Hkey. rewrite Hframe.
      * apply lookup_insert_ne. intros Heq. symmetry in Heq. revert Heq.
        apply Hkey. apply list_elem_of_here.
      * intros g Hg. apply Hkey. apply list_elem_of_further, Hg.
    + intros Hnd g Hg.
      apply NoDup_cons in Hnd as [Hfresh Hnd].
      apply elem_of_cons in Hg as [->|Hg].
      * eexists. split.
        -- rewrite Hframe; [apply lookup_insert_eq|].
           intros h Hh Heq. apply (f_equal snd) in Heq. apply Hfresh.
           apply list_elem_of_fmap. exists h. split; [exact Heq|exact Hh].
        -- reflexivity.
      * apply (Hread Hnd g Hg).
Qed.

End Service.

(** ** Names of uploads *)

Lemma app_inv_head (p a b : string) : p +:+ a = p +:+ b -> a = b.
Proof.
  induction p as [|c p IH]; [trivial|].
  rewrite !GeminiFacts.app_cons. intros H. injection H as H. apply IH, H.
Qed.

Lemma app_same_length (u1 u2 a b : string) :
  String.length u1 = String.length u2 -> u1 +:+ a = u2 +:+ b -> u1 = u2.
Proof.
  revert u2. induction u1 as [|c u1 IH]; intros [|d u2] Hlen H;
    try discriminate; [reflexivity|].
  rewrite !GeminiFacts.app_cons in H. injection H as -> H.
  f_equal. apply IH; [|exact H]. simpl in Hlen. congruence.
Qed.

Lemma upload_name_inj (userId u1 u2 n1 n2 : string) :
  String.length u1 = String.length u2 ->
  upload_name userId u1 n1 = upload_name userId u2 n2 ->
  u1 = u2.
Proof.
  unfold upload_name. intros Hlen H.
  apply app_inv_head, app_inv_head, app_inv_head in H.
  apply (app_same_length _ _ _ _ Hlen H).
Qed.

Lemma upload_names_distinct (userId : string) (n : nat)
    (files : list UploadedFile) :
  Forall (fun f => String.length (file_uuid f) = n) files ->
  NoDup (file_uuid <$> files) ->
  NoDup ((fun f => upload_name userId (file_uuid f) (originalname f)) <$> files).
Proof.
  induction files as [|f fs IH]; intros Hlen Hnd; [constructor|].
  rewrite fmap_cons in Hnd |- *.
  apply NoDup_cons in Hnd as [Hfresh Hnd].
  apply Forall_cons in Hlen as [Hf Hlen].
  apply NoDup_cons. split; [|apply IH; assumption].
  intros Hin. apply list_elem_of_fmap in Hin as (g & Heq & Hg).
  apply Hfresh. apply list_elem_of_fmap. exists g. split; [|exact Hg].
  eapply upload_name_inj; [|exact Heq].
  rewrite Hf. symmetry. apply (proj1 (Forall_forall _ _) Hlen g Hg).
Qed.

(** X24. [uploadFiles] returns one url per file, in the order of the
    files, and each url downloads the content of its own file: no upload
    of the batch overwrites another, provided the identifiers drawn are
    pairwise distinct and of one length (as those of [uuidv4] are), the
    bucket name holds no slash and no object name a line terminator. *)
Theorem batch_upload_reads_back
    (GCP_STORAGE_BUCKET : option string) (now_iso : string)
    (utf8 : string -> string) (missing_object : string -> string -> Thrown)
    (bucket userId : string) (n : nat)
    (files : list UploadedFile) (objects : Objects) :
  getBucketName GCP_STORAGE_BUCKET = inr bucket ->
  occurs slash bucket = false ->
  Forall (fun f =>
            single_line (upload_name userId (file_uuid f) (originalname f))
            = true
            /\ String.length (file_uuid f) = n) files ->
  NoDup (file_uuid <$> files) ->
  exists urls objects',
    uploadFiles GCP_STORAGE_BUCKET now_iso files userId objects
    = inr (urls, objects')
    /\ length urls = length files
    /\ forall i file url,
         files !! i = Some file ->
         urls !! i = Some url ->
         url = gs_url bucket
                 (upload_name userId (file_uuid file) (originalname file))
         /\ downloadFile utf8 missing_object url objects'
            = inr (utf8 (buffer file)).
Proof.
  intros Hb Hs Hfiles Hnd.
  destruct (uploadFiles_stores_each GCP_STORAGE_BUCKET now_iso bucket userId Hb
              files objects) as (objects' & Hrun & _ & Hread).
  eexists. exists objects'. split; [exact Hrun|].
  split; [apply length_fmap|].
  intros i file url Hfile Hurl.
  rewrite list_lookup_fmap, Hfile in Hurl. injection Hurl as <-.
  split; [reflexivity|].
  assert (Hin : file ∈ files) by (eapply list_elem_of_lookup_2; exact Hfile).
  destruct (proj1 (Forall_forall _ _) Hfiles file Hin) as (Hl & _).
  assert (Hne' : String.eqb bucket "" = false).
  { unfold getBucketName in Hb.
    destruct (String.eqb (or_default GCP_STORAGE_BUCKET "") "") eqn:E;
      [discriminate|].
    injection Hb as <-. exact E. }
  unfold downloadFile.
  rewrite (parse_gs_url_build bucket
             (upload_name userId (file_uuid file) (originalname file))
             Hne' Hs eq_refl Hl).
  destruct (Hread (upload_names_distinct userId n files
                     (Forall_impl _ _ _ Hfiles (fun f H => proj2 H)) Hnd)
              file Hin) as (o & -> & ->).
  reflexivity.
Qed.

Lemma batch_upload_reads_back_witness :
  exists urls objects',
    uploadFiles (Some "games") "2026-01-05T10:00:00.000Z"
      [ {| file_uuid := "0b1c"; buffer := "1. e4 e5"; originalname := "one.pgn" |};
        {| file_uuid := "7f3a"; buffer := "1. d4 d5"; originalname := "two.pgn" |} ]
      "u1" ∅
    = inr (urls, objects')
    /\ length urls = 2.
Proof.
  destruct (batch_upload_reads_back (Some "games") "2026-01-05T10:00:00.000Z"
              id (fun _ _ => NotAnError) "games" "u1" 4
              [ {| file_uuid := "0b1c"; buffer := "1. e4 e5";
                   originalname := "one.pgn" |};
                {| file_uuid := "7f3a"; buffer := "1. d4 d5";
                   originalname := "two.pgn" |} ]
              ∅ eq_refl eq_refl)
    as (urls & objects' & Hrun & Hlen & _).
  - repeat constructor.
  - apply NoDup_cons. split; [|apply NoDup_singleton].
    intros H. apply list_elem_of_singleton in H. discriminate H.
  - exists urls, objects'. split; [exact Hrun|exact Hlen].
Defined.

Lemma uploaded_file_reads_back_witness :
  exists objects',
    uploadFile (Some "games") "2026-01-05T10:00:00.000Z" "0b1c" "1. e4 e5"
      "one.pgn" "u1" ∅
    = inr ("gs://games/uploads/u1/0b1c-one.pgn", objects')
    /\ downloadFile id (fun _ _ => NotAnError)
         "gs://games/uploads/u1/0b1c-one.pgn" objects'
       = inr "1. e4 e5".
Proof.
  destruct (uploaded_file_reads_back (Some "games") "2026-01-05T10:00:00.000Z"
              0%float id (fun _ _ => NotAnError) (fun _ _ _ => "signed")
              "games" "0b1c" "1. e4 e5" "one.pgn" "u1" ∅
              eq_refl eq_refl eq_refl)
    as (objects' & Hrun & Hread & _).
  exists objects'. split; [exact Hrun|exact Hread].
Defined.

Lemma profile_picture_reads_back_witness :
  exists objects',
    uploadProfilePicture (Some "games") "2026-01-05T10:00:00.000Z" "0b1c"
      "bytes" "me.final.png" "image/png" "u1" ∅
    = inr ("gs://games/profile-pictures/u1/0b1c.png", objects').
Proof.
  destruct (profile_picture_reads_back (Some "games") "2026-01-05T10:00:00.000Z"
              0%float id (fun _ _ => NotAnError) (fun _ _ _ => "signed")
              "games" "0b1c" "bytes" "me.final.png" "image/png" "u1" ∅
              eq_refl eq_refl eq_refl)
    as (objects' & file & Hrun & _).
  exists objects'. exact Hrun.
Defined.

End StorageFacts.
